(** * The reactivity core of packages/reactivity/src/effect.ts

    A shallow embedding of the dependency-tracking engine: the registry
    [targetMap], the tracking context ([activeEffect], [effectStack],
    [shouldTrack], [trackStack]), reactive effects, and the operations
    [effect], [stop], [cleanup], [pauseTracking], [enableTracking],
    [resetTracking], [track] and [trigger].

    JavaScript objects that the source shares by reference (every [Dep] is
    a [Set] reachable both from its [KeyToDepMap] and from the [deps] array
    of each subscribed effect; every effect is reachable from dependency
    sets, from the stack and from user code) live in two heaps of the
    state and are named by their allocation index.  User code (the wrapped
    computations and the option callbacks) is a tree of calls into the
    core, interpreted with a step budget. *)

From Stdlib Require Import ZArith Ascii String List Lia.
From stdpp Require Import base decidable option list gmap strings.

#[local] Set Warnings "-register-all".

(* ===================================================================== *)
(** ** JavaScript values that occur as keys and payloads *)
(* ===================================================================== *)

(** Primitive values: [undefined], integral numbers, strings over code
    units below 256, and symbols (named by a serial number; two symbols are
    the same value exactly when the numbers agree). *)
Inductive value : Type :=
| VUndef
| VNum (z : Z)
| VStr (s : string)
| VSym (n : nat).

#[global] Instance value_eq_dec : EqDecision value.
Proof. solve_decision. Defined.

(** What a [throw] carries: an error raised by the language runtime, or a
    value thrown by user code. *)
Inductive exn : Type :=
| TypeError (msg : string)
| UserError (v : value).

(** [export const ITERATE_KEY = Symbol(...)] and
    [export const MAP_KEY_ITERATE_KEY = Symbol(...)]: two distinct symbols. *)
Definition ITERATE_KEY : value := VSym 0.
Definition MAP_KEY_ITERATE_KEY : value := VSym 1.

(** *** The relational operator [>=] of the language

    [trigger] evaluates [key >= newValue].  The operator converts both
    operands: two strings are compared by code units; a symbol operand
    cannot be converted to a number and the evaluation throws a
    [TypeError]; every other operand goes through [ToNumber], and a [NaN]
    on either side makes the comparison false. *)

(** Numbers as [ToNumber] produces them from strings: exact decimal
    [m * 10^e], the infinities, and [NaN].  (Rounding to binary64 is not
    represented.) *)
Inductive jsnum : Type :=
| NaN
| Fin (m e : Z)
| Inf (negative : bool).

Definition is_ws (c : ascii) : bool :=
  let n := nat_of_ascii c in
  (Nat.eqb n 9 || Nat.eqb n 10 || Nat.eqb n 11 || Nat.eqb n 12 ||
   Nat.eqb n 13 || Nat.eqb n 32 || Nat.eqb n 160)%bool.

Fixpoint drop_ws (l : list ascii) : list ascii :=
  match l with
  | c :: r => if is_ws c then drop_ws r else l
  | [] => []
  end.

Definition trim_ws (l : list ascii) : list ascii :=
  rev (drop_ws (rev (drop_ws l))).

(** The value of a digit in the given radix. *)
Definition digit_of (radix : Z) (c : ascii) : option Z :=
  let n := Z.of_nat (nat_of_ascii c) in
  let d :=
    if ((48 <=? n) && (n <=? 57))%Z then Some (n - 48)%Z
    else if ((97 <=? n) && (n <=? 102))%Z then Some (n - 87)%Z
    else if ((65 <=? n) && (n <=? 70))%Z then Some (n - 55)%Z
    else None in
  match d with
  | Some v => if (v <? radix)%Z then Some v else None
  | None => None
  end.

(** Longest run of digits at the head of [l]: its value on top of [acc],
    how many digits were read, and what follows. *)
Fixpoint read_digits (radix : Z) (l : list ascii) (acc : Z) (n : nat)
  : Z * nat * list ascii :=
  match l with
  | c :: r =>
      match digit_of radix c with
      | Some d => read_digits radix r (acc * radix + d)%Z (S n)
      | None => (acc, n, l)
      end
  | [] => (acc, n, [])
  end.

Definition read_sign (l : list ascii) : bool * list ascii :=
  match l with
  | c :: r =>
      if Ascii.eqb c "+"%char then (false, r)
      else if Ascii.eqb c "-"%char then (true, r)
      else (false, l)
  | [] => (false, l)
  end.

(** [ExponentPart?] followed by the end of the literal. *)
Definition read_exponent (l : list ascii) : option Z :=
  match l with
  | [] => Some 0%Z
  | c :: r =>
      if (Ascii.eqb c "e"%char || Ascii.eqb c "E"%char)%bool then
        let '(neg, r1) := read_sign r in
        match read_digits 10 r1 0 0 with
        | (v, S _, []) => Some (if neg then (- v)%Z else v)
        | _ => None
        end
      else None
  end.

(** [StrUnsignedDecimalLiteral]. *)
Definition read_unsigned_decimal (l : list ascii) : jsnum :=
  if decide (l = list_ascii_of_string "Infinity"%string) then Inf false else
  let '(ip, ni, r1) := read_digits 10 l 0 0 in
  let '(m, nf, r2) :=
    match r1 with
    | "."%char :: r => read_digits 10 r ip 0
    | _ => (ip, 0, r1)
    end in
  match ni + nf with
  | 0 => NaN
  | S _ =>
      match read_exponent r2 with
      | Some x => Fin m (x - Z.of_nat nf)
      | None => NaN
      end
  end.

Definition negate (x : jsnum) : jsnum :=
  match x with
  | NaN => NaN
  | Fin m e => Fin (- m) e
  | Inf b => Inf (negb b)
  end.

Definition read_radix (radix : Z) (l : list ascii) : jsnum :=
  match read_digits radix l 0 0 with
  | (v, S _, []) => Fin v 0
  | _ => NaN
  end.

(** The radix that a prefix [0x], [0o] or [0b] announces, and what follows
    the prefix. *)
Definition radix_prefix (l : list ascii) : option (Z * list ascii) :=
  match l with
  | c0 :: c :: r =>
      if Ascii.eqb c0 "0"%char then
        if (Ascii.eqb c "x"%char || Ascii.eqb c "X"%char)%bool then Some (16%Z, r)
        else if (Ascii.eqb c "o"%char || Ascii.eqb c "O"%char)%bool then Some (8%Z, r)
        else if (Ascii.eqb c "b"%char || Ascii.eqb c "B"%char)%bool then Some (2%Z, r)
        else None
      else None
  | _ => None
  end.

(** [StringToNumber]: white space is stripped at both ends; the empty
    string is [0]; [0x], [0o] and [0b] introduce unsigned integers in
    radix 16, 8 and 2; everything else is a signed decimal literal. *)
Definition number_of_chars (l : list ascii) : jsnum :=
  match trim_ws l with
  | [] => Fin 0 0
  | t =>
      match radix_prefix t with
      | Some (radix, r) => read_radix radix r
      | None =>
          let '(neg, r) := read_sign t in
          let x := read_unsigned_decimal r in
          if neg then negate x else x
      end
  end.

Definition StringToNumber (s : string) : jsnum :=
  number_of_chars (list_ascii_of_string s).

(** [ToNumber] on the values of the model; [None] is the [TypeError] that
    a symbol operand raises. *)
Definition ToNumber (v : value) : option jsnum :=
  match v with
  | VUndef => Some NaN
  | VNum z => Some (Fin z 0)
  | VStr s => Some (StringToNumber s)
  | VSym _ => None
  end.

(** [x < y] on numbers; [None] is the undefined result of a comparison
    with [NaN]. *)
Definition jsnum_lt (x y : jsnum) : option bool :=
  match x, y with
  | NaN, _ | _, NaN => None
  | Inf true, Inf true => Some false
  | Inf true, _ => Some true
  | _, Inf true => Some false
  | Inf false, _ => Some false
  | _, Inf false => Some true
  | Fin m1 e1, Fin m2 e2 =>
      let e := Z.min e1 e2 in
      Some (m1 * 10 ^ (e1 - e) <? m2 * 10 ^ (e2 - e))%Z
  end.

(** [a >= b]: the negation of [a < b], false when that is undefined.
    Numbers are compared as the decimals they are written as.  This is
    the comparison of the numbers of the source, which are rounded to
    binary64, where both operands are integers of at most 2^53 in
    absolute value, and also where one operand is such an integer and the
    other a larger integer, rounding being monotone.  The operands are
    primitive values; an object operand, whose conversion runs code of
    its own, has no counterpart here. *)
Definition js_ge (a b : value) : exn + bool :=
  match a, b with
  | VStr s1, VStr s2 => inr (negb (String.ltb s1 s2))
  | _, _ =>
      match ToNumber a, ToNumber b with
      | Some x, Some y =>
          inr (match jsnum_lt x y with Some r => negb r | None => false end)
      | _, _ => inl (TypeError "Cannot convert a Symbol value to a number"%string)
      end
  end.

(* ===================================================================== *)
(** ** Observed objects, operation kinds, keys *)
(* ===================================================================== *)

(** An observed object, by identity and by what [isArray] and [isMap]
    answer for it. *)
Inductive target : Type :=
| TPlain (n : nat)
| TArray (n : nat)
| TMap (n : nat)
| TSet (n : nat).

#[global] Instance target_eq_dec : EqDecision target.
Proof. solve_decision. Defined.

Definition target_code (t : target) : nat * nat :=
  match t with
  | TPlain n => (0, n)
  | TArray n => (1, n)
  | TMap n => (2, n)
  | TSet n => (3, n)
  end.

Definition target_decode (c : nat * nat) : target :=
  match c with
  | (0, n) => TPlain n
  | (1, n) => TArray n
  | (2, n) => TMap n
  | (_, n) => TSet n
  end.

#[global] Instance target_countable : Countable target.
Proof.
  apply (inj_countable' target_code target_decode).
  intros []; reflexivity.
Defined.

(** Modelled from the spec: [isArray] of @vue/shared is not among the
    sources; it answers whether the object is array-like. *)
Definition isArray (t : target) : bool :=
  match t with TArray _ => true | _ => false end.

(** Modelled from the spec: [isMap] of @vue/shared is not among the
    sources; it answers whether the object is map-like. *)
Definition isMap (t : target) : bool :=
  match t with TMap _ => true | _ => false end.

Definition all_decimal (l : list ascii) : bool :=
  forallb (fun c => match digit_of 10 c with Some _ => true | None => false end) l.

(** Modelled from the spec: [isIntegerKey] of @vue/shared is not among the
    sources; it answers whether the key is a valid integer index, that is
    a string that spells a natural number in decimal without sign, padding
    or leading zero. *)
Definition isIntegerKey (k : value) : bool :=
  match k with
  | VStr s =>
      match list_ascii_of_string s with
      | [] => false
      | c :: r =>
          if Ascii.eqb c "0"%char then
            match r with [] => true | _ :: _ => false end
          else all_decimal (c :: r)
      end
  | _ => false
  end.


(** Modelled from the spec: the kinds of ./operations, which is not among
    the sources: Get/Has/Iterate for [track], Set/Add/Delete/Clear for
    [trigger]. *)
Inductive TrackOpTypes : Type := GET | HAS | ITERATE.
Inductive TriggerOpTypes : Type := SET | ADD | DELETE | CLEAR.

#[global] Instance TriggerOpTypes_eq_dec : EqDecision TriggerOpTypes.
Proof. solve_decision. Defined.

(** References into the two heaps of the state. *)
Abbreviation eref := nat (only parsing).
Abbreviation dref := nat (only parsing).

(** [type DebuggerEvent]; a property the caller leaves out reads as
    [undefined]. *)
Record DebuggerEvent : Type := {
  ev_effect : eref;
  ev_target : target;
  ev_type : TrackOpTypes + TriggerOpTypes;
  ev_key : value;
  ev_newValue : value;
  ev_oldValue : value;
  ev_oldTarget : option target
}.

(* ===================================================================== *)
(** ** User code *)
(* ===================================================================== *)

(** Mutable state of the embedding application that the computations read
    and write besides the core (closure variables, raw object fields). *)
Abbreviation world := (list value) (only parsing).

(** [interface ReactiveEffectOptions], over the representation [P] of user
    code.  An optional flag that is left out is falsy. *)
Record ReactiveEffectOptions_ (P : Type) : Type := {
  lazy : bool;
  scheduler : option (eref -> P);
  onTrack : option (DebuggerEvent -> P);
  onTrigger : option (DebuggerEvent -> P);
  onStop : option P;
  opt_allowRecurse : bool
}.
Arguments lazy {P} _.
Arguments scheduler {P} _.
Arguments onTrack {P} _.
Arguments onTrigger {P} _.
Arguments onStop {P} _.
Arguments opt_allowRecurse {P} _.

(** A function body of the application: it returns or throws, reads and
    writes its own state, and calls the exported operations of the core
    (the interception layer calls [track] and [trigger] on its behalf). *)
Inductive prog : Type :=
| Ret (v : value)
| Throw (v : value)
| Get (k : world -> prog)
| Put (w : world) (k : prog)
| Track (t : target) (ty : TrackOpTypes) (key : value) (k : prog)
| Trigger (t : target) (ty : TriggerOpTypes) (key newValue oldValue : value)
          (oldTarget : option target) (k : prog)
| PauseTracking (k : prog)
| EnableTracking (k : prog)
| ResetTracking (k : prog)
| Stop (e : eref) (k : prog)
| Call (e : eref) (k : value -> prog)
| NewEffect (fn : prog + eref) (o : ReactiveEffectOptions_ prog)
            (k : eref -> prog).

Definition ReactiveEffectOptions : Type := ReactiveEffectOptions_ prog.

(** [EMPTY_OBJ], the default options. *)
Definition EMPTY_OBJ : ReactiveEffectOptions :=
  {| lazy := false; scheduler := None; onTrack := None; onTrigger := None;
     onStop := None; opt_allowRecurse := false |}.

(* ===================================================================== *)
(** ** Effects, dependency sets, the state *)
(* ===================================================================== *)

(** [type Dep = Set<ReactiveEffect>]: the members in insertion order. *)
Abbreviation Dep := (list eref) (only parsing).

(** [type KeyToDepMap = Map<any, Dep>]: the entries in insertion order,
    each naming its set in the heap. *)
Abbreviation KeyToDepMap := (list (value * dref)) (only parsing).

(** [interface ReactiveEffect]; the function itself is [reactiveEffect]
    below, applied to the reference of the record. *)
Record ReactiveEffect : Type := {
  id : nat;
  active : bool;
  raw : prog;
  deps : list dref;
  options : ReactiveEffectOptions;
  allowRecurse : bool
}.

Record state : Type := {
  dev : bool;                              (* __DEV__ *)
  targetMap : gmap target KeyToDepMap;
  depHeap : list Dep;
  effHeap : list ReactiveEffect;
  effectStack : list eref;                 (* bottom first *)
  activeEffect : option eref;
  uid : nat;
  shouldTrack : bool;
  trackStack : list bool;                  (* bottom first *)
  user : world
}.

(** The state when the module has been loaded. *)
Definition init (dev_build : bool) (w : world) : state :=
  {| dev := dev_build; targetMap := ∅; depHeap := []; effHeap := [];
     effectStack := []; activeEffect := None; uid := 0;
     shouldTrack := true; trackStack := []; user := w |}.

Definition set_targetMap (m : gmap target KeyToDepMap) (st : state) : state :=
  {| dev := dev st; targetMap := m; depHeap := depHeap st;
     effHeap := effHeap st; effectStack := effectStack st;
     activeEffect := activeEffect st; uid := uid st;
     shouldTrack := shouldTrack st; trackStack := trackStack st;
     user := user st |}.

Definition set_depHeap (h : list Dep) (st : state) : state :=
  {| dev := dev st; targetMap := targetMap st; depHeap := h;
     effHeap := effHeap st; effectStack := effectStack st;
     activeEffect := activeEffect st; uid := uid st;
     shouldTrack := shouldTrack st; trackStack := trackStack st;
     user := user st |}.

Definition set_effHeap (h : list ReactiveEffect) (st : state) : state :=
  {| dev := dev st; targetMap := targetMap st; depHeap := depHeap st;
     effHeap := h; effectStack := effectStack st;
     activeEffect := activeEffect st; uid := uid st;
     shouldTrack := shouldTrack st; trackStack := trackStack st;
     user := user st |}.

Definition set_effectStack (s : list eref) (st : state) : state :=
  {| dev := dev st; targetMap := targetMap st; depHeap := depHeap st;
     effHeap := effHeap st; effectStack := s;
     activeEffect := activeEffect st; uid := uid st;
     shouldTrack := shouldTrack st; trackStack := trackStack st;
     user := user st |}.

Definition set_activeEffect (a : option eref) (st : state) : state :=
  {| dev := dev st; targetMap := targetMap st; depHeap := depHeap st;
     effHeap := effHeap st; effectStack := effectStack st;
     activeEffect := a; uid := uid st;
     shouldTrack := shouldTrack st; trackStack := trackStack st;
     user := user st |}.

Definition set_uid (n : nat) (st : state) : state :=
  {| dev := dev st; targetMap := targetMap st; depHeap := depHeap st;
     effHeap := effHeap st; effectStack := effectStack st;
     activeEffect := activeEffect st; uid := n;
     shouldTrack := shouldTrack st; trackStack := trackStack st;
     user := user st |}.

Definition set_shouldTrack (b : bool) (st : state) : state :=
  {| dev := dev st; targetMap := targetMap st; depHeap := depHeap st;
     effHeap := effHeap st; effectStack := effectStack st;
     activeEffect := activeEffect st; uid := uid st;
     shouldTrack := b; trackStack := trackStack st;
     user := user st |}.

Definition set_trackStack (s : list bool) (st : state) : state :=
  {| dev := dev st; targetMap := targetMap st; depHeap := depHeap st;
     effHeap := effHeap st; effectStack := effectStack st;
     activeEffect := activeEffect st; uid := uid st;
     shouldTrack := shouldTrack st; trackStack := s;
     user := user st |}.

Definition set_user (w : world) (st : state) : state :=
  {| dev := dev st; targetMap := targetMap st; depHeap := depHeap st;
     effHeap := effHeap st; effectStack := effectStack st;
     activeEffect := activeEffect st; uid := uid st;
     shouldTrack := shouldTrack st; trackStack := trackStack st;
     user := w |}.

(** Field updates of one effect object. *)
Definition with_deps (l : list dref) (x : ReactiveEffect) : ReactiveEffect :=
  {| id := id x; active := active x; raw := raw x; deps := l;
     options := options x; allowRecurse := allowRecurse x |}.

Definition with_active (b : bool) (x : ReactiveEffect) : ReactiveEffect :=
  {| id := id x; active := b; raw := raw x; deps := deps x;
     options := options x; allowRecurse := allowRecurse x |}.

(* ===================================================================== *)
(** ** How a call ends *)
(* ===================================================================== *)

(** A call returns, throws, or yields no answer in the model: the step
    budget ran out, or a reference named no object of the heap. *)
Inductive halt : Type := OutOfFuel | BadRef.

Inductive completion (A : Type) : Type :=
| Normal (a : A)
| Thrown (x : exn)
| Halted (h : halt).
Arguments Normal {A} a.
Arguments Thrown {A} x.
Arguments Halted {A} h.

Definition M (A : Type) : Type := state -> completion A * state.

Definition ret {A} (a : A) : M A := fun st => (Normal a, st).
Definition throw {A} (x : exn) : M A := fun st => (Thrown x, st).

Definition bind {A B} (m : M A) (k : A -> M B) : M B :=
  fun st =>
    match m st with
    | (Normal a, st1) => k a st1
    | (Thrown x, st1) => (Thrown x, st1)
    | (Halted h, st1) => (Halted h, st1)
    end.

Notation "x <~ m ; k" := (bind m (fun x => k))
  (at level 20, m at level 100, k at level 200, only parsing,
   right associativity).
Notation "m ;; k" := (bind m (fun _ => k))
  (at level 100, k at level 200, only parsing, right associativity).

(** A state change that cannot fail. *)
Definition modify (f : state -> state) : M unit :=
  fun st => (Normal tt, f st).

(* ===================================================================== *)
(** ** Sets, maps and arrays of the language *)
(* ===================================================================== *)

(** [Set.prototype.add], [delete] and [has] on the members in insertion
    order. *)
Definition set_add (e : eref) (s : list eref) : list eref :=
  if decide (e ∈ s) then s else s ++ [e].

Definition set_delete (e : eref) (s : list eref) : list eref :=
  filter (fun x => x ≠ e) s.

Definition set_has (e : eref) (s : list eref) : bool :=
  bool_decide (e ∈ s).

(** [Map.prototype.get]: the set stored under the key, if any. *)
Fixpoint depsMap_get (m : KeyToDepMap) (key : value) : option dref :=
  match m with
  | [] => None
  | (k, d) :: r => if decide (k = key) then Some d else depsMap_get r key
  end.

(** The effect object behind a reference. *)
Definition get_effect (e : eref) : M ReactiveEffect :=
  fun st =>
    match effHeap st !! e with
    | Some x => (Normal x, st)
    | None => (Halted BadRef, st)
    end.

(** The members of the set behind a reference. *)
Definition dep_members (st : state) (d : dref) : Dep :=
  default [] (depHeap st !! d).

(** [Array.prototype.forEach] with a callback that changes the state. *)
Fixpoint forEach {A} (f : A -> M unit) (l : list A) : M unit :=
  match l with
  | [] => ret tt
  | x :: r => f x;; forEach f r
  end.

(** [try { body } finally { fin }]: [fin] runs however [body] ends, and
    then the completion of [body] stands.  (A body that yields no answer
    never reaches the [finally] block.) *)
Definition try_finally {A} (body : M A) (fin : state -> state) : M A :=
  fun st =>
    match body st with
    | (Halted h, st1) => (Halted h, st1)
    | (r, st1) => (r, fin st1)
    end.

(* ===================================================================== *)
(** ** Tracking context controls (effect.ts, lines 143-162) *)
(* ===================================================================== *)

(** [pauseTracking]: [trackStack.push(shouldTrack); shouldTrack = false]. *)
Definition pauseTracking (st : state) : state :=
  set_shouldTrack false (set_trackStack (trackStack st ++ [shouldTrack st]) st).

(** [enableTracking]: [trackStack.push(shouldTrack); shouldTrack = true]. *)
Definition enableTracking (st : state) : state :=
  set_shouldTrack true (set_trackStack (trackStack st ++ [shouldTrack st]) st).

(** [resetTracking]: [const last = trackStack.pop();
    shouldTrack = last === undefined ? true : last]. *)
Definition resetTracking (st : state) : state :=
  let last_ := last (trackStack st) in
  let st1 := set_trackStack (removelast (trackStack st)) st in
  set_shouldTrack (match last_ with None => true | Some b => b end) st1.

(* ===================================================================== *)
(** ** cleanup, stop, the effect function (lines 87-141) *)
(* ===================================================================== *)

(** [cleanup]: [deps[i].delete(effect)] for every [i], then
    [deps.length = 0]; nothing at all when [deps] is empty. *)
Definition cleanup_state (e : eref) (x : ReactiveEffect) (st : state) : state :=
  match deps x with
  | [] => st
  | ds =>
      let h := foldl (fun h d => alter (set_delete e) d h) (depHeap st) ds in
      set_effHeap (<[e := with_deps [] x]> (effHeap st)) (set_depHeap h st)
  end.

Definition cleanup (e : eref) : M unit :=
  x <~ get_effect e;
  modify (cleanup_state e x).

(** [effect.active = false]. *)
Definition deactivate (e : eref) (st : state) : state :=
  set_effHeap (alter (with_active false) e (effHeap st)) st.

(** [stop]. *)
Definition stop (call : prog -> M value) (e : eref) : M unit :=
  x <~ get_effect e;
  if active x then
    cleanup e;;
    (match onStop (options x) with
     | Some h => call h;; ret tt
     | None => ret tt
     end);;
    modify (deactivate e)
  else ret tt.

(** The [try] block of the effect function up to the call of [fn]. *)
Definition enter (e : eref) (st : state) : state :=
  let st1 := enableTracking st in
  let st2 := set_effectStack (effectStack st1 ++ [e]) st1 in
  set_activeEffect (Some e) st2.

(** The [finally] block of the effect function. *)
Definition leave (st : state) : state :=
  let st1 := set_effectStack (removelast (effectStack st)) st in
  let st2 := resetTracking st1 in
  set_activeEffect (last (effectStack st2)) st2.

(** [function reactiveEffect()], the function that an effect is; [fn] and
    [options] of its closure are the [raw] and [options] fields. *)
Definition reactiveEffect (call : prog -> M value) (e : eref) : M value :=
  x <~ get_effect e;
  if negb (active x) then
    match scheduler (options x) with
    | Some _ => ret VUndef
    | None => call (raw x)
    end
  else
    fun st =>
      if negb (bool_decide (e ∈ effectStack st)) then
        (cleanup e;;
         try_finally (fun st1 => call (raw x) (enter e st1)) leave) st
      else ret VUndef st.

(** [createReactiveEffect]: a new effect object; the result is its
    reference.  [uid] counts in [nat]; the counter of the source is a
    number, on which [uid++] counts exactly up to 2^53. *)
Definition createReactiveEffect (fn : prog) (o : ReactiveEffectOptions)
  : M eref :=
  fun st =>
    let x := {| id := uid st; active := true; raw := fn; deps := [];
                options := o; allowRecurse := opt_allowRecurse o |} in
    (Normal (length (effHeap st)),
     set_effHeap (effHeap st ++ [x]) (set_uid (S (uid st)) st)).

(** [effect]: [fn] is a plain function or, when [isEffect(fn)], an effect
    whose [raw] is wrapped again. *)
Definition effect (call : prog -> M value) (fn : prog + eref)
    (o : ReactiveEffectOptions) : M eref :=
  f <~ (match fn with
        | inl p => ret p
        | inr e0 => x <~ get_effect e0; ret (raw x)
        end);
  e <~ createReactiveEffect f o;
  (if negb (lazy o) then reactiveEffect call e;; ret tt else ret tt);;
  ret e.

(* ===================================================================== *)
(** ** track (lines 164-211) *)
(* ===================================================================== *)

Definition track_event (a : eref) (t : target) (ty : TrackOpTypes)
    (key : value) : DebuggerEvent :=
  {| ev_effect := a; ev_target := t; ev_type := inl ty; ev_key := key;
     ev_newValue := VUndef; ev_oldValue := VUndef; ev_oldTarget := None |}.

(** [targetMap.get(target)], with [targetMap.set(target, new Map())] when
    there is none. *)
Definition get_depsMap (t : target) : M KeyToDepMap :=
  fun st =>
    match targetMap st !! t with
    | Some m => (Normal m, st)
    | None => (Normal [], set_targetMap (<[t := []]> (targetMap st)) st)
    end.

(** [depsMap.get(key)], with [depsMap.set(key, new Set())] when there is
    none. *)
Definition get_dep (t : target) (depsMap : KeyToDepMap) (key : value)
  : M dref :=
  fun st =>
    match depsMap_get depsMap key with
    | Some d => (Normal d, st)
    | None =>
        let d := length (depHeap st) in
        (Normal d,
         set_targetMap (<[t := depsMap ++ [(key, d)]]> (targetMap st))
           (set_depHeap (depHeap st ++ [[]]) st))
    end.

(** [dep.add(activeEffect); activeEffect.deps.push(dep)]. *)
Definition link (a : eref) (x : ReactiveEffect) (d : dref) (st : state)
  : state :=
  let st1 := set_depHeap (alter (set_add a) d (depHeap st)) st in
  set_effHeap (<[a := with_deps (deps x ++ [d]) x]> (effHeap st1)) st1.

Definition track (call : prog -> M value) (t : target) (ty : TrackOpTypes)
    (key : value) : M unit :=
  fun st =>
    match shouldTrack st, activeEffect st with
    | true, Some a =>
        (depsMap <~ get_depsMap t;
         d <~ get_dep t depsMap key;
         fun st1 =>
           if negb (set_has a (dep_members st1 d)) then
             (x <~ get_effect a;
              modify (link a x d);;
              fun st2 =>
                match dev st2, onTrack (options x) with
                | true, Some h => (call (h (track_event a t ty key));; ret tt) st2
                | _, _ => ret tt st2
                end) st1
           else ret tt st1) st
    | _, _ => ret tt st
    end.

(* ===================================================================== *)
(** ** trigger (lines 217-316) *)
(* ===================================================================== *)

(** [effect !== activeEffect || effect.allowRecurse]. *)
Definition eligible (st : state) (e : eref) : bool :=
  negb (bool_decide (activeEffect st = Some e))
  || match effHeap st !! e with
     | Some x => allowRecurse x
     | None => false
     end.

(** The local function [add]; [effects] is the local set it fills. *)
Definition add (st : state) (effectsToAdd : option dref)
    (effects : list eref) : list eref :=
  match effectsToAdd with
  | Some d =>
      foldl (fun acc e => if eligible st e then set_add e acc else acc)
        effects (dep_members st d)
  | None => effects
  end.

(** [depsMap.forEach((dep, key) => { if (key === 'length' ||
    key >= newValue) add(dep) })]; the comparison can throw. *)
Fixpoint add_from_length (st : state) (m : KeyToDepMap) (newValue : value)
    (effects : list eref) : exn + list eref :=
  match m with
  | [] => inr effects
  | (k, d) :: r =>
      if decide (k = VStr "length"%string) then
        add_from_length st r newValue (add st (Some d) effects)
      else
        match js_ge k newValue with
        | inl x => inl x
        | inr true => add_from_length st r newValue (add st (Some d) effects)
        | inr false => add_from_length st r newValue effects
        end
  end.

(** The first half of [trigger]: the [if]/[else if]/[else] that fills
    [effects]. *)
Definition collect (st : state) (depsMap : KeyToDepMap) (t : target)
    (ty : TriggerOpTypes) (key newValue : value) : exn + list eref :=
  let effects : list eref := [] in
  if decide (ty = CLEAR) then
    inr (foldl (fun acc kd => add st (Some (snd kd)) acc) effects depsMap)
  else if bool_decide (key = VStr "length"%string) && isArray t then
    add_from_length st depsMap newValue effects
  else
    let effects :=
      if bool_decide (key ≠ VUndef) then add st (depsMap_get depsMap key) effects
      else effects in
    inr (match ty with
         | ADD =>
             if negb (isArray t) then
               let effects := add st (depsMap_get depsMap ITERATE_KEY) effects in
               if isMap t then
                 add st (depsMap_get depsMap MAP_KEY_ITERATE_KEY) effects
               else effects
             else if isIntegerKey key then
               add st (depsMap_get depsMap (VStr "length"%string)) effects
             else effects
         | DELETE =>
             if negb (isArray t) then
               let effects := add st (depsMap_get depsMap ITERATE_KEY) effects in
               if isMap t then
                 add st (depsMap_get depsMap MAP_KEY_ITERATE_KEY) effects
               else effects
             else effects
         | SET =>
             if isMap t then add st (depsMap_get depsMap ITERATE_KEY) effects
             else effects
         | CLEAR => effects
         end).

Definition trigger_event (e : eref) (t : target) (ty : TriggerOpTypes)
    (key newValue oldValue : value) (oldTarget : option target)
  : DebuggerEvent :=
  {| ev_effect := e; ev_target := t; ev_type := inr ty; ev_key := key;
     ev_newValue := newValue; ev_oldValue := oldValue;
     ev_oldTarget := oldTarget |}.

(** The local function [run]. *)
Definition run (call : prog -> M value) (t : target) (ty : TriggerOpTypes)
    (key newValue oldValue : value) (oldTarget : option target) (e : eref)
  : M unit :=
  x <~ get_effect e;
  (fun st =>
     match dev st, onTrigger (options x) with
     | true, Some h =>
         (call (h (trigger_event e t ty key newValue oldValue oldTarget));;
          ret tt) st
     | _, _ => ret tt st
     end);;
  match scheduler (options x) with
  | Some s => call (s e);; ret tt
  | None => reactiveEffect call e;; ret tt
  end.

Definition trigger (call : prog -> M value) (t : target)
    (ty : TriggerOpTypes) (key newValue oldValue : value)
    (oldTarget : option target) : M unit :=
  fun st =>
    match targetMap st !! t with
    | None => ret tt st
    | Some depsMap =>
        match collect st depsMap t ty key newValue with
        | inl x => throw x st
        | inr effects =>
            forEach (run call t ty key newValue oldValue oldTarget) effects st
        end
    end.

(* ===================================================================== *)
(** ** Running user code *)
(* ===================================================================== *)

(** One level of a function body, with [call] for everything below. *)
Definition step (call : prog -> M value) (p : prog) : M value :=
  match p with
  | Ret v => ret v
  | Throw v => throw (UserError v)
  | Get k => fun st => call (k (user st)) st
  | Put w k => modify (set_user w);; call k
  | Track t ty key k => track call t ty key;; call k
  | Trigger t ty key nv ov ot k => trigger call t ty key nv ov ot;; call k
  | PauseTracking k => modify pauseTracking;; call k
  | EnableTracking k => modify enableTracking;; call k
  | ResetTracking k => modify resetTracking;; call k
  | Stop e k => stop call e;; call k
  | Call e k => v <~ reactiveEffect call e; call (k v)
  | NewEffect fn o k => e <~ effect call fn o; call (k e)
  end.

(** User code under a step budget. *)
Fixpoint exec (fuel : nat) (p : prog) : M value :=
  match fuel with
  | 0 => fun st => (Halted OutOfFuel, st)
  | S n => step (exec n) p
  end.

(* ===================================================================== *)
(** ** Notions used in the statements *)
(* ===================================================================== *)

(** The [deps] array of the effect behind a reference. *)
Definition eff_deps (st : state) (e : eref) : list dref :=
  default [] (deps <$> effHeap st !! e).

(** The dependency set registered for an (object, key) pair, if any. *)
Definition dep_of (st : state) (t : target) (key : value) : option dref :=
  match targetMap st !! t with
  | Some m => depsMap_get m key
  | None => None
  end.

(** The effect behind the reference has been stopped. *)
Definition stopped (st : state) (e : eref) : Prop :=
  exists x, effHeap st !! e = Some x /\ active x = false.

(** A completion that is an answer of the program: a result or an error. *)
Definition answers {A} (r : completion A) : Prop :=
  match r with Halted _ => False | _ => True end.

(** The two directions of every subscription agree, and no reference
    dangles: the members of a set are effects of the heap, the entries of
    a [deps] array and of the registry are sets of the heap. *)
Record consistent (st : state) : Prop := {
  link_iff : forall e x d s,
    effHeap st !! e = Some x -> depHeap st !! d = Some s ->
    (e ∈ s <-> d ∈ deps x);
  deps_valid : forall e x d,
    effHeap st !! e = Some x -> d ∈ deps x -> d < length (depHeap st);
  members_valid : forall d s e,
    depHeap st !! d = Some s -> e ∈ s -> e < length (effHeap st);
  registry_valid : forall t key d,
    dep_of st t key = Some d -> d < length (depHeap st)
}.

(** The operation keeps the property [I] of states, however it ends. *)
Definition keeps (I : state -> Prop) {A} (m : M A) : Prop :=
  forall st, I st -> I (snd (m st)).

(** The effects a sequence of sets contributes, first occurrence first. *)
Fixpoint first_seen (l : list eref) : list eref :=
  match l with
  | [] => []
  | x :: r => x :: filter (fun y => y ≠ x) (first_seen r)
  end.

(** The sets that [trigger] hands to [add], in the order of the calls:
    the same case analysis as [collect], without the accumulation. *)
Fixpoint matched_length (m : KeyToDepMap) (newValue : value)
  : exn + list dref :=
  match m with
  | [] => inr []
  | (k, d) :: r =>
      if decide (k = VStr "length"%string) then
        match matched_length r newValue with
        | inl x => inl x
        | inr l => inr (d :: l)
        end
      else
        match js_ge k newValue with
        | inl x => inl x
        | inr b =>
            match matched_length r newValue with
            | inl x => inl x
            | inr l => inr (if b then d :: l else l)
            end
        end
  end.

(** The keys whose sets the default path of section 4.4 of the
    specification includes, in the order it lists them. *)
Definition policy_keys (t : target) (ty : TriggerOpTypes) (key : value)
  : list value :=
  (if bool_decide (key ≠ VUndef) then [key] else []) ++
  match ty with
  | ADD =>
      if isArray t then
        if isIntegerKey key then [VStr "length"%string] else []
      else ITERATE_KEY :: (if isMap t then [MAP_KEY_ITERATE_KEY] else [])
  | DELETE =>
      if isArray t then []
      else ITERATE_KEY :: (if isMap t then [MAP_KEY_ITERATE_KEY] else [])
  | SET => if isMap t then [ITERATE_KEY] else []
  | CLEAR => []
  end.

Definition matched_sets (m : KeyToDepMap) (t : target) (ty : TriggerOpTypes)
    (key newValue : value) : exn + list dref :=
  if decide (ty = CLEAR) then inr (map snd m)
  else if bool_decide (key = VStr "length"%string) && isArray t then
    matched_length m newValue
  else inr (omap (depsMap_get m) (policy_keys t ty key)).

(** The merge of a sequence of sets into the collection of effects to
    run. *)
Definition merge (st : state) (sets : list dref) : list eref :=
  first_seen (filter (fun e => eligible st e = true)
                (concat (map (dep_members st) sets))).

(** The operation, when it ends with an answer, leaves the effect stack as
    it found it. *)
Definition balanced {A} (m : M A) : Prop :=
  forall st r st', m st = (r, st') -> answers r ->
    effectStack st' = effectStack st.

(** A stopped effect at rest: it is not running and is subscribed to
    nothing. *)
Definition quiescent (e : eref) (st : state) : Prop :=
  stopped st e /\ (e ∉ effectStack st) /\ (activeEffect st ≠ Some e) /\
  (forall d, e ∉ dep_members st d).

(** A computation that reads the given keys in order and returns. *)
Fixpoint reading (l : list (target * TrackOpTypes * value)) (v : value)
  : prog :=
  match l with
  | [] => Ret v
  | (t, ty, key) :: r => Track t ty key (reading r v)
  end.


(** The operation never ends with an error. *)
Definition quiet {A} (m : M A) : Prop :=
  forall st x, fst (m st) ≠ Thrown x.

(* ===================================================================== *)
(** ** Scenarios *)
(* ===================================================================== *)

(** A computation that counts its executions in the first cell of the
    application state before it goes on. *)
Definition counting (k : prog) : prog :=
  Get (fun w =>
    Put (match w with
         | VNum n :: r => VNum (n + 1) :: r
         | _ => w
         end) k).

Definition obj : target := TPlain 0.
Definition arr : target := TArray 1.

(** Two effects on a plain object: the first reads [a] and [b], the
    second reads [b]. *)
Definition two_readers : prog :=
  NewEffect
    (inl (Track obj GET (VStr "a") (Track obj GET (VStr "b") (Ret VUndef))))
    EMPTY_OBJ
    (fun _ =>
       NewEffect (inl (counting (Track obj GET (VStr "b") (Ret VUndef))))
         EMPTY_OBJ (fun _ => Ret VUndef)).

Definition two_readers_state : state :=
  snd (exec 20 two_readers (init true [VNum 0])).

(** An effect created and stopped from outside its run. *)
Definition stop_outside : prog :=
  NewEffect (inl (counting (Track obj GET (VStr "a") (Ret VUndef))))
    EMPTY_OBJ (fun e => Stop e (Ret VUndef)).

Definition stop_outside_state : state :=
  snd (exec 20 stop_outside (init true [VNum 0])).

Definition stopped_effect : ReactiveEffect :=
  {| id := 0; active := false;
     raw := counting (Track obj GET (VStr "a") (Ret VUndef));
     deps := []; options := EMPTY_OBJ; allowRecurse := false |}.

(** An effect that stops itself in the middle of its run and reads a key
    afterwards. *)
Definition stop_inside : prog :=
  NewEffect
    (inl (counting (Stop 0 (Track obj GET (VStr "a") (Ret VUndef)))))
    EMPTY_OBJ (fun _ => Ret VUndef).

Definition stop_inside_state : state :=
  snd (exec 20 stop_inside (init true [VNum 0])).

(** An array with three effects: one reads ['length'], one reads the
    index ['5'], one reads a property named by a symbol. *)
Definition array_readers : prog :=
  NewEffect (inl (counting (Track arr GET (VStr "length") (Ret VUndef))))
    EMPTY_OBJ
    (fun _ =>
       NewEffect (inl (counting (Track arr GET (VStr "5") (Ret VUndef))))
         EMPTY_OBJ
         (fun _ =>
            NewEffect (inl (counting (Track arr GET (VSym 7) (Ret VUndef))))
              EMPTY_OBJ (fun _ => Ret VUndef))).

Definition array_readers_state : state :=
  snd (exec 30 array_readers (init true [VNum 0])).

(** An array with one effect that reads the property named by the empty
    string. *)
Definition empty_key_reader : prog :=
  NewEffect (inl (counting (Track arr GET (VStr "") (Ret VUndef))))
    EMPTY_OBJ (fun _ => Ret VUndef).

Definition empty_key_reader_state : state :=
  snd (exec 20 empty_key_reader (init true [VNum 0])).

(** A computation that reads a key and throws. *)
Definition failing_reader : prog :=
  Track obj GET (VStr "a") (Throw (VNum 9)).

Definition failing_reader_state : state :=
  snd (createReactiveEffect failing_reader
         {| lazy := true; scheduler := None; onTrack := None;
            onTrigger := None; onStop := None; opt_allowRecurse := false |}
         (init true [])).

Definition failing_effect : ReactiveEffect :=
  {| id := 0; active := true; raw := failing_reader; deps := [];
     options := {| lazy := true; scheduler := None; onTrack := None;
                   onTrigger := None; onStop := None;
                   opt_allowRecurse := false |};
     allowRecurse := false |}.

Definition first_reader : ReactiveEffect :=
  {| id := 0; active := true;
     raw := Track obj GET (VStr "a") (Track obj GET (VStr "b") (Ret VUndef));
     deps := [0; 1]; options := EMPTY_OBJ; allowRecurse := false |}.

(** An effect whose computation reads [obj.a] or [obj.b] by the first cell
    of the application state; it runs once on creation, the cell is
    changed, and it runs again. *)
Definition branching : prog :=
  NewEffect
    (inl (Get (fun w =>
            match w with
            | VNum 0 :: _ => reading [(obj, GET, VStr "a")] VUndef
            | _ => reading [(obj, GET, VStr "b")] VUndef
            end)))
    EMPTY_OBJ
    (fun e => Put [VNum 1] (Call e (fun _ => Ret VUndef))).

Definition branching_state : state :=
  snd (exec 20 branching (init true [VNum 0])).

(** An effect whose [onStop] hook calls the effect once more; it is stopped
    from outside its run. *)
Definition stop_hook : prog :=
  NewEffect
    (inl (counting (Track obj GET (VStr "a") (Ret VUndef))))
    {| lazy := false; scheduler := None; onTrack := None; onTrigger := None;
       onStop := Some (Call 0 (fun _ => Ret VUndef));
       opt_allowRecurse := false |}
    (fun e => Stop e (Ret VUndef)).

Definition stop_hook_state : state :=
  snd (exec 20 stop_hook (init true [VNum 0])).

(** The state of [two_readers] while the first effect is running. *)
Definition first_reader_running : state := enter 0 two_readers_state.




(** An effect whose computation pauses tracking and throws, in a state
    where tracking is paused. *)
Definition pausing_thrower : prog := PauseTracking (Throw (VNum 9)).

Definition pausing_thrower_state : state :=
  pauseTracking
    (snd (createReactiveEffect pausing_thrower
            {| lazy := true; scheduler := None; onTrack := None;
               onTrigger := None; onStop := None; opt_allowRecurse := false |}
            (init true []))).

Definition pausing_thrower_effect : ReactiveEffect :=
  {| id := 0; active := true; raw := pausing_thrower; deps := [];
     options := {| lazy := true; scheduler := None; onTrack := None;
                   onTrigger := None; onStop := None;
                   opt_allowRecurse := false |};
     allowRecurse := false |}.

(** The first effect of [two_readers], stopped in the middle of a run of
    its own: it is inactive and still the active effect. *)
Definition stopped_running : state :=
  snd (stop (exec 9) 0 first_reader_running).

(** An effect that on its first run stops itself and then calls itself,
    a call that reads [obj.a]. *)
Definition self_calling : prog :=
  NewEffect
    (inl (Get (fun w =>
            match w with
            | VNum 0 :: _ =>
                Put [VNum 1] (Stop 0 (Call 0 (fun _ => Ret VUndef)))
            | _ => Track obj GET (VStr "a") (Ret VUndef)
            end)))
    EMPTY_OBJ (fun _ => Ret VUndef).

Definition self_calling_state : state :=
  snd (exec 20 self_calling (init true [VNum 0])).

(** A stopped effect that only reads, in a state with no active effect. *)
Definition stopped_reader : ReactiveEffect :=
  {| id := 0; active := false;
     raw := reading [(obj, GET, VStr "a")] VUndef;
     deps := []; options := EMPTY_OBJ; allowRecurse := false |}.

Definition stopped_reader_state : state :=
  snd (exec 20
         (NewEffect (inl (reading [(obj, GET, VStr "a")] VUndef)) EMPTY_OBJ
            (fun e => Stop e (Ret VUndef)))
         (init true [VNum 0])).

(* ===================================================================== *)
(** ** Notions used in the further properties *)
(* ===================================================================== *)

(** A sequence of calls of [enableTracking] ([true]) and [pauseTracking]
    ([false]), first call first. *)
Definition push_controls (ops : list bool) (st : state) : state :=
  foldl (fun (s : state) (b : bool) =>
           if b then enableTracking s else pauseTracking s) st ops.

(** [n] calls of [resetTracking]. *)
Fixpoint reset_times (n : nat) (st : state) : state :=
  match n with
  | 0 => st
  | S k => reset_times k (resetTracking st)
  end.

(** The serial numbers of the effects: below the counter, and larger for
    an effect created later. *)
Definition ids_increasing (st : state) : Prop :=
  (forall e x, effHeap st !! e = Some x -> id x < uid st) /\
  (forall e e' x x',
     effHeap st !! e = Some x -> effHeap st !! e' = Some x' ->
     e < e' -> id x < id x').

(** The running-effect context is in order: no effect is on the stack
    twice, the active effect is the top of the stack (none when the stack
    is empty), and the stack holds effects of the heap. *)
Definition context_ok (st : state) : Prop :=
  NoDup (effectStack st) /\
  activeEffect st = last (effectStack st) /\
  (forall e, e ∈ effectStack st -> e < length (effHeap st)).

(** No [deps] array lists a set twice, and no set lists a member twice. *)
Definition without_repetition (st : state) : Prop :=
  (forall e x, effHeap st !! e = Some x -> NoDup (deps x)) /\
  (forall d s, depHeap st !! d = Some s -> NoDup s).

(** An effect whose computation reads a key and throws on its first run,
    the run of its creation. *)
Definition failing_creation : prog :=
  NewEffect (inl failing_reader) EMPTY_OBJ (fun _ => Ret VUndef).

(** An effect with [allowRecurse] whose computation reads [obj.a] and
    triggers it. *)
Definition recursive_options : ReactiveEffectOptions :=
  {| lazy := false; scheduler := None; onTrack := None; onTrigger := None;
     onStop := None; opt_allowRecurse := true |}.

Definition recursive_reader : prog :=
  NewEffect
    (inl (counting
            (Track obj GET (VStr "a")
               (Trigger obj SET (VStr "a") (VNum 1) (VNum 0) None
                  (Ret VUndef)))))
    recursive_options (fun _ => Ret VUndef).

Definition recursive_effect : ReactiveEffect :=
  {| id := 0; active := true;
     raw := counting
              (Track obj GET (VStr "a")
                 (Trigger obj SET (VStr "a") (VNum 1) (VNum 0) None
                    (Ret VUndef)));
     deps := [0]; options := recursive_options; allowRecurse := true |}.

(** The state of [recursive_reader] while its effect is running again. *)
Definition recursive_running : state :=
  enter 0 (snd (exec 20 recursive_reader (init true [VNum 0]))).

(** From [st] to [st'] nothing has changed for the effects other than
    [e]: their objects are the same and they are members of the same
    sets. *)
Definition others_untouched (e : eref) (st st' : state) : Prop :=
  (forall e', e' ≠ e -> effHeap st' !! e' = effHeap st !! e') /\
  (forall e' d, e' ≠ e -> (e' ∈ dep_members st' d <-> e' ∈ dep_members st d)).

(** The tracking context is the same in both states. *)
Definition same_context (st st' : state) : Prop :=
  effectStack st' = effectStack st /\ activeEffect st' = activeEffect st /\
  trackStack st' = trackStack st /\ shouldTrack st' = shouldTrack st /\
  user st' = user st.

(** A computation that reads [obj.a] or [obj.b] by the first cell of the
    application state, and a lazy effect with that computation. *)
Definition chosen_reads (w : world) : list (target * TrackOpTypes * value) :=
  match w with
  | VNum 0 :: _ => [(obj, GET, VStr "a")]
  | _ => [(obj, GET, VStr "b")]
  end.

Definition choosing : prog :=
  Get (fun w => reading (chosen_reads w) VUndef).

Definition lazy_options : ReactiveEffectOptions :=
  {| lazy := true; scheduler := None; onTrack := None; onTrigger := None;
     onStop := None; opt_allowRecurse := false |}.

Definition choosing_effect : ReactiveEffect :=
  {| id := 2; active := true; raw := choosing; deps := [];
     options := lazy_options; allowRecurse := false |}.

Definition choosing_state : state :=
  snd (createReactiveEffect choosing lazy_options two_readers_state).

(* ===================================================================== *)
(** ** The entry point of the template compiler (compile.ts) *)
(* ===================================================================== *)

Module Compile.

(** The node transforms that compile.ts imports, by name; any other
    function a caller supplies is an [otherNodeTransform]. *)
Inductive NodeTransform : Type :=
| transformOnce
| transformIf
| transformFor
| trackVForSlotScopes
| transformExpression
| transformSlotOutlet
| transformElement
| trackSlotScopes
| transformText
| otherNodeTransform (n : nat).

#[global] Instance NodeTransform_eq_dec : EqDecision NodeTransform.
Proof. solve_decision. Defined.

(** The directive transforms that compile.ts imports, and any other. *)
Inductive DirectiveTransform : Type :=
| transformOn
| transformBind
| transformModel
| otherDirectiveTransform (n : nat).

(** The members of [ErrorCodes] that compile.ts reports. *)
Inductive ErrorCodes : Type :=
| X_PREFIX_ID_NOT_SUPPORTED
| X_MODULE_MODE_NOT_SUPPORTED
| X_CACHE_HANDLER_NOT_SUPPORTED
| X_SCOPE_ID_NOT_SUPPORTED.

#[global] Instance ErrorCodes_eq_dec : EqDecision ErrorCodes.
Proof. solve_decision. Defined.

(** The error callback: [defaultOnError] of ./errors, or a function of the
    caller. *)
Inductive ErrorHandler : Type :=
| defaultOnError
| otherOnError (n : nat).

(** A root node of a template AST and a code generation result, which
    are objects of ./ast and ./codegen, by identity. *)
Inductive RootNode : Type := rootNode (ref : nat).
Inductive CodegenResult : Type := codegenResult (ref : nat).

Definition TransformPreset : Type :=
  list NodeTransform * gmap string DirectiveTransform.

(** The options object: the properties that [baseCompile] reads, each
    [None] when the property is absent or [undefined], and the other own
    properties, which it hands on as they are.  The same shape serves for
    what [transform] and [generate] receive. *)
Record CompilerOptions : Type := {
  onError : option ErrorHandler;
  mode : option string;
  prefixIdentifiers : option bool;
  cacheHandlers : option bool;
  scopeId : option string;
  nodeTransforms : option (list NodeTransform);
  directiveTransforms : option (gmap string DirectiveTransform);
  others : gmap string nat
}.

(** [options = {}], the default of the second parameter. *)
Definition no_options : CompilerOptions :=
  {| onError := None; mode := None; prefixIdentifiers := None;
     cacheHandlers := None; scopeId := None; nodeTransforms := None;
     directiveTransforms := None; others := ∅ |}.

(** Truthiness of a [boolean | undefined] and of a [string | undefined]. *)
Definition truthy (b : option bool) : bool := default false b.

Definition truthy_string (s : option string) : bool :=
  match s with
  | Some s => negb (String.eqb s EmptyString)
  | None => false
  end.

(** [extend({}, a, b)] on records of directive transforms, which is
    [Object.assign]: the properties of [b] win. *)
Definition extend (a b : gmap string DirectiveTransform)
  : gmap string DirectiveTransform := b ∪ a.

(** What [baseCompile] does with the functions it imports, in the order
    in which it calls them.  Each call is followed by what is done when
    it returns; a call that throws ends the compilation there. *)
Inductive compiling (A : Type) : Type :=
| Return (a : A)
| OnError (h : ErrorHandler) (c : ErrorCodes) (k : compiling A)
| BaseParse (template : string) (o : CompilerOptions)
    (k : RootNode -> compiling A)
| Transform (ast : RootNode) (o : CompilerOptions) (k : compiling A)
| Generate (ast : RootNode) (o : CompilerOptions)
    (k : CodegenResult -> compiling A).

Arguments Return {A} a.
Arguments OnError {A} h c k.
Arguments BaseParse {A} template o k.
Arguments Transform {A} ast o k.
Arguments Generate {A} ast o k.

Fixpoint andThen {A B} (m : compiling A) (k : A -> compiling B)
  : compiling B :=
  match m with
  | Return a => k a
  | OnError h c m' => OnError h c (andThen m' k)
  | BaseParse s o f => BaseParse s o (fun r => andThen (f r) k)
  | Transform r o m' => Transform r o (andThen m' k)
  | Generate r o f => Generate r o (fun c => andThen (f c) k)
  end.

(** [onError(createCompilerError(c))]. *)
Definition report (h : ErrorHandler) (c : ErrorCodes) : compiling unit :=
  OnError h c (Return tt).

Section Build.

(** The build flags. *)
Variables __BROWSER__ __DEV__ : bool.

(** [getBaseTransformPreset] (lines 25-53). *)
Definition getBaseTransformPreset (prefixIdentifiers : option bool)
  : TransformPreset :=
  ([transformOnce; transformIf; transformFor] ++
   (if negb __BROWSER__ && truthy prefixIdentifiers then
      [trackVForSlotScopes; transformExpression]
    else if __BROWSER__ && __DEV__ then [transformExpression]
    else []) ++
   [transformSlotOutlet; transformElement; trackSlotScopes; transformText],
   {[ "on"%string := transformOn; "bind"%string := transformBind;
      "model"%string := transformModel ]}).

(** [baseCompile] (lines 57-142). *)
Definition baseCompile (template : string + RootNode)
    (options : CompilerOptions) : compiling CodegenResult :=
  let onError_ := default defaultOnError (onError options) in
  let isModuleMode := bool_decide (mode options = Some "module"%string) in
  andThen
    (if __BROWSER__ then
       if bool_decide (prefixIdentifiers options = Some true) then
         report onError_ X_PREFIX_ID_NOT_SUPPORTED
       else if isModuleMode then
         report onError_ X_MODULE_MODE_NOT_SUPPORTED
       else Return tt
     else Return tt)
    (fun _ =>
  let prefixIdentifiers_ :=
    negb __BROWSER__
    && (bool_decide (prefixIdentifiers options = Some true) || isModuleMode) in
  andThen
    (if negb prefixIdentifiers_ && truthy (cacheHandlers options) then
       report onError_ X_CACHE_HANDLER_NOT_SUPPORTED
     else Return tt)
    (fun _ =>
  andThen
    (if truthy_string (scopeId options) && negb isModuleMode then
       report onError_ X_SCOPE_ID_NOT_SUPPORTED
     else Return tt)
    (fun _ =>
  andThen
    (match template with
     | inl s => BaseParse s options Return
     | inr ast => Return ast
     end)
    (fun ast =>
  let '(nodeTransforms_, directiveTransforms_) :=
    getBaseTransformPreset (Some prefixIdentifiers_) in
  andThen
    (Transform ast
       {| onError := onError options; mode := mode options;
          prefixIdentifiers := Some prefixIdentifiers_;
          cacheHandlers := cacheHandlers options;
          scopeId := scopeId options;
          nodeTransforms :=
            Some (nodeTransforms_ ++ default [] (nodeTransforms options));
          directiveTransforms :=
            Some (extend directiveTransforms_
                    (default ∅ (directiveTransforms options)));
          others := others options |}
       (Return tt))
    (fun _ =>
  Generate ast
    {| onError := onError options; mode := mode options;
       prefixIdentifiers := Some prefixIdentifiers_;
       cacheHandlers := cacheHandlers options;
       scopeId := scopeId options;
       nodeTransforms := nodeTransforms options;
       directiveTransforms := directiveTransforms options;
       others := others options |}
    Return))))).

End Build.

(** The reports that are made before the template is looked at when
    every call of the callback returns, first one first, each with the
    callback that receives it. *)
Fixpoint reports {A} (m : compiling A) : list (ErrorHandler * ErrorCodes) :=
  match m with
  | OnError h c k => (h, c) :: reports k
  | _ => []
  end.

(** The reports that are made when [throws past c] says whether the
    callback throws on the report [c] that follows the reports [past]:
    a report that throws is the last one, its error ends [baseCompile]. *)
Fixpoint reports_made {A} (throws : list ErrorCodes -> ErrorCodes -> bool)
    (past : list ErrorCodes) (m : compiling A)
  : list (ErrorHandler * ErrorCodes) :=
  match m with
  | OnError h c k =>
      (h, c) :: (if throws past c then []
                 else reports_made throws (past ++ [c]) k)
  | _ => []
  end.

(** Whether [baseCompile] gets past its reports, to the template. *)
Fixpoint reaches_template {A} (throws : list ErrorCodes -> ErrorCodes -> bool)
    (past : list ErrorCodes) (m : compiling A) : bool :=
  match m with
  | OnError h c k =>
      negb (throws past c) && reaches_template throws (past ++ [c]) k
  | _ => true
  end.

(** A list of reports cut after the first one that throws. *)
Fixpoint until_throw (throws : list ErrorCodes -> ErrorCodes -> bool)
    (past : list ErrorCodes) (l : list ErrorCodes) : list ErrorCodes :=
  match l with
  | [] => []
  | c :: r =>
      c :: (if throws past c then [] else until_throw throws (past ++ [c]) r)
  end.

(** What is done once the reports have been made. *)
Fixpoint after_reports {A} (m : compiling A) : compiling A :=
  match m with
  | OnError h c k => after_reports k
  | _ => m
  end.

End Compile.

(* ===================================================================== *)
(** ** Shape flags (the [const enum ShapeFlags]) *)
(* ===================================================================== *)

Inductive ShapeFlags : Type :=
| ELEMENT
| FUNCTIONAL_COMPONENT
| STATEFUL_COMPONENT
| TEXT_CHILDREN
| ARRAY_CHILDREN
| SLOTS_CHILDREN
| TELEPORT
| SUSPENSE
| COMPONENT_SHOULD_KEEP_ALIVE
| COMPONENT_KEPT_ALIVE
| COMPONENT.

#[global] Instance ShapeFlags_eq_dec : EqDecision ShapeFlags.
Proof. solve_decision. Defined.

(** The number that a member of the enumeration stands for. *)
Definition ShapeFlags_value (f : ShapeFlags) : Z :=
  match f with
  | ELEMENT => 1
  | FUNCTIONAL_COMPONENT => Z.shiftl 1 1
  | STATEFUL_COMPONENT => Z.shiftl 1 2
  | TEXT_CHILDREN => Z.shiftl 1 3
  | ARRAY_CHILDREN => Z.shiftl 1 4
  | SLOTS_CHILDREN => Z.shiftl 1 5
  | TELEPORT => Z.shiftl 1 6
  | SUSPENSE => Z.shiftl 1 7
  | COMPONENT_SHOULD_KEEP_ALIVE => Z.shiftl 1 8
  | COMPONENT_KEPT_ALIVE => Z.shiftl 1 9
  | COMPONENT => Z.lor (Z.shiftl 1 2) (Z.shiftl 1 1)
  end.

(** A shape flag word: the flags of a list joined by [|]. *)
Definition shapeFlag_of (l : list ShapeFlags) : Z :=
  foldr (fun f acc => Z.lor (ShapeFlags_value f) acc) 0%Z l.

(** The test [shapeFlag & flag], read as a condition. *)
Definition has_flag (shapeFlag : Z) (f : ShapeFlags) : bool :=
  negb (Z.land shapeFlag (ShapeFlags_value f) =? 0)%Z.

(* ===================================================================== *)
(** * Properties *)
(* ===================================================================== *)

(** ** Sets in insertion order *)

Lemma set_delete_not_elem e s : e ∉ set_delete e s.
Proof.
  unfold set_delete. intros H.
  apply (list_elem_of_filter (fun x => x ≠ e)) in H. tauto.
Qed.

Lemma set_delete_elem e e' s : e' ∈ set_delete e s <-> e' ≠ e /\ e' ∈ s.
Proof.
  unfold set_delete. exact (list_elem_of_filter (fun x => x ≠ e) s e').
Qed.

Lemma set_delete_idem e s : set_delete e (set_delete e s) = set_delete e s.
Proof.
  unfold set_delete. induction s as [|a s IH]; [reflexivity|].
  rewrite filter_cons. destruct (decide (a ≠ e)) as [Hne|Heq].
  - rewrite filter_cons. destruct (decide (a ≠ e)); [|contradiction].
    now rewrite IH.
  - exact IH.
Qed.

Lemma set_add_elem e e' s : e' ∈ set_add e s <-> e' = e \/ e' ∈ s.
Proof.
  unfold set_add. destruct (decide (e ∈ s)) as [Hin|Hout].
  - split; [tauto|]. intros [->|H]; assumption.
  - rewrite elem_of_app, list_elem_of_singleton. tauto.
Qed.

Lemma set_add_new e s : e ∉ s -> set_add e s = s ++ [e].
Proof.
  intros H. unfold set_add. destruct (decide (e ∈ s)); [contradiction|reflexivity].
Qed.

Lemma set_add_NoDup e s : NoDup s -> NoDup (set_add e s).
Proof.
  intros H. unfold set_add. destruct (decide (e ∈ s)) as [Hin|Hout]; [assumption|].
  apply NoDup_app. split; [assumption|]. split.
  - intros y Hy Hy'. apply list_elem_of_singleton in Hy'. now subst.
  - apply NoDup_singleton.
Qed.

(** Repeated [delete] over a list of references into a heap of sets. *)
Lemma foldl_alter_lookup {A} (f : A -> A) (ds : list nat) :
  (forall s, f (f s) = f s) ->
  forall (h : list A) (d : nat),
    foldl (fun h d => alter f d h) h ds !! d
    = (if decide (d ∈ ds) then f else fun s => s) <$> h !! d.
Proof.
  intros Hidem. induction ds as [|a r IH]; intros h d; simpl.
  - destruct (decide (d ∈ [])) as [H|_]; [inversion H|].
    now destruct (h !! d).
  - rewrite IH. destruct (decide (a = d)) as [->|Hne].
    + rewrite list_lookup_alter_eq.
      destruct (decide (d ∈ d :: r)) as [_|H]; [|exfalso; apply H; left].
      destruct (h !! d) as [s|]; simpl; [|now destruct (decide (d ∈ r))].
      destruct (decide (d ∈ r)); simpl; [now rewrite Hidem|reflexivity].
    + rewrite list_lookup_alter_ne by assumption.
      destruct (decide (d ∈ r)) as [Hin|Hout];
        destruct (decide (d ∈ a :: r)) as [Hin'|Hout']; try reflexivity.
      * exfalso. apply Hout'. now right.
      * exfalso. apply elem_of_cons in Hin'. destruct Hin' as [->|?]; tauto.
Qed.

Lemma foldl_alter_length {A} (f : A -> A) (ds : list nat) (h : list A) :
  length (foldl (fun h d => alter f d h) h ds) = length h.
Proof.
  revert h. induction ds as [|a r IH]; intros h; simpl; [reflexivity|].
  now rewrite IH, length_alter.
Qed.

(** ** cleanup *)

Lemma cleanup_state_depHeap e x st d :
  depHeap (cleanup_state e x st) !! d
  = (if decide (d ∈ deps x) then set_delete e else fun s => s)
      <$> depHeap st !! d.
Proof.
  unfold cleanup_state. destruct (deps x) as [|d0 ds] eqn:Hd.
  - destruct (decide (d ∈ [])) as [H|_]; [inversion H|].
    now destruct (depHeap st !! d).
  - cbn [depHeap set_effHeap set_depHeap].
    apply (foldl_alter_lookup (set_delete e) (d0 :: ds) (set_delete_idem e)).
Qed.

Lemma cleanup_state_depHeap_length e x st :
  length (depHeap (cleanup_state e x st)) = length (depHeap st).
Proof.
  unfold cleanup_state. destruct (deps x) as [|d0 ds]; [reflexivity|].
  cbn [depHeap set_effHeap set_depHeap]. apply foldl_alter_length.
Qed.

Lemma cleanup_state_members e x st d :
  dep_members (cleanup_state e x st) d
  = if decide (d ∈ deps x) then set_delete e (dep_members st d)
    else dep_members st d.
Proof.
  unfold dep_members. rewrite cleanup_state_depHeap.
  destruct (decide (d ∈ deps x)); destruct (depHeap st !! d); reflexivity.
Qed.

Lemma cleanup_state_effHeap_self e x st :
  effHeap st !! e = Some x ->
  effHeap (cleanup_state e x st) !! e = Some (with_deps [] x).
Proof.
  intros H. unfold cleanup_state. destruct (deps x) as [|d0 ds] eqn:Hd.
  - rewrite H. f_equal. destruct x; simpl in *; now subst.
  - cbn [effHeap set_effHeap]. apply list_lookup_insert_eq.
    now apply lookup_lt_Some in H.
Qed.

Lemma cleanup_state_effHeap_other e x st e' :
  e' ≠ e ->
  effHeap (cleanup_state e x st) !! e' = effHeap st !! e'.
Proof.
  intros H. unfold cleanup_state. destruct (deps x) as [|d0 ds]; [reflexivity|].
  cbn [effHeap set_effHeap]. now apply list_lookup_insert_ne.
Qed.

Lemma cleanup_state_effHeap_length e x st :
  length (effHeap (cleanup_state e x st)) = length (effHeap st).
Proof.
  unfold cleanup_state. destruct (deps x) as [|d0 ds]; [reflexivity|].
  cbn [effHeap set_effHeap]. apply length_insert.
Qed.

Lemma cleanup_state_context e x st :
  targetMap (cleanup_state e x st) = targetMap st /\
  effectStack (cleanup_state e x st) = effectStack st /\
  activeEffect (cleanup_state e x st) = activeEffect st /\
  shouldTrack (cleanup_state e x st) = shouldTrack st /\
  trackStack (cleanup_state e x st) = trackStack st /\
  user (cleanup_state e x st) = user st /\
  dev (cleanup_state e x st) = dev st /\
  uid (cleanup_state e x st) = uid st.
Proof.
  unfold cleanup_state. destruct (deps x); repeat split; reflexivity.
Qed.

Lemma cleanup_state_eff_deps e x st :
  effHeap st !! e = Some x -> eff_deps (cleanup_state e x st) e = [].
Proof.
  intros H. unfold eff_deps. now rewrite (cleanup_state_effHeap_self _ _ _ H).
Qed.

(** After [cleanup] the effect is in none of the sets its [deps] listed. *)
Lemma cleanup_state_unsubscribed e x st d :
  d ∈ deps x -> e ∉ dep_members (cleanup_state e x st) d.
Proof.
  intros H. rewrite cleanup_state_members.
  destruct (decide (d ∈ deps x)); [apply set_delete_not_elem|contradiction].
Qed.

(** In a consistent state that is every set there is. *)
Lemma cleanup_state_unsubscribed_all e x st d :
  consistent st -> effHeap st !! e = Some x ->
  e ∉ dep_members (cleanup_state e x st) d.
Proof.
  intros Hc Hx. rewrite cleanup_state_members.
  destruct (decide (d ∈ deps x)) as [Hin|Hout]; [apply set_delete_not_elem|].
  unfold dep_members. destruct (depHeap st !! d) as [s|] eqn:Hs; simpl.
  - intros He. apply Hout. now apply (link_iff st Hc e x d s).
  - intros He. inversion He.
Qed.

Lemma cleanup_unfold e x st :
  effHeap st !! e = Some x ->
  cleanup e st = (Normal tt, cleanup_state e x st).
Proof.
  intros H. unfold cleanup, bind, get_effect, modify. now rewrite H.
Qed.

(** ** The effect function *)

Lemma reactiveEffect_inactive call e x st :
  effHeap st !! e = Some x -> active x = false ->
  reactiveEffect call e st
  = match scheduler (options x) with
    | Some _ => (Normal VUndef, st)
    | None => call (raw x) st
    end.
Proof.
  intros Hx Ha. unfold reactiveEffect, bind, get_effect. rewrite Hx, Ha. simpl.
  now destruct (scheduler (options x)).
Qed.

Lemma reactiveEffect_on_stack call e x st :
  effHeap st !! e = Some x -> active x = true -> e ∈ effectStack st ->
  reactiveEffect call e st = (Normal VUndef, st).
Proof.
  intros Hx Ha Hin. unfold reactiveEffect, bind, get_effect. rewrite Hx, Ha. simpl.
  now rewrite (bool_decide_eq_true_2 _ Hin).
Qed.

Lemma reactiveEffect_run call e x st :
  effHeap st !! e = Some x -> active x = true -> e ∉ effectStack st ->
  reactiveEffect call e st
  = try_finally (fun s => call (raw x) (enter e s)) leave
      (cleanup_state e x st).
Proof.
  intros Hx Ha Hout. unfold reactiveEffect, bind at 1, get_effect. rewrite Hx, Ha. simpl.
  rewrite (bool_decide_eq_false_2 _ Hout). simpl.
  unfold bind. now rewrite (cleanup_unfold _ _ _ Hx).
Qed.

(** The context after the [finally] block, in terms of the context at the
    end of the computation. *)
Lemma leave_context st :
  effectStack (leave st) = removelast (effectStack st) /\
  activeEffect (leave st) = last (removelast (effectStack st)) /\
  trackStack (leave st) = removelast (trackStack st) /\
  shouldTrack (leave st) = default true (last (trackStack st)) /\
  targetMap (leave st) = targetMap st /\
  depHeap (leave st) = depHeap st /\
  effHeap (leave st) = effHeap st /\
  user (leave st) = user st.
Proof.
  unfold leave, resetTracking. cbn. repeat split.
Qed.

Lemma enter_context e st :
  effectStack (enter e st) = effectStack st ++ [e] /\
  activeEffect (enter e st) = Some e /\
  trackStack (enter e st) = trackStack st ++ [shouldTrack st] /\
  shouldTrack (enter e st) = true /\
  targetMap (enter e st) = targetMap st /\
  depHeap (enter e st) = depHeap st /\
  effHeap (enter e st) = effHeap st /\
  user (enter e st) = user st.
Proof.
  unfold enter, enableTracking. cbn. repeat split.
Qed.

(* ===================================================================== *)
(** ** Properties of the state that every operation keeps *)
(* ===================================================================== *)

(** What the two lazy creations of [track] leave behind. *)
Lemma get_depsMap_spec t st :
  exists m st1,
    get_depsMap t st = (Normal m, st1) /\
    targetMap st1 !! t = Some m /\
    (st1 = st \/
     (targetMap st !! t = None /\ m = [] /\
      st1 = set_targetMap (<[t := []]> (targetMap st)) st)).
Proof.
  unfold get_depsMap. destruct (targetMap st !! t) as [m|] eqn:Hm.
  - exists m, st. auto.
  - exists [], (set_targetMap (<[t := []]> (targetMap st)) st).
    split; [reflexivity|]. split; [|right; auto].
    cbn. apply lookup_insert_eq.
Qed.

Lemma depsMap_get_snoc m key d :
  depsMap_get m key = None -> depsMap_get (m ++ [(key, d)]) key = Some d.
Proof.
  induction m as [|[k d0] r IH]; simpl; intros H.
  - destruct (decide (key = key)); [reflexivity|contradiction].
  - destruct (decide (k = key)); [discriminate|auto].
Qed.

Lemma depsMap_get_snoc_ne m key key' d :
  key' ≠ key ->
  depsMap_get (m ++ [(key, d)]) key' = depsMap_get m key'.
Proof.
  intros Hne. induction m as [|[k d0] r IH]; simpl.
  - destruct (decide (key = key')); [congruence|reflexivity].
  - destruct (decide (k = key')); [reflexivity|exact IH].
Qed.

Lemma get_dep_spec t m key st :
  targetMap st !! t = Some m ->
  exists d st1,
    get_dep t m key st = (Normal d, st1) /\
    dep_of st1 t key = Some d /\
    ((st1 = st /\ dep_of st t key = Some d) \/
     (dep_of st t key = None /\ d = length (depHeap st) /\
      st1 = set_targetMap (<[t := m ++ [(key, d)]]> (targetMap st))
              (set_depHeap (depHeap st ++ [[]]) st))).
Proof.
  intros Hm. unfold get_dep.
  assert (Hof : dep_of st t key = depsMap_get m key)
    by (unfold dep_of; now rewrite Hm).
  destruct (depsMap_get m key) as [d|] eqn:Hd.
  - exists d, st. rewrite Hof. auto.
  - eexists _, _. split; [reflexivity|]. split; [|right; auto].
    unfold dep_of. cbn. rewrite lookup_insert_eq.
    now apply depsMap_get_snoc.
Qed.

Section Invariant.

(** A property of states that the elementary changes of the core keep,
    each under what the source guarantees where it makes the change. *)
Variable I : state -> Prop.

Hypothesis I_user : forall w st, I st -> I (set_user w st).
Hypothesis I_pause : forall st, I st -> I (pauseTracking st).
Hypothesis I_enable : forall st, I st -> I (enableTracking st).
Hypothesis I_reset : forall st, I st -> I (resetTracking st).
Hypothesis I_cleanup : forall e x st,
  I st -> effHeap st !! e = Some x -> active x = true ->
  I (cleanup_state e x st).
Hypothesis I_enter : forall e x st,
  I st -> effHeap st !! e = Some x -> active x = true ->
  e ∉ effectStack st -> I (enter e st).
Hypothesis I_leave : forall st, I st -> I (leave st).
Hypothesis I_deactivate : forall e st, I st -> I (deactivate e st).
Hypothesis I_create : forall fn o st,
  I st -> I (snd (createReactiveEffect fn o st)).
Hypothesis I_new_map : forall t st,
  I st -> targetMap st !! t = None ->
  I (set_targetMap (<[t := []]> (targetMap st)) st).
Hypothesis I_new_dep : forall t m key st,
  I st -> targetMap st !! t = Some m -> depsMap_get m key = None ->
  I (set_targetMap (<[t := m ++ [(key, length (depHeap st))]]> (targetMap st))
       (set_depHeap (depHeap st ++ [[]]) st)).
Hypothesis I_link : forall t key a x d st,
  I st -> shouldTrack st = true -> activeEffect st = Some a ->
  effHeap st !! a = Some x ->
  dep_of st t key = Some d -> a ∉ dep_members st d ->
  I (link a x d st).

Lemma keeps_ret {A} (a : A) : keeps I (ret a).
Proof. intros st H. exact H. Qed.

Lemma keeps_bind {A B} (m : M A) (k : A -> M B) :
  keeps I m -> (forall a, keeps I (k a)) -> keeps I (bind m k).
Proof.
  intros Hm Hk st H. unfold bind. specialize (Hm st H).
  destruct (m st) as [[a|x|h] st1]; simpl in *; auto.
  now apply Hk.
Qed.

Lemma keeps_modify (f : state -> state) :
  (forall st, I st -> I (f st)) -> keeps I (modify f).
Proof. intros Hf st H. now apply Hf. Qed.

Lemma keeps_get_effect {B} e (k : ReactiveEffect -> M B) :
  (forall x st, I st -> effHeap st !! e = Some x -> I (snd (k x st))) ->
  keeps I (bind (get_effect e) k).
Proof.
  intros Hk st H. unfold bind, get_effect.
  destruct (effHeap st !! e) as [x|] eqn:Hx; simpl; auto.
Qed.

Lemma keeps_forEach {A} (f : A -> M unit) (l : list A) :
  (forall a, keeps I (f a)) -> keeps I (forEach f l).
Proof.
  intros Hf. induction l as [|a r IH]; simpl.
  - apply keeps_ret.
  - apply keeps_bind; [apply Hf|intros _; exact IH].
Qed.

Section Operations.

(** User code below the operation keeps [I]. *)
Variable call : prog -> M value.
Hypothesis Hcall : forall p, keeps I (call p).

Lemma keeps_call_unit p : keeps I (call p;; ret tt).
Proof. apply keeps_bind; [apply Hcall|intros _; apply keeps_ret]. Qed.

Lemma keeps_cleanup_active e x st :
  I st -> effHeap st !! e = Some x -> active x = true ->
  cleanup e st = (Normal tt, cleanup_state e x st) /\
  I (cleanup_state e x st).
Proof.
  intros H Hx Ha. split; [now apply cleanup_unfold|]. now apply I_cleanup.
Qed.

Lemma keeps_stop e : keeps I (stop call e).
Proof.
  unfold stop. apply keeps_get_effect. intros x st H Hx.
  destruct (active x) eqn:Ha; [|exact H].
  destruct (keeps_cleanup_active e x st H Hx Ha) as [Hc Hi].
  unfold bind at 1. rewrite Hc.
  revert Hi. generalize (cleanup_state e x st). clear st H Hx Hc.
  change (keeps I ((match onStop (options x) with
                  | Some h => call h;; ret tt
                  | None => ret tt
                  end);; modify (deactivate e))).
  apply keeps_bind.
  - destruct (onStop (options x)); [apply keeps_call_unit|apply keeps_ret].
  - intros _. apply keeps_modify. intros st. apply I_deactivate.
Qed.

Lemma keeps_reactiveEffect e : keeps I (reactiveEffect call e).
Proof.
  unfold reactiveEffect. apply keeps_get_effect. intros x st H Hx.
  destruct (active x) eqn:Ha; simpl.
  - destruct (bool_decide (e ∈ effectStack st)) eqn:Hs; simpl; [exact H|].
    apply bool_decide_eq_false_1 in Hs.
    destruct (keeps_cleanup_active e x st H Hx Ha) as [Hc Hi].
    unfold bind. rewrite Hc. unfold try_finally.
    assert (He : I (enter e (cleanup_state e x st))).
    { apply (I_enter e (with_deps [] x)); auto.
      - now apply cleanup_state_effHeap_self.
      - destruct (cleanup_state_context e x st) as (_ & -> & _). exact Hs. }
    pose proof (Hcall (raw x) _ He) as Hr.
    destruct (call (raw x) (enter e (cleanup_state e x st)))
      as [[v|err|h] st3]; simpl in *; auto.
  - destruct (scheduler (options x)); [exact H|now apply Hcall].
Qed.

Lemma keeps_effect fn o : keeps I (effect call fn o).
Proof.
  unfold effect. apply keeps_bind.
  - destruct fn as [p|e0]; [apply keeps_ret|].
    apply keeps_get_effect. intros x st H _. exact H.
  - intros f. apply keeps_bind.
    + intros st H. now apply I_create.
    + intros e. apply keeps_bind; [|intros _; apply keeps_ret].
      destruct (lazy o); simpl; [apply keeps_ret|].
      apply keeps_bind; [apply keeps_reactiveEffect|intros _; apply keeps_ret].
Qed.

Lemma keeps_track t ty key : keeps I (track call t ty key).
Proof.
  intros st H. unfold track.
  destruct (shouldTrack st) eqn:Hs; [|exact H].
  destruct (activeEffect st) as [a|] eqn:Hact; [|exact H].
  destruct (get_depsMap_spec t st) as (m & st1 & Hg & Hm & Hst1).
  unfold bind at 1. rewrite Hg.
  assert (H1 : I st1 /\ shouldTrack st1 = true /\ activeEffect st1 = Some a
               /\ effHeap st1 = effHeap st).
  { destruct Hst1 as [->|(Hn & -> & ->)]; [auto|].
    split; [now apply I_new_map|auto]. }
  destruct H1 as (H1 & Hs1 & Ha1 & He1).
  destruct (get_dep_spec t m key st1 Hm) as (d & st2 & Hg2 & Hof & Hst2).
  unfold bind at 1. rewrite Hg2.
  assert (H2 : I st2 /\ shouldTrack st2 = true /\ activeEffect st2 = Some a
               /\ effHeap st2 = effHeap st).
  { destruct Hst2 as [[-> _]|(Hn & -> & ->)]; [auto|].
    split; [|auto]. apply I_new_dep; auto.
    unfold dep_of in Hn. now rewrite Hm in Hn. }
  destruct H2 as (H2 & Hs2 & Ha2 & He2).
  destruct (set_has a (dep_members st2 d)) eqn:Hhas; simpl; [exact H2|].
  apply bool_decide_eq_false_1 in Hhas.
  unfold bind at 1, get_effect.
  destruct (effHeap st2 !! a) as [x|] eqn:Hx; [|exact H2].
  unfold bind at 1, modify.
  assert (H3 : I (link a x d st2)) by (eapply I_link; eauto).
  assert (Hd : dev (link a x d st2) = dev st2) by reflexivity.
  destruct (dev (link a x d st2)); [|exact H3].
  destruct (onTrack (options x)) as [h|]; [|exact H3].
  now apply keeps_call_unit.
Qed.

Lemma keeps_run t ty key nv ov ot e : keeps I (run call t ty key nv ov ot e).
Proof.
  unfold run. apply keeps_get_effect. intros x st H Hx.
  revert st H Hx. 
  assert (Hk : keeps I
    ((fun st => match dev st, onTrigger (options x) with
                | true, Some h =>
                    (call (h (trigger_event e t ty key nv ov ot));; ret tt) st
                | _, _ => ret tt st
                end);;
     match scheduler (options x) with
     | Some s => call (s e);; ret tt
     | None => reactiveEffect call e;; ret tt
     end)).
  { apply keeps_bind.
    - intros st H. destruct (dev st); [|exact H].
      destruct (onTrigger (options x)); [now apply keeps_call_unit|exact H].
    - intros _. destruct (scheduler (options x)); [apply keeps_call_unit|].
      apply keeps_bind; [apply keeps_reactiveEffect|intros _; apply keeps_ret]. }
  intros st H _. now apply Hk.
Qed.

Lemma keeps_trigger t ty key nv ov ot :
  keeps I (trigger call t ty key nv ov ot).
Proof.
  intros st H. unfold trigger.
  destruct (targetMap st !! t) as [m|]; [|exact H].
  destruct (collect st m t ty key nv) as [x|effs]; [exact H|].
  apply keeps_forEach; [|exact H]. intros e. apply keeps_run.
Qed.

Lemma keeps_step p : keeps I (step call p).
Proof.
  destruct p; simpl.
  - apply keeps_ret.
  - intros st H. exact H.
  - intros st H. now apply Hcall.
  - apply keeps_bind; [apply keeps_modify; intros st; apply I_user|].
    intros _. apply Hcall.
  - apply keeps_bind; [apply keeps_track|intros _; apply Hcall].
  - apply keeps_bind; [apply keeps_trigger|intros _; apply Hcall].
  - apply keeps_bind; [apply keeps_modify, I_pause|intros _; apply Hcall].
  - apply keeps_bind; [apply keeps_modify, I_enable|intros _; apply Hcall].
  - apply keeps_bind; [apply keeps_modify, I_reset|intros _; apply Hcall].
  - apply keeps_bind; [apply keeps_stop|intros _; apply Hcall].
  - apply keeps_bind; [apply keeps_reactiveEffect|intros v; apply Hcall].
  - apply keeps_bind; [apply keeps_effect|intros e; apply Hcall].
Qed.

End Operations.

(** User code keeps [I], whatever its budget and however it ends. *)
Lemma keeps_exec fuel : forall p, keeps I (exec fuel p).
Proof.
  induction fuel as [|n IH]; intros p; simpl.
  - intros st H. exact H.
  - now apply keeps_step.
Qed.

End Invariant.

(* ===================================================================== *)
(** ** The two directions of a subscription *)
(* ===================================================================== *)

Lemma consistent_ext st st' :
  depHeap st' = depHeap st -> effHeap st' = effHeap st ->
  targetMap st' = targetMap st -> consistent st -> consistent st'.
Proof.
  intros Hd He Ht [H1 H2 H3 H4].
  constructor; unfold dep_of; rewrite ?Hd, ?He, ?Ht; auto.
Qed.

Lemma consistent_enter e st : consistent st -> consistent (enter e st).
Proof. now apply consistent_ext. Qed.

Lemma consistent_init dev_build w : consistent (init dev_build w).
Proof.
  constructor; unfold dep_of; cbn; intros.
  - discriminate.
  - discriminate.
  - discriminate.
  - rewrite lookup_empty in H. discriminate.
Qed.

Lemma consistent_cleanup e x st :
  consistent st -> effHeap st !! e = Some x ->
  consistent (cleanup_state e x st).
Proof.
  intros Hc Hx. pose proof Hc as [H1 H2 H3 H4]. constructor.
  - intros e' x' d s He Hs.
    rewrite cleanup_state_depHeap in Hs.
    destruct (depHeap st !! d) as [s0|] eqn:Hs0; [|discriminate].
    simpl in Hs. injection Hs as <-.
    destruct (decide (e' = e)) as [->|Hne].
    + rewrite (cleanup_state_effHeap_self _ _ _ Hx) in He.
      injection He as <-. simpl.
      split; [|intros H; inversion H].
      intros Hin. exfalso.
      destruct (decide (d ∈ deps x)) as [Hd|Hd].
      * revert Hin. apply set_delete_not_elem.
      * apply Hd. now apply (H1 e x d s0).
    + rewrite cleanup_state_effHeap_other in He by assumption.
      rewrite <- (H1 e' x' d s0 He Hs0).
      destruct (decide (d ∈ deps x)); [|reflexivity].
      rewrite set_delete_elem. tauto.
  - intros e' x' d He Hd. rewrite cleanup_state_depHeap_length.
    destruct (decide (e' = e)) as [->|Hne].
    + rewrite (cleanup_state_effHeap_self _ _ _ Hx) in He.
      injection He as <-. inversion Hd.
    + rewrite cleanup_state_effHeap_other in He by assumption. eauto.
  - intros d s e' Hs Hin. rewrite cleanup_state_effHeap_length.
    rewrite cleanup_state_depHeap in Hs.
    destruct (depHeap st !! d) as [s0|] eqn:Hs0; [|discriminate].
    simpl in Hs. injection Hs as <-. apply (H3 d s0 e' Hs0).
    destruct (decide (d ∈ deps x)); [|exact Hin].
    apply set_delete_elem in Hin. tauto.
  - intros t key d Hof. rewrite cleanup_state_depHeap_length.
    apply (H4 t key d). unfold dep_of in *.
    destruct (cleanup_state_context e x st) as (Ht & _). now rewrite Ht in Hof.
Qed.

Lemma consistent_deactivate e st :
  consistent st -> consistent (deactivate e st).
Proof.
  intros [H1 H2 H3 H4]. unfold deactivate. constructor; cbn.
  - intros e' x' d s He Hs. rewrite list_lookup_alter in He.
    destruct (decide (e = e')) as [->|Hne].
    + destruct (effHeap st !! e') as [x|] eqn:Hx; [|discriminate].
      simpl in He. injection He as <-. simpl. eauto.
    + eauto.
  - intros e' x' d He Hd. rewrite list_lookup_alter in He.
    destruct (decide (e = e')) as [->|Hne].
    + destruct (effHeap st !! e') as [x|] eqn:Hx; [|discriminate].
      simpl in He. injection He as <-. simpl in Hd. eauto.
    + eauto.
  - intros d s e' Hs Hin. rewrite length_alter. eauto.
  - intros t key d Hof. eauto.
Qed.

Lemma consistent_create fn o st :
  consistent st -> consistent (snd (createReactiveEffect fn o st)).
Proof.
  intros [H1 H2 H3 H4]. unfold createReactiveEffect. constructor; cbn.
  - intros e x d s He Hs. apply lookup_app_Some in He.
    destruct He as [He|[Hlen He]]; [eauto|].
    destruct (e - length (effHeap st)) as [|n] eqn:Hn; [|destruct n; discriminate].
    injection He as <-. simpl. split; [|intros H; inversion H].
    intros Hin. apply (H3 d s e Hs) in Hin. lia.
  - intros e x d He Hd. apply lookup_app_Some in He.
    destruct He as [He|[Hlen He]]; [eauto|].
    destruct (e - length (effHeap st)) as [|n] eqn:Hn; [|destruct n; discriminate].
    injection He as <-. inversion Hd.
  - intros d s e Hs Hin. rewrite length_app. simpl.
    apply (H3 d s e Hs) in Hin. lia.
  - intros t key d Hof. eauto.
Qed.

Lemma consistent_new_map t st :
  consistent st -> targetMap st !! t = None ->
  consistent (set_targetMap (<[t := []]> (targetMap st)) st).
Proof.
  intros [H1 H2 H3 H4] Hn. constructor; cbn; eauto.
  intros t' key d. unfold dep_of. cbn.
  destruct (decide (t = t')) as [->|Hne].
  - rewrite lookup_insert_eq. discriminate.
  - rewrite lookup_insert_ne by assumption. apply H4.
Qed.

Lemma consistent_new_dep t m key st :
  consistent st -> targetMap st !! t = Some m -> depsMap_get m key = None ->
  consistent
    (set_targetMap (<[t := m ++ [(key, length (depHeap st))]]> (targetMap st))
       (set_depHeap (depHeap st ++ [[]]) st)).
Proof.
  intros [H1 H2 H3 H4] Hm Hk. constructor; cbn.
  - intros e x d s He Hs. apply lookup_app_Some in Hs.
    destruct Hs as [Hs|[Hlen Hs]]; [eauto|].
    destruct (d - length (depHeap st)) as [|n] eqn:Hn; [|destruct n; discriminate].
    injection Hs as <-. split; [intros H; inversion H|].
    intros Hd. apply (H2 e x d He) in Hd. lia.
  - intros e x d He Hd. rewrite length_app. simpl.
    apply (H2 e x d He) in Hd. lia.
  - intros d s e Hs Hin. apply lookup_app_Some in Hs.
    destruct Hs as [Hs|[Hlen Hs]]; [eauto|].
    destruct (d - length (depHeap st)) as [|n] eqn:Hn; [|destruct n; discriminate].
    injection Hs as <-. inversion Hin.
  - intros t' key' d. unfold dep_of. cbn. rewrite length_app. simpl.
    destruct (decide (t = t')) as [->|Hne].
    + rewrite lookup_insert_eq.
      destruct (decide (key' = key)) as [->|Hkne].
      * rewrite (depsMap_get_snoc _ _ _ Hk). intros [= <-]. lia.
      * rewrite depsMap_get_snoc_ne by assumption. intros Hd.
        assert (d < length (depHeap st)); [|lia].
        apply (H4 t' key' d). unfold dep_of. now rewrite Hm.
    + rewrite lookup_insert_ne by assumption. intros Hd.
      assert (d < length (depHeap st)); [|lia]. now apply (H4 t' key' d).
Qed.

Lemma link_depHeap a x d st d' :
  depHeap (link a x d st) !! d'
  = (if decide (d = d') then set_add a else fun s => s) <$> depHeap st !! d'.
Proof.
  unfold link. cbn. destruct (decide (d = d')) as [->|Hne].
  - apply list_lookup_alter_eq.
  - rewrite list_lookup_alter_ne by assumption.
    now destruct (depHeap st !! d').
Qed.

Lemma link_effHeap a x d st e :
  effHeap st !! a = Some x ->
  effHeap (link a x d st) !! e
  = if decide (a = e) then Some (with_deps (deps x ++ [d]) x)
    else effHeap st !! e.
Proof.
  intros Hx. unfold link. cbn. destruct (decide (a = e)) as [->|Hne].
  - apply list_lookup_insert_eq. now apply lookup_lt_Some in Hx.
  - now apply list_lookup_insert_ne.
Qed.

Lemma consistent_link t key a x d st :
  consistent st -> effHeap st !! a = Some x ->
  dep_of st t key = Some d -> a ∉ dep_members st d ->
  consistent (link a x d st).
Proof.
  intros [H1 H2 H3 H4] Hx Hof Hout.
  pose proof (H4 t key d Hof) as Hd.
  constructor.
  - intros e x' d' s He Hs.
    rewrite link_depHeap in Hs. rewrite (link_effHeap _ _ _ _ _ Hx) in He.
    destruct (depHeap st !! d') as [s0|] eqn:Hs0; [|discriminate].
    simpl in Hs. injection Hs as <-.
    destruct (decide (a = e)) as [->|Hae].
    + injection He as <-. simpl. rewrite elem_of_app, list_elem_of_singleton.
      destruct (decide (d = d')) as [->|Hdd].
      * rewrite set_add_elem. tauto.
      * rewrite (H1 e x d' s0 Hx Hs0). split; [tauto|].
        intros [?|?]; [assumption|congruence].
    + destruct (decide (d = d')) as [->|Hdd].
      * rewrite set_add_elem. rewrite <- (H1 e x' d' s0 He Hs0).
        split; [|tauto]. intros [?|?]; [congruence|assumption].
      * apply (H1 e x' d' s0 He Hs0).
  - intros e x' d' He Hd'. rewrite (link_effHeap _ _ _ _ _ Hx) in He.
    unfold link. cbn. rewrite length_alter.
    destruct (decide (a = e)) as [->|Hae]; [|eauto].
    injection He as <-. simpl in Hd'. apply elem_of_app in Hd'.
    destruct Hd' as [Hd'|Hd']; [eauto|].
    apply list_elem_of_singleton in Hd'. now subst.
  - intros d' s e Hs Hin. unfold link. cbn. rewrite length_insert.
    rewrite link_depHeap in Hs.
    destruct (depHeap st !! d') as [s0|] eqn:Hs0; [|discriminate].
    simpl in Hs. injection Hs as <-.
    destruct (decide (d = d')) as [->|Hdd]; [|eauto].
    apply set_add_elem in Hin. destruct Hin as [->|Hin]; [|eauto].
    now apply lookup_lt_Some in Hx.
  - intros t' key' d' Hof'. unfold link. cbn. rewrite length_alter.
    now apply (H4 t' key' d').
Qed.

(** User code, whatever it calls and however it ends, leaves a consistent
    state consistent. *)
Lemma consistent_exec fuel p st :
  consistent st -> consistent (snd (exec fuel p st)).
Proof.
  revert p st. apply keeps_exec.
  - intros w st. now apply consistent_ext.
  - intros st. now apply consistent_ext.
  - intros st. now apply consistent_ext.
  - intros st. now apply consistent_ext.
  - intros e x st H Hx _. now apply consistent_cleanup.
  - intros e x st H _ _ _. revert H. now apply consistent_ext.
  - intros st. now apply consistent_ext.
  - apply consistent_deactivate.
  - apply consistent_create.
  - apply consistent_new_map.
  - apply consistent_new_dep.
  - intros t key a x d st H _ _ Hx Hof Hout. now apply (consistent_link t key).
Qed.

(* ===================================================================== *)
(** ** The collection of effects to run *)
(* ===================================================================== *)

Lemma first_seen_filter (P : nat -> Prop) `{!forall x, Decision (P x)} l :
  first_seen (filter P l) = filter P (first_seen l).
Proof.
  induction l as [|y r IH]; [reflexivity|].
  rewrite filter_cons. destruct (decide (P y)) as [Hy|Hy]; simpl.
  - rewrite filter_cons_True by assumption. f_equal. rewrite IH.
    rewrite !list_filter_filter. apply list_filter_iff. intros z. tauto.
  - rewrite filter_cons_False by assumption. rewrite IH.
    rewrite list_filter_filter. apply list_filter_iff. intros z.
    split; [|tauto]. intros Hz. split; [assumption|congruence].
Qed.

Lemma first_seen_elem x l : x ∈ first_seen l <-> x ∈ l.
Proof.
  induction l as [|y r IH]; simpl; [reflexivity|].
  rewrite !elem_of_cons, (list_elem_of_filter (fun z => z ≠ y)), IH.
  destruct (decide (x = y)); tauto.
Qed.


(** Adding the elements of a list one by one to a set in insertion order
    appends the new ones, each where it is first seen. *)
Lemma foldl_set_add acc l :
  foldl (fun acc e => set_add e acc) acc l
  = acc ++ first_seen (filter (fun e => e ∉ acc) l).
Proof.
  revert acc. induction l as [|x r IH]; intros acc; simpl.
  - now rewrite app_nil_r.
  - destruct (decide (x ∈ acc)) as [Hin|Hout].
    + unfold set_add. destruct (decide (x ∈ acc)); [|contradiction].
      rewrite IH. now rewrite filter_cons_False by tauto.
    + rewrite (set_add_new _ _ Hout), IH.
      rewrite filter_cons_True by assumption. simpl.
      rewrite <- app_assoc. simpl. do 2 f_equal.
      rewrite <- first_seen_filter. f_equal.
      rewrite list_filter_filter. apply list_filter_iff. intros z.
      rewrite elem_of_app, list_elem_of_singleton. tauto.
Qed.

Lemma foldl_add_filter st acc l :
  foldl (fun acc e => if eligible st e then set_add e acc else acc) acc l
  = foldl (fun acc e => set_add e acc) acc
      (filter (fun e => eligible st e = true) l).
Proof.
  revert acc. induction l as [|x r IH]; intros acc; simpl; [reflexivity|].
  rewrite IH, filter_cons.
  destruct (decide (eligible st x = true)) as [H|H].
  - now rewrite H.
  - apply not_true_is_false in H. now rewrite H.
Qed.

Lemma foldl_add_sets st sets acc :
  foldl (fun acc d => add st (Some d) acc) acc sets
  = foldl (fun acc e => set_add e acc) acc
      (filter (fun e => eligible st e = true)
         (concat (map (dep_members st) sets))).
Proof.
  revert acc. induction sets as [|d r IH]; intros acc; simpl; [reflexivity|].
  rewrite IH, filter_app, foldl_app. f_equal.
  apply foldl_add_filter.
Qed.

Lemma foldl_add_merge st sets :
  foldl (fun acc d => add st (Some d) acc) [] sets = merge st sets.
Proof.
  rewrite foldl_add_sets, foldl_set_add. simpl. unfold merge. f_equal.
  apply list_filter_filter_r. intros z _ H. inversion H.
Qed.

Lemma foldl_add_option st m keys acc :
  foldl (fun acc k => add st (depsMap_get m k) acc) acc keys
  = foldl (fun acc d => add st (Some d) acc) acc (omap (depsMap_get m) keys).
Proof.
  revert acc. induction keys as [|k r IH]; intros acc; simpl; [reflexivity|].
  destruct (depsMap_get m k) as [d|]; simpl; apply IH.
Qed.

Lemma add_from_length_matched st m nv acc :
  add_from_length st m nv acc
  = match matched_length m nv with
    | inl x => inl x
    | inr sets => inr (foldl (fun acc d => add st (Some d) acc) acc sets)
    end.
Proof.
  revert acc. induction m as [|[k d] r IH]; intros acc; simpl; [reflexivity|].
  destruct (decide (k = VStr "length")).
  - rewrite IH. now destruct (matched_length r nv).
  - destruct (js_ge k nv) as [x|[|]]; [reflexivity| |];
      rewrite IH; now destruct (matched_length r nv).
Qed.

(** [collect] is the merge of the sets that the case analysis matches. *)
Lemma collect_matched st m t ty key nv :
  collect st m t ty key nv
  = match matched_sets m t ty key nv with
    | inl x => inl x
    | inr sets => inr (merge st sets)
    end.
Proof.
  unfold collect, matched_sets.
  destruct (decide (ty = CLEAR)) as [Hc|Hc].
  - f_equal. rewrite <- foldl_add_merge. now rewrite foldl_fmap.
  - destruct (bool_decide (key = VStr "length") && isArray t).
    + rewrite add_from_length_matched.
      destruct (matched_length m nv); [reflexivity|].
      now rewrite foldl_add_merge.
    + f_equal. rewrite <- foldl_add_merge, <- foldl_add_option.
      unfold policy_keys.
      destruct (bool_decide (key ≠ VUndef)), ty, (isArray t), (isMap t),
        (isIntegerKey key); try reflexivity; contradiction.
Qed.


Lemma elem_of_concat_map {A} (f : A -> list nat) (l : list A) (e : nat) :
  e ∈ concat (map f l) <-> exists d, d ∈ l /\ e ∈ f d.
Proof.
  induction l as [|a r IH]; simpl.
  - split; [intros H; inversion H|]. intros (d & H & _). inversion H.
  - rewrite elem_of_app, IH. split.
    + intros [H|(d & Hd & H)]; [exists a|exists d]; split; auto.
      * left.
      * now right.
    + intros (d & Hd & H). apply elem_of_cons in Hd.
      destruct Hd as [->|Hd]; [now left|right; eauto].
Qed.

Lemma merge_elem st sets e :
  e ∈ merge st sets
  <-> eligible st e = true /\ exists d, d ∈ sets /\ e ∈ dep_members st d.
Proof.
  unfold merge. rewrite first_seen_elem.
  rewrite (list_elem_of_filter (fun e => eligible st e = true)).
  now rewrite elem_of_concat_map.
Qed.

(** Whatever [trigger] collects is subscribed to some set. *)
Lemma collect_subscribed st m t ty key nv effs e :
  collect st m t ty key nv = inr effs -> e ∈ effs ->
  exists d, e ∈ dep_members st d.
Proof.
  rewrite collect_matched. destruct (matched_sets m t ty key nv) as [x|sets];
    [discriminate|].
  intros [= <-] Hin. apply merge_elem in Hin.
  destruct Hin as (_ & d & _ & Hd). eauto.
Qed.


Lemma run_unfold call t ty key nv ov ot e x st :
  effHeap st !! e = Some x ->
  dev st = false \/ onTrigger (options x) = None ->
  run call t ty key nv ov ot e st
  = match scheduler (options x) with
    | Some s => (call (s e);; ret tt) st
    | None => (reactiveEffect call e;; ret tt) st
    end.
Proof.
  intros Hx Hd. unfold run. unfold bind at 1, get_effect. rewrite Hx.
  unfold bind at 1.
  assert (Hq : (match dev st, onTrigger (options x) with
                | true, Some h =>
                    (call (h (trigger_event e t ty key nv ov ot));; ret tt) st
                | _, _ => ret tt st
                end) = (Normal tt, st)).
  { destruct Hd as [->| ->]; [reflexivity|]. now destruct (dev st). }
  rewrite Hq. now destruct (scheduler (options x)).
Qed.




(* ===================================================================== *)
(** ** track *)
(* ===================================================================== *)

Lemma track_noop call t ty key st :
  shouldTrack st = false \/ activeEffect st = None ->
  track call t ty key st = (Normal tt, st).
Proof.
  intros [H|H]; unfold track; rewrite H; [reflexivity|].
  now destruct (shouldTrack st).
Qed.

(** The registry after the two lazy creations of [track]: the set for the
    pair, and the state, which is the old one when the set existed. *)
Lemma ensure_dep_spec t key st :
  exists m st1 d st2,
    get_depsMap t st = (Normal m, st1) /\
    get_dep t m key st1 = (Normal d, st2) /\
    dep_of st2 t key = Some d /\
    effHeap st2 = effHeap st /\
    shouldTrack st2 = shouldTrack st /\
    activeEffect st2 = activeEffect st /\
    dev st2 = dev st /\
    match dep_of st t key with
    | Some d0 => d = d0 /\ st2 = st
    | None =>
        d = length (depHeap st) /\ depHeap st2 = depHeap st ++ [[]] /\
        effectStack st2 = effectStack st /\ trackStack st2 = trackStack st /\
        user st2 = user st /\ uid st2 = uid st
    end.
Proof.
  destruct (get_depsMap_spec t st) as (m & st1 & Hg & Hm & Hst1).
  destruct (get_dep_spec t m key st1 Hm) as (d & st2 & Hg2 & Hof & Hst2).
  exists m, st1, d, st2. split; [exact Hg|]. split; [exact Hg2|].
  split; [exact Hof|].
  destruct Hst1 as [->|(Hn & -> & ->)].
  - destruct Hst2 as [[-> Hd]|(Hn & -> & ->)].
    + rewrite Hd. repeat split; reflexivity.
    + rewrite Hn. repeat split; reflexivity.
  - assert (Hn' : dep_of st t key = None) by (unfold dep_of; now rewrite Hn).
    rewrite Hn'. destruct Hst2 as [[-> Hd]|(Hn2 & -> & ->)].
    + exfalso. unfold dep_of in Hd. cbn in Hd.
      rewrite lookup_insert_eq in Hd. discriminate.
    + repeat split; reflexivity.
Qed.

Lemma link_members a x d st :
  d < length (depHeap st) ->
  dep_members (link a x d st) d = set_add a (dep_members st d).
Proof.
  intros Hd. unfold dep_members. rewrite link_depHeap.
  destruct (decide (d = d)); [|contradiction].
  apply lookup_lt_is_Some_2 in Hd. destruct Hd as [s ->]. reflexivity.
Qed.

Lemma link_eff_deps a x d st :
  effHeap st !! a = Some x ->
  eff_deps (link a x d st) a = deps x ++ [d].
Proof.
  intros Hx. unfold eff_deps. rewrite (link_effHeap _ _ _ _ _ Hx).
  destruct (decide (a = a)); [reflexivity|contradiction].
Qed.

Lemma track_member call t ty key st a d :
  shouldTrack st = true -> activeEffect st = Some a ->
  dep_of st t key = Some d -> a ∈ dep_members st d ->
  track call t ty key st = (Normal tt, st).
Proof.
  intros Hs Ha Hof Hin. unfold track. rewrite Hs, Ha.
  unfold dep_of in Hof. destruct (targetMap st !! t) as [m|] eqn:Hm;
    [|discriminate].
  unfold bind at 1, get_depsMap. rewrite Hm.
  unfold bind at 1, get_dep. rewrite Hof.
  unfold set_has. now rewrite (bool_decide_eq_true_2 _ Hin).
Qed.

(* ===================================================================== *)
(** ** The effect stack is used as a stack *)
(* ===================================================================== *)

Lemma balanced_ret {A} (a : A) : balanced (ret a).
Proof. intros st r st' [= <- <-] _. reflexivity. Qed.

Lemma balanced_bind {A B} (m : M A) (k : A -> M B) :
  balanced m -> (forall a, balanced (k a)) -> balanced (bind m k).
Proof.
  intros Hm Hk st r st' Hr Ha. unfold bind in Hr.
  destruct (m st) as [[a|x|h] st1] eqn:Hst.
  - rewrite (Hk a st1 r st' Hr Ha). now apply (Hm st (Normal a) st1).
  - injection Hr as <- <-. now apply (Hm st (Thrown x) st1).
  - injection Hr as <- <-. destruct Ha.
Qed.

Lemma balanced_modify (f : state -> state) :
  (forall st, effectStack (f st) = effectStack st) -> balanced (modify f).
Proof. intros Hf st r st' [= <- <-] _. apply Hf. Qed.

Lemma balanced_get_effect {B} e (k : ReactiveEffect -> M B) :
  (forall x, balanced (k x)) -> balanced (bind (get_effect e) k).
Proof.
  intros Hk. apply balanced_bind; [|exact Hk].
  intros st r st' Hr _. unfold get_effect in Hr.
  destruct (effHeap st !! e); now injection Hr as <- <-.
Qed.

Lemma balanced_forEach {A} (f : A -> M unit) (l : list A) :
  (forall a, balanced (f a)) -> balanced (forEach f l).
Proof.
  intros Hf. induction l as [|a r IH]; simpl.
  - apply balanced_ret.
  - apply balanced_bind; [apply Hf|intros _; exact IH].
Qed.

Lemma balanced_cleanup e : balanced (cleanup e).
Proof.
  unfold cleanup. apply balanced_get_effect. intros x.
  apply balanced_modify. intros st.
  now destruct (cleanup_state_context e x st) as (_ & -> & _).
Qed.

Section Stack.

(** User code below the operation is balanced. *)
Variable call : prog -> M value.
Hypothesis Hcall : forall p, balanced (call p).

Lemma balanced_call_unit p : balanced (call p;; ret tt).
Proof. apply balanced_bind; [apply Hcall|intros _; apply balanced_ret]. Qed.

Lemma balanced_stop e : balanced (stop call e).
Proof.
  unfold stop. apply balanced_get_effect. intros x.
  destruct (active x); [|apply balanced_ret].
  apply balanced_bind; [apply balanced_cleanup|]. intros _.
  apply balanced_bind.
  - destruct (onStop (options x)); [apply balanced_call_unit|apply balanced_ret].
  - intros _. now apply balanced_modify.
Qed.

Lemma balanced_reactiveEffect e : balanced (reactiveEffect call e).
Proof.
  unfold reactiveEffect. apply balanced_get_effect. intros x.
  destruct (active x); simpl.
  - intros st r st' Hr Ha.
    destruct (bool_decide (e ∈ effectStack st)); simpl in Hr.
    + now injection Hr as <- <-.
    + unfold bind in Hr.
      destruct (cleanup e st) as [[[]|err|h] st1] eqn:Hc.
      * pose proof (balanced_cleanup e st _ _ Hc I) as Hs1.
        unfold try_finally in Hr.
        destruct (call (raw x) (enter e st1)) as [[v|err|h] st3] eqn:Hf;
          injection Hr as <- <-; try destruct Ha.
        -- rewrite <- Hs1. destruct (leave_context st3) as (-> & _).
           rewrite (Hcall _ _ _ _ Hf I).
           destruct (enter_context e st1) as (-> & _).
           apply removelast_last.
        -- rewrite <- Hs1. destruct (leave_context st3) as (-> & _).
           rewrite (Hcall _ _ _ _ Hf I).
           destruct (enter_context e st1) as (-> & _).
           apply removelast_last.
      * injection Hr as <- <-. now apply (balanced_cleanup e st _ _ Hc).
      * injection Hr as <- <-. destruct Ha.
  - destruct (scheduler (options x)); [apply balanced_ret|apply Hcall].
Qed.

Lemma balanced_effect fn o : balanced (effect call fn o).
Proof.
  unfold effect. apply balanced_bind.
  - destruct fn as [p|e0]; [apply balanced_ret|].
    apply balanced_get_effect. intros x. apply balanced_ret.
  - intros f. apply balanced_bind.
    + intros st r st' Hr _. unfold createReactiveEffect in Hr.
      now injection Hr as <- <-.
    + intros e. apply balanced_bind; [|intros _; apply balanced_ret].
      destruct (lazy o); simpl; [apply balanced_ret|].
      apply balanced_bind; [apply balanced_reactiveEffect|].
      intros _; apply balanced_ret.
Qed.

Lemma balanced_track t ty key : balanced (track call t ty key).
Proof.
  intros st r st' Hr Ha. unfold track in Hr.
  destruct (shouldTrack st); [|now injection Hr as <- <-].
  destruct (activeEffect st) as [a|]; [|now injection Hr as <- <-].
  destruct (ensure_dep_spec t key st)
    as (m & st1 & d & st2 & Hg & Hg2 & _ & _ & _ & _ & _ & Hcase).
  assert (Hs2 : effectStack st2 = effectStack st).
  { destruct (dep_of st t key); [now destruct Hcase as [_ ->]|].
    now destruct Hcase as (_ & _ & -> & _). }
  unfold bind at 1 in Hr. rewrite Hg in Hr.
  unfold bind at 1 in Hr. rewrite Hg2 in Hr.
  destruct (set_has a (dep_members st2 d)); simpl in Hr.
  - injection Hr as <- <-. exact Hs2.
  - unfold bind at 1, get_effect in Hr.
    destruct (effHeap st2 !! a) as [x|]; [|now injection Hr as <- <-].
    unfold bind at 1, modify in Hr.
    change (dev (link a x d st2)) with (dev st2) in Hr.
    rewrite <- Hs2. change (effectStack st2) with (effectStack (link a x d st2)).
    destruct (dev st2); [|now injection Hr as <- <-].
    destruct (onTrack (options x)) as [h|]; [|now injection Hr as <- <-].
    now apply (balanced_call_unit _ _ _ _ Hr).
Qed.

Lemma balanced_run t ty key nv ov ot e :
  balanced (run call t ty key nv ov ot e).
Proof.
  unfold run. apply balanced_get_effect. intros x.
  apply balanced_bind.
  - intros st r st' Hr Ha. destruct (dev st); [|now injection Hr as <- <-].
    destruct (onTrigger (options x)); [|now injection Hr as <- <-].
    now apply (balanced_call_unit _ _ _ _ Hr).
  - intros _. destruct (scheduler (options x)); [apply balanced_call_unit|].
    apply balanced_bind; [apply balanced_reactiveEffect|].
    intros _; apply balanced_ret.
Qed.

Lemma balanced_trigger t ty key nv ov ot :
  balanced (trigger call t ty key nv ov ot).
Proof.
  intros st r st' Hr Ha. unfold trigger in Hr.
  destruct (targetMap st !! t) as [m|]; [|now injection Hr as <- <-].
  destruct (collect st m t ty key nv) as [x|effs];
    [now injection Hr as <- <-|].
  revert Hr Ha. apply balanced_forEach. intros e. apply balanced_run.
Qed.

Lemma balanced_step p : balanced (step call p).
Proof.
  destruct p; simpl.
  - apply balanced_ret.
  - intros st r st' [= <- <-] _. reflexivity.
  - intros st r st' Hr Ha. now apply (Hcall _ _ _ _ Hr).
  - apply balanced_bind; [now apply balanced_modify|intros _; apply Hcall].
  - apply balanced_bind; [apply balanced_track|intros _; apply Hcall].
  - apply balanced_bind; [apply balanced_trigger|intros _; apply Hcall].
  - apply balanced_bind; [now apply balanced_modify|intros _; apply Hcall].
  - apply balanced_bind; [now apply balanced_modify|intros _; apply Hcall].
  - apply balanced_bind; [now apply balanced_modify|intros _; apply Hcall].
  - apply balanced_bind; [apply balanced_stop|intros _; apply Hcall].
  - apply balanced_bind; [apply balanced_reactiveEffect|intros v; apply Hcall].
  - apply balanced_bind; [apply balanced_effect|intros e; apply Hcall].
Qed.

End Stack.

Lemma balanced_exec fuel : forall p, balanced (exec fuel p).
Proof.
  induction fuel as [|n IH]; intros p; simpl.
  - intros st r st' [= <- <-] [].
  - now apply balanced_step.
Qed.

(* ===================================================================== *)
(** ** Stopped effects *)
(* ===================================================================== *)

Lemma stopped_cleanup e e' x st :
  stopped st e -> effHeap st !! e' = Some x -> active x = true ->
  stopped (cleanup_state e' x st) e.
Proof.
  intros (x0 & Hx0 & Ha0) Hx Ha. exists x0. split; [|exact Ha0].
  rewrite cleanup_state_effHeap_other; [exact Hx0|].
  intros <-. congruence.
Qed.

Lemma stopped_deactivate e e' st :
  stopped st e -> stopped (deactivate e' st) e.
Proof.
  intros (x0 & Hx0 & Ha0). unfold stopped, deactivate. cbn.
  destruct (decide (e' = e)) as [->|Hne].
  - exists (with_active false x0). split; [|reflexivity].
    now rewrite list_lookup_alter_eq, Hx0.
  - exists x0. split; [|exact Ha0].
    now rewrite list_lookup_alter_ne.
Qed.

Lemma stopped_create e fn o st :
  stopped st e -> stopped (snd (createReactiveEffect fn o st)) e.
Proof.
  intros (x0 & Hx0 & Ha0). exists x0. split; [|exact Ha0].
  cbn. now apply lookup_app_l_Some.
Qed.

Lemma stopped_link e a x d st :
  stopped st e -> effHeap st !! a = Some x -> stopped (link a x d st) e.
Proof.
  intros (x0 & Hx0 & Ha0) Hx. unfold stopped.
  rewrite (link_effHeap _ _ _ _ _ Hx).
  destruct (decide (a = e)) as [->|Hne].
  - exists (with_deps (deps x ++ [d]) x). split; [reflexivity|].
    simpl. congruence.
  - now exists x0.
Qed.

(** No user code revives a stopped effect. *)
Lemma stopped_exec e fuel p st :
  stopped st e -> stopped (snd (exec fuel p st)) e.
Proof.
  revert p st. apply (keeps_exec (fun st => stopped st e)).
  - intros w st H. exact H.
  - intros st H. exact H.
  - intros st H. exact H.
  - intros st H. exact H.
  - intros e' x st. apply stopped_cleanup.
  - intros e' x st H _ _ _. exact H.
  - intros st H. exact H.
  - intros e' st. apply stopped_deactivate.
  - intros fn o st. apply stopped_create.
  - intros t st H _. exact H.
  - intros t m key st H _ _. exact H.
  - intros t key a x d st H _ _ Hx _ _. now apply stopped_link.
Qed.

Lemma elem_of_removelast {A} (x : A) (l : list A) :
  x ∈ removelast l -> x ∈ l.
Proof.
  induction l as [|a r IH]; simpl; [auto|].
  destruct r as [|b r']; [intros H; inversion H|].
  intros H. apply elem_of_cons in H. destruct H as [->|H]; [left|].
  right. now apply IH.
Qed.

Lemma last_elem_of {A} (x : A) (l : list A) : last l = Some x -> x ∈ l.
Proof.
  intros H. apply last_Some in H. destruct H as [l' ->].
  rewrite elem_of_app, list_elem_of_singleton. now right.
Qed.

(** No user code wakes a stopped effect that is at rest. *)
Lemma quiescent_exec e fuel p st :
  quiescent e st -> quiescent e (snd (exec fuel p st)).
Proof.
  revert p st. apply (keeps_exec (quiescent e)).
  - intros w st H. exact H.
  - intros st H. exact H.
  - intros st H. exact H.
  - intros st H. exact H.
  - intros e' x st (Hs & Hk & Ha & Hd) Hx Hact.
    destruct (cleanup_state_context e' x st) as (_ & Hk' & Ha' & _).
    split; [now apply stopped_cleanup|]. rewrite Hk', Ha'.
    split; [exact Hk|]. split; [exact Ha|].
    intros d. rewrite cleanup_state_members.
    destruct (decide (d ∈ deps x)); [|apply Hd].
    rewrite set_delete_elem. intros [_ H]. now apply (Hd d).
  - intros e' x st (Hs & Hk & Ha & Hd) Hx Hact _.
    assert (Hne : e ≠ e').
    { intros ->. destruct Hs as (x0 & Hx0 & Ha0). congruence. }
    split; [exact Hs|]. destruct (enter_context e' st) as (-> & -> & _).
    split; [|split; [congruence|exact Hd]].
    rewrite elem_of_app, list_elem_of_singleton. tauto.
  - intros st (Hs & Hk & Ha & Hd).
    split; [exact Hs|]. destruct (leave_context st) as (-> & -> & _).
    split; [|split; [|exact Hd]].
    + intros H. now apply Hk, elem_of_removelast.
    + intros H. now apply Hk, elem_of_removelast, last_elem_of.
  - intros e' st (Hs & Hk & Ha & Hd).
    split; [now apply stopped_deactivate|]. auto.
  - intros fn o st (Hs & Hk & Ha & Hd).
    split; [now apply stopped_create|]. auto.
  - intros t st H _. exact H.
  - intros t m key st (Hs & Hk & Ha & Hd) _ _.
    split; [exact Hs|]. split; [exact Hk|]. split; [exact Ha|].
    intros d. unfold dep_members. cbn.
    destruct ((depHeap st ++ [[]]) !! d) as [s|] eqn:Hsd;
      [|intros H; inversion H].
    apply lookup_app_Some in Hsd. destruct Hsd as [H|[_ H]].
    + specialize (Hd d). unfold dep_members in Hd. now rewrite H in Hd.
    + destruct (d - length (depHeap st)) as [|n]; [|destruct n; discriminate].
      injection H as <-. intros H; inversion H.
  - intros t key a x d st (Hs & Hk & Ha & Hd) _ Hact Hx _ _.
    split; [now apply stopped_link|].
    split; [exact Hk|]. split; [exact Ha|].
    intros d'. unfold dep_members. rewrite link_depHeap.
    specialize (Hd d'). unfold dep_members in Hd.
    destruct (depHeap st !! d') as [s|]; simpl in *; [|exact Hd].
    destruct (decide (d = d')); [|exact Hd].
    rewrite set_add_elem. intros [->|H]; [congruence|contradiction].
Qed.

Lemma quiescent_not_collected e st m t ty key nv effs :
  quiescent e st -> collect st m t ty key nv = inr effs -> e ∉ effs.
Proof.
  intros (_ & _ & _ & Hd) Hc Hin.
  destruct (collect_subscribed _ _ _ _ _ _ _ _ Hc Hin) as (d & H).
  now apply (Hd d).
Qed.

Lemma stop_inactive call e x st :
  effHeap st !! e = Some x -> active x = false ->
  stop call e st = (Normal tt, st).
Proof.
  intros Hx Ha. unfold stop, bind, get_effect. now rewrite Hx, Ha.
Qed.

Lemma stop_active call e x st :
  effHeap st !! e = Some x -> active x = true ->
  stop call e st
  = match onStop (options x) with
    | Some h =>
        match call h (cleanup_state e x st) with
        | (Normal _, st2) => (Normal tt, deactivate e st2)
        | (Thrown err, st2) => (Thrown err, st2)
        | (Halted h, st2) => (Halted h, st2)
        end
    | None => (Normal tt, deactivate e (cleanup_state e x st))
    end.
Proof.
  intros Hx Ha. unfold stop. unfold bind at 1, get_effect. rewrite Hx, Ha.
  unfold bind at 1. rewrite (cleanup_unfold _ _ _ Hx).
  destruct (onStop (options x)) as [h|]; [|reflexivity].
  unfold bind, ret, modify.
  now destruct (call h (cleanup_state e x st)) as [[v|err|hh] st2].
Qed.

Lemma deactivate_stopped e x st :
  effHeap st !! e = Some x -> stopped (deactivate e st) e.
Proof.
  intros Hx. exists (with_active false x). split; [|reflexivity].
  unfold deactivate. cbn. now rewrite list_lookup_alter_eq, Hx.
Qed.

Lemma deactivate_members e st d :
  dep_members (deactivate e st) d = dep_members st d.
Proof. reflexivity. Qed.

(* ===================================================================== *)
(** ** The membership invariant *)
(* ===================================================================== *)

Ltac solve_consistent :=
  intros;
  first [ eapply consistent_cleanup; eassumption
        | apply consistent_deactivate; assumption
        | apply consistent_create; assumption
        | apply consistent_new_map; assumption
        | apply consistent_new_dep; assumption
        | eapply consistent_link; eassumption
        | eapply consistent_ext; [..|eassumption]; reflexivity ].

(** Every operation keeps the state consistent when the user code it calls
    does. *)
Lemma consistent_operations (call : prog -> M value) :
  (forall q, keeps consistent (call q)) ->
  (forall t ty key, keeps consistent (track call t ty key)) /\
  (forall e, keeps consistent (stop call e)) /\
  (forall e, keeps consistent (reactiveEffect call e)) /\
  (forall fn o, keeps consistent (effect call fn o)) /\
  (forall t ty key nv ov ot, keeps consistent (trigger call t ty key nv ov ot)).
Proof.
  intros Hcall. split; [|split; [|split; [|split]]]; intros.
  - apply keeps_track; solve [assumption | solve_consistent].
  - apply keeps_stop; solve [assumption | solve_consistent].
  - apply keeps_reactiveEffect; solve [assumption | solve_consistent].
  - apply keeps_effect; solve [assumption | solve_consistent].
  - apply keeps_trigger; solve [assumption | solve_consistent].
Qed.

(* ===================================================================== *)
(** ** The ['length'] of an array *)
(* ===================================================================== *)











(** *** Where errors come from *)

Lemma js_ge_throws a b x :
  js_ge a b = inl x -> (exists n, a = VSym n) \/ (exists n, b = VSym n).
Proof.
  destruct a, b; simpl; try discriminate; eauto.
Qed.

Lemma matched_length_throws m nv x :
  matched_length m nv = inl x ->
  exists k d, (k, d) ∈ m /\ k ≠ VStr "length"%string /\ js_ge k nv = inl x.
Proof.
  induction m as [|[k d] r IH]; simpl; [discriminate|].
  destruct (decide (k = VStr "length"%string)) as [->|Hk].
  - destruct (matched_length r nv) as [y|l] eqn:Hr; [|discriminate].
    intros [= ->]. destruct (IH eq_refl) as (k' & d' & Hin & H).
    exists k', d'. split; [now right|exact H].
  - destruct (js_ge k nv) as [y|b] eqn:Hge.
    + intros [= ->]. exists k, d. split; [left|auto].
    + destruct (matched_length r nv) as [y|l] eqn:Hr; [|discriminate].
      intros [= ->]. destruct (IH eq_refl) as (k' & d' & Hin & H).
      exists k', d'. split; [now right|exact H].
Qed.

(** The collection fails only on the ['length'] of an array, at a key
    other than ['length'] when that key or the new value is a symbol. *)
Lemma collect_throws st m t ty key nv x :
  collect st m t ty key nv = inl x ->
  ty ≠ CLEAR /\ key = VStr "length"%string /\ isArray t = true /\
  exists k d, (k, d) ∈ m /\ k ≠ VStr "length"%string /\
              ((exists n, k = VSym n) \/ (exists n, nv = VSym n)).
Proof.
  rewrite collect_matched. unfold matched_sets.
  destruct (decide (ty = CLEAR)) as [Hc|Hc]; [discriminate|].
  destruct (bool_decide_reflect (key = VStr "length"%string)) as [Hk|Hk];
    [|discriminate].
  destruct (isArray t); [|discriminate]. simpl.
  destruct (matched_length m nv) as [y|l] eqn:Hm; [|discriminate].
  intros [= ->]. destruct (matched_length_throws m nv x Hm)
    as (k & d & Hin & Hne & Hge).
  repeat split; auto. exists k, d. split; [exact Hin|]. split; [exact Hne|].
  now apply js_ge_throws in Hge.
Qed.

Lemma quiet_ret {A} (a : A) : quiet (ret a).
Proof. intros st x. discriminate. Qed.

Lemma quiet_bind {A B} (m : M A) (k : A -> M B) :
  quiet m -> (forall a, quiet (k a)) -> quiet (bind m k).
Proof.
  intros Hm Hk st x. unfold bind. specialize (Hm st).
  destruct (m st) as [[a|y|h] st1]; simpl in *.
  - apply Hk.
  - now destruct (Hm y).
  - discriminate.
Qed.

Lemma quiet_modify (f : state -> state) : quiet (modify f).
Proof. intros st x. discriminate. Qed.

Lemma quiet_get_effect e : quiet (get_effect e).
Proof. intros st x. unfold get_effect. now destruct (effHeap st !! e). Qed.

Lemma quiet_cleanup e : quiet (cleanup e).
Proof.
  unfold cleanup. apply quiet_bind; [apply quiet_get_effect|].
  intros x. apply quiet_modify.
Qed.

Lemma quiet_forEach {A} (f : A -> M unit) (l : list A) :
  (forall a, quiet (f a)) -> quiet (forEach f l).
Proof.
  intros Hf. induction l as [|a r IH]; simpl.
  - apply quiet_ret.
  - apply quiet_bind; [apply Hf|intros _; exact IH].
Qed.

Section Errors.

(** User code below the operation does not throw. *)
Variable call : prog -> M value.
Hypothesis Hcall : forall p, quiet (call p).

Lemma quiet_call_unit p : quiet (call p;; ret tt).
Proof. apply quiet_bind; [apply Hcall|intros _; apply quiet_ret]. Qed.

Lemma quiet_stop e : quiet (stop call e).
Proof.
  unfold stop. apply quiet_bind; [apply quiet_get_effect|]. intros x.
  destruct (active x); [|apply quiet_ret].
  apply quiet_bind; [apply quiet_cleanup|]. intros _.
  apply quiet_bind; [|intros _; apply quiet_modify].
  destruct (onStop (options x)); [apply quiet_call_unit|apply quiet_ret].
Qed.

Lemma quiet_reactiveEffect e : quiet (reactiveEffect call e).
Proof.
  unfold reactiveEffect. apply quiet_bind; [apply quiet_get_effect|].
  intros x. destruct (active x); simpl.
  - intros st y. destruct (bool_decide (e ∈ effectStack st)); simpl;
      [discriminate|].
    revert st y. apply quiet_bind; [apply quiet_cleanup|]. intros _ st y.
    unfold try_finally. specialize (Hcall (raw x) (enter e st)).
    destruct (call (raw x) (enter e st)) as [[v|z|h] st3]; simpl in *;
      [discriminate|now destruct (Hcall z)|discriminate].
  - destruct (scheduler (options x)); [apply quiet_ret|apply Hcall].
Qed.

Lemma quiet_effect fn o : quiet (effect call fn o).
Proof.
  unfold effect. apply quiet_bind.
  - destruct fn as [p|e0]; [apply quiet_ret|].
    apply quiet_bind; [apply quiet_get_effect|intros x; apply quiet_ret].
  - intros f. apply quiet_bind; [intros st x; discriminate|].
    intros e. apply quiet_bind; [|intros _; apply quiet_ret].
    destruct (lazy o); simpl; [apply quiet_ret|].
    apply quiet_bind; [apply quiet_reactiveEffect|intros _; apply quiet_ret].
Qed.

Lemma quiet_track t ty key : quiet (track call t ty key).
Proof.
  intros st x. unfold track.
  destruct (shouldTrack st); [|discriminate].
  destruct (activeEffect st) as [a|]; [|discriminate].
  destruct (ensure_dep_spec t key st)
    as (m & st1 & d & st2 & Hg & Hg2 & _).
  unfold bind at 1. rewrite Hg. unfold bind at 1. rewrite Hg2.
  destruct (set_has a (dep_members st2 d)); simpl; [discriminate|].
  unfold bind at 1, get_effect.
  destruct (effHeap st2 !! a) as [xa|]; [|discriminate].
  unfold bind at 1, modify.
  destruct (dev (link a xa d st2)); [|discriminate].
  destruct (onTrack (options xa)); [apply quiet_call_unit|discriminate].
Qed.

Lemma quiet_run t ty key nv ov ot e : quiet (run call t ty key nv ov ot e).
Proof.
  unfold run. apply quiet_bind; [apply quiet_get_effect|]. intros x.
  apply quiet_bind.
  - intros st y. destruct (dev st); [|discriminate].
    destruct (onTrigger (options x)); [apply quiet_call_unit|discriminate].
  - intros _. destruct (scheduler (options x)); [apply quiet_call_unit|].
    apply quiet_bind; [apply quiet_reactiveEffect|intros _; apply quiet_ret].
Qed.

(** [trigger] throws by itself only where the collection fails. *)
Lemma trigger_throws t ty key nv ov ot st x :
  fst (trigger call t ty key nv ov ot st) = Thrown x ->
  exists m, targetMap st !! t = Some m /\ collect st m t ty key nv = inl x.
Proof.
  unfold trigger. destruct (targetMap st !! t) as [m|]; [|discriminate].
  destruct (collect st m t ty key nv) as [y|effs] eqn:Hc.
  - simpl. intros [= ->]. exists m. split; [reflexivity|exact Hc].
  - intros H. exfalso. revert H. apply quiet_forEach. intros e. apply quiet_run.
Qed.

End Errors.

(* ===================================================================== *)
(** ** A run and the reads it performs *)
(* ===================================================================== *)

(** More on the registry after the two lazy creations of [track]. *)
Lemma ensure_dep_more t key st m st1 d st2 :
  get_depsMap t st = (Normal m, st1) ->
  get_dep t m key st1 = (Normal d, st2) ->
  consistent st ->
  consistent st2 /\
  (forall t' k' d', dep_of st t' k' = Some d' -> dep_of st2 t' k' = Some d') /\
  (forall d', dep_members st2 d' = dep_members st d') /\
  effectStack st2 = effectStack st /\ trackStack st2 = trackStack st /\
  user st2 = user st.
Proof.
  intros Hg Hg2 Hc.
  destruct (get_depsMap_spec t st) as (m' & st1' & Hg' & Hm & Hst1).
  rewrite Hg in Hg'. injection Hg' as <- <-.
  destruct (get_dep_spec t m key st1 Hm) as (d0 & st2' & Hg2' & Hof & Hst2).
  rewrite Hg2 in Hg2'. injection Hg2' as <- <-.
  assert (H1 : consistent st1 /\
               (forall t' k' d', dep_of st t' k' = Some d' ->
                                 dep_of st1 t' k' = Some d') /\
               (forall d', dep_members st1 d' = dep_members st d') /\
               effectStack st1 = effectStack st /\
               trackStack st1 = trackStack st /\ user st1 = user st).
  { destruct Hst1 as [->|(Hn & -> & ->)]; [auto 10|].
    split; [now apply consistent_new_map|]. split; [|auto].
    intros t' k' d'. unfold dep_of. cbn.
    destruct (decide (t = t')) as [<-|Hne].
    - now rewrite Hn.
    - now rewrite lookup_insert_ne. }
  destruct H1 as (Hc1 & Hmono1 & Hmem1 & Hk1 & Ht1 & Hu1).
  destruct Hst2 as [[-> _]|(Hn & -> & ->)]; [auto 10|].
  assert (Hkn : depsMap_get m key = None)
    by (unfold dep_of in Hn; now rewrite Hm in Hn).
  split; [now apply consistent_new_dep|]. split; [|split; [|auto]].
  - intros t' k' d' Hd. apply Hmono1 in Hd. revert Hd. unfold dep_of. cbn.
    destruct (decide (t = t')) as [<-|Hne].
    + rewrite Hm, lookup_insert_eq. intros Hd.
      rewrite depsMap_get_snoc_ne; [exact Hd|]. intros ->. congruence.
    + now rewrite lookup_insert_ne.
  - intros d'. rewrite <- Hmem1. unfold dep_members. cbn.
    destruct (decide (d' < length (depHeap st1))) as [Hlt|Hge].
    + now rewrite lookup_app_l.
    + rewrite lookup_app_r by lia.
      rewrite (lookup_ge_None_2 (depHeap st1) d') by lia.
      destruct (d' - length (depHeap st1)) as [|n]; [reflexivity|].
      now destruct n.
Qed.

(** One tracked read of the active effect when no debug callback is
    called. *)
Lemma track_reads call e t ty key s xe :
  consistent s -> shouldTrack s = true -> activeEffect s = Some e ->
  effHeap s !! e = Some xe ->
  dev s = false \/ onTrack (options xe) = None ->
  exists s1 xe1 d,
    track call t ty key s = (Normal tt, s1) /\
    consistent s1 /\ shouldTrack s1 = true /\ activeEffect s1 = Some e /\
    effHeap s1 !! e = Some xe1 /\ options xe1 = options xe /\
    dev s1 = dev s /\ targetMap s1 !! t ≠ None /\
    dep_of s1 t key = Some d /\
    (forall t' k' d', dep_of s t' k' = Some d' -> dep_of s1 t' k' = Some d') /\
    (forall d', e ∈ dep_members s1 d' <-> d' = d \/ e ∈ dep_members s d').
Proof.
  intros Hc Hs Ha Hx Hcb.
  destruct (ensure_dep_spec t key s)
    as (m & st1 & d & st2 & Hg & Hg2 & Hof & He & Hs2 & Ha2 & Hdev & Hcase).
  destruct (ensure_dep_more t key s m st1 d st2 Hg Hg2 Hc)
    as (Hc2 & Hmono & Hmem & _).
  assert (Hx2 : effHeap st2 !! e = Some xe) by (now rewrite He).
  assert (Htm : targetMap st2 !! t ≠ None).
  { unfold dep_of in Hof. now destruct (targetMap st2 !! t). }
  destruct (decide (e ∈ dep_members st2 d)) as [Hin|Hout].
  - exists st2, xe, d.
    assert (Heq : st2 = s).
    { destruct (dep_of s t key) as [d0|] eqn:Hof0; [now destruct Hcase|].
      exfalso. rewrite Hmem in Hin. unfold dep_members in Hin.
      destruct Hcase as (-> & _).
      rewrite (lookup_ge_None_2 (depHeap s)) in Hin by lia. inversion Hin. }
    subst st2. split.
    { now apply (track_member call t ty key s e d). }
    split; [exact Hc|]. split; [exact Hs|]. split; [exact Ha|].
    split; [exact Hx|]. split; [reflexivity|]. split; [reflexivity|].
    split; [exact Htm|]. split; [exact Hof|]. split; [auto|].
    intros d'. split; [tauto|]. intros [->|H]; assumption.
  - exists (link e xe d st2), (with_deps (deps xe ++ [d]) xe), d.
    assert (Hd : d < length (depHeap st2))
      by (now apply (registry_valid st2 Hc2 t key)).
    split.
    { unfold track. rewrite Hs, Ha.
      unfold bind at 1. rewrite Hg. unfold bind at 1. rewrite Hg2.
      unfold set_has. rewrite (bool_decide_eq_false_2 _ Hout). simpl.
      unfold bind at 1, get_effect. rewrite Hx2.
      unfold bind at 1, modify.
      change (dev (link e xe d st2)) with (dev st2). rewrite Hdev.
      destruct Hcb as [-> | ->]; [reflexivity|]. now destruct (dev s). }
    split; [now apply (consistent_link t key)|].
    split; [change (shouldTrack st2 = true); congruence|].
    split; [change (activeEffect st2 = Some e); congruence|].
    split.
    { rewrite (link_effHeap _ _ _ _ _ Hx2).
      destruct (decide (e = e)); [reflexivity|contradiction]. }
    split; [reflexivity|]. split; [exact Hdev|].
    split; [exact Htm|]. split; [exact Hof|]. split; [exact Hmono|].
    intros d'. unfold dep_members at 1. rewrite link_depHeap.
    rewrite <- Hmem. unfold dep_members.
    destruct (decide (d = d')) as [<-|Hne].
    + apply lookup_lt_is_Some_2 in Hd. destruct Hd as [s0 Hs0].
      rewrite Hs0. simpl. rewrite set_add_elem. tauto.
    + destruct (depHeap st2 !! d'); simpl; split; auto.
      * intros [?|?]; [congruence|assumption].
      * intros [?|?]; [congruence|assumption].
Qed.

(** A computation that only reads subscribes the active effect to the sets
    of the keys it reads, and to nothing else. *)
Lemma reading_exec e l : forall v fuel s xe,
  length l < fuel ->
  consistent s -> shouldTrack s = true -> activeEffect s = Some e ->
  effHeap s !! e = Some xe ->
  dev s = false \/ onTrack (options xe) = None ->
  exists s',
    exec fuel (reading l v) s = (Normal v, s') /\
    (forall t' k' d', dep_of s t' k' = Some d' -> dep_of s' t' k' = Some d') /\
    (forall d,
       e ∈ dep_members s' d
       <-> e ∈ dep_members s d \/
           exists t ty key, (t, ty, key) ∈ l /\ dep_of s' t key = Some d).
Proof.
  induction l as [|[[t ty] key] r IH]; intros v fuel s xe Hf Hc Hs Ha Hx Hcb.
  - destruct fuel as [|n]; [simpl in Hf; lia|].
    exists s. split; [reflexivity|]. split; [auto|].
    intros d. split; [tauto|]. intros [H|(t & ty & key & H & _)]; [exact H|].
    inversion H.
  - destruct fuel as [|n]; [simpl in Hf; lia|]. simpl in Hf.
    destruct (track_reads (exec n) e t ty key s xe Hc Hs Ha Hx Hcb)
      as (s1 & xe1 & d1 & Htr & Hc1 & Hs1 & Ha1 & Hx1 & Ho1 & Hd1 & _ & Hof1
          & Hmono1 & Hmem1).
    assert (Hcb1 : dev s1 = false \/ onTrack (options xe1) = None)
      by (rewrite Hd1, Ho1; exact Hcb).
    destruct (IH v n s1 xe1 ltac:(lia) Hc1 Hs1 Ha1 Hx1 Hcb1)
      as (s' & Hex & Hmono & Hmem).
    exists s'. split.
    { simpl. unfold bind. now rewrite Htr. }
    split; [auto|].
    intros d. rewrite Hmem, Hmem1. split.
    + intros [[->|H]|(t' & ty' & k' & Hin & Hof)].
      * right. exists t, ty, key. split; [left|]. now apply Hmono.
      * now left.
      * right. exists t', ty', k'. split; [now right|assumption].
    + intros [H|(t' & ty' & k' & Hin & Hof)]; [now left; right|].
      apply elem_of_cons in Hin. destruct Hin as [[= -> -> ->]|Hin].
      * left. left. apply Hmono in Hof1. congruence.
      * right. eauto.
Qed.

(* ===================================================================== *)
(** ** What an operation leaves alone *)
(* ===================================================================== *)

Lemma others_untouched_refl e st : others_untouched e st st.
Proof. split; intros; reflexivity. Qed.

Lemma others_untouched_trans e st1 st2 st3 :
  others_untouched e st1 st2 -> others_untouched e st2 st3 ->
  others_untouched e st1 st3.
Proof.
  intros [H1 H2] [H3 H4]. split.
  - intros e' Hne. now rewrite H3, H1.
  - intros e' d Hne. now rewrite H4, H2.
Qed.

Lemma others_untouched_ext e st st' :
  effHeap st' = effHeap st -> (forall d, dep_members st' d = dep_members st d) ->
  others_untouched e st st'.
Proof.
  intros He Hd. split.
  - intros e' _. now rewrite He.
  - intros e' d _. now rewrite Hd.
Qed.

Lemma cleanup_state_others e x st :
  others_untouched e st (cleanup_state e x st).
Proof.
  split.
  - intros e' Hne. now apply cleanup_state_effHeap_other.
  - intros e' d Hne. rewrite cleanup_state_members.
    destruct (decide (d ∈ deps x)); [|reflexivity].
    rewrite set_delete_elem. tauto.
Qed.

Lemma link_others a x d st :
  effHeap st !! a = Some x -> others_untouched a st (link a x d st).
Proof.
  intros Hx. split.
  - intros e' Hne. rewrite (link_effHeap _ _ _ _ _ Hx).
    destruct (decide (a = e')); [congruence|reflexivity].
  - intros e' d' Hne. unfold dep_members. rewrite link_depHeap.
    destruct (depHeap st !! d') as [s|]; [|reflexivity]. simpl.
    destruct (decide (d = d')); [|reflexivity].
    rewrite set_add_elem. split; [intros [?|?]; [contradiction|assumption]|auto].
Qed.

Lemma same_context_refl st : same_context st st.
Proof. repeat split. Qed.

Lemma same_context_trans st1 st2 st3 :
  same_context st1 st2 -> same_context st2 st3 -> same_context st1 st3.
Proof.
  intros (H1 & H2 & H3 & H4 & H5) (K1 & K2 & K3 & K4 & K5).
  unfold same_context. now rewrite K1, K2, K3, K4, K5.
Qed.

(** One tracked read, when no debug callback is called: what it leaves
    alone. *)
Lemma track_frame call e t ty key s xe :
  consistent s -> shouldTrack s = true -> activeEffect s = Some e ->
  effHeap s !! e = Some xe ->
  dev s = false \/ onTrack (options xe) = None ->
  exists s1,
    track call t ty key s = (Normal tt, s1) /\
    others_untouched e s s1 /\ same_context s s1 /\
    length (effHeap s1) = length (effHeap s) /\ uid s1 = uid s.
Proof.
  intros Hc Hs Ha Hx Hcb.
  destruct (ensure_dep_spec t key s)
    as (m & st1 & d & st2 & Hg & Hg2 & Hof & He & Hs2 & Ha2 & Hdev & Hcase).
  destruct (ensure_dep_more t key s m st1 d st2 Hg Hg2 Hc)
    as (Hc2 & Hmono & Hmem & Hk & Ht & Hu).
  assert (Hx2 : effHeap st2 !! e = Some xe) by (now rewrite He).
  assert (Hctx : same_context s st2) by (repeat split; assumption).
  assert (Hoth : others_untouched e s st2) by (now apply others_untouched_ext).
  assert (Huid : uid st2 = uid s).
  { destruct (dep_of s t key); [now destruct Hcase as (_ & ->)|].
    now destruct Hcase as (_ & _ & _ & _ & _ & ->). }
  destruct (decide (e ∈ dep_members st2 d)) as [Hin|Hout].
  - exists st2. split; [|now rewrite He].
    unfold track. rewrite Hs, Ha.
    unfold bind at 1. rewrite Hg. unfold bind at 1. rewrite Hg2.
    unfold set_has. now rewrite (bool_decide_eq_true_2 _ Hin).
  - exists (link e xe d st2). split; [|split; [|split; [|split]]].
    + unfold track. rewrite Hs, Ha.
      unfold bind at 1. rewrite Hg. unfold bind at 1. rewrite Hg2.
      unfold set_has. rewrite (bool_decide_eq_false_2 _ Hout). simpl.
      unfold bind at 1, get_effect. rewrite Hx2.
      unfold bind at 1, modify.
      change (dev (link e xe d st2)) with (dev st2). rewrite Hdev.
      destruct Hcb as [-> | ->]; [reflexivity|]. now destruct (dev s).
    + apply (others_untouched_trans e s st2); [exact Hoth|].
      now apply link_others.
    + exact Hctx.
    + unfold link. cbn. now rewrite length_insert, He.
    + exact Huid.
Qed.

(** A computation that only reads, under the active effect [e]: what it
    leaves alone. *)
Lemma reading_exec_frame e l : forall v fuel s xe,
  length l < fuel ->
  consistent s -> shouldTrack s = true -> activeEffect s = Some e ->
  effHeap s !! e = Some xe ->
  dev s = false \/ onTrack (options xe) = None ->
  exists s',
    exec fuel (reading l v) s = (Normal v, s') /\
    consistent s' /\ others_untouched e s s' /\ same_context s s' /\
    length (effHeap s') = length (effHeap s) /\ uid s' = uid s /\
    (forall t' k' d', dep_of s t' k' = Some d' -> dep_of s' t' k' = Some d') /\
    (forall t ty key, (t, ty, key) ∈ l -> exists d, dep_of s' t key = Some d).
Proof.
  induction l as [|[[t ty] key] r IH]; intros v fuel s xe Hf Hc Hs Ha Hx Hcb.
  - destruct fuel as [|n]; [simpl in Hf; lia|].
    exists s. split; [reflexivity|]. split; [exact Hc|].
    split; [apply others_untouched_refl|]. split; [apply same_context_refl|].
    split; [reflexivity|]. split; [reflexivity|]. split; [auto|].
    intros t ty key H. inversion H.
  - destruct fuel as [|n]; [simpl in Hf; lia|]. simpl in Hf.
    destruct (track_reads (exec n) e t ty key s xe Hc Hs Ha Hx Hcb)
      as (s1 & xe1 & d1 & Htr & Hc1 & Hs1 & Ha1 & Hx1 & Ho1 & Hd1 & _ & Hof1
          & Hmono1 & _).
    destruct (track_frame (exec n) e t ty key s xe Hc Hs Ha Hx Hcb)
      as (s1' & Htr' & Hoth1 & Hctx1 & Hlen1 & Huid1).
    rewrite Htr in Htr'. injection Htr' as <-.
    assert (Hcb1 : dev s1 = false \/ onTrack (options xe1) = None)
      by (rewrite Hd1, Ho1; exact Hcb).
    destruct (IH v n s1 xe1 ltac:(lia) Hc1 Hs1 Ha1 Hx1 Hcb1)
      as (s' & Hex & Hc' & Hoth & Hctx & Hlen & Huid & Hmono & Hreg).
    exists s'. split.
    { simpl. unfold bind. now rewrite Htr. }
    split; [exact Hc'|].
    split; [now apply (others_untouched_trans e s s1)|].
    split; [now apply (same_context_trans s s1)|].
    split; [congruence|]. split; [congruence|]. split; [auto|].
    intros t' ty' key' Hin. apply elem_of_cons in Hin.
    destruct Hin as [[= -> -> ->]|Hin]; [eauto|eauto].
Qed.

(** A computation that only reads, while tracking is paused or no effect
    is active, changes nothing. *)
Lemma reading_untracked l : forall v fuel st,
  length l < fuel ->
  shouldTrack st = false \/ activeEffect st = None ->
  exec fuel (reading l v) st = (Normal v, st).
Proof.
  induction l as [|[[t ty] key] r IH]; intros v fuel st Hf Hno.
  - destruct fuel as [|n]; [simpl in Hf; lia|]. reflexivity.
  - destruct fuel as [|n]; [simpl in Hf; lia|]. simpl in Hf. simpl.
    unfold bind. rewrite (track_noop (exec n) t ty key st Hno).
    apply IH; [lia|exact Hno].
Qed.

(** [track] with tracking enabled and an active effect: the state it
    reaches before it returns or calls the hook has both directions of the
    subscription. *)
Lemma track_links call t ty key st a x :
  consistent st ->
  shouldTrack st = true -> activeEffect st = Some a ->
  effHeap st !! a = Some x ->
  exists d st2,
    dep_of st2 t key = Some d /\
    a ∈ dep_members st2 d /\ d ∈ eff_deps st2 a /\
    (track call t ty key st = (Normal tt, st2) \/
     exists h,
       dev st2 = true /\ onTrack (options x) = Some h /\
       track call t ty key st
       = (call (h (track_event a t ty key));; ret tt) st2).
Proof.
  intros Hc Hs Ha Hx.
  destruct (ensure_dep_spec t key st)
    as (m & st1 & d & st2 & Hg & Hg2 & Hof & He & Hs2 & Ha2 & Hdev & Hcase).
  destruct (ensure_dep_more t key st m st1 d st2 Hg Hg2 Hc) as (Hc2 & _).
  assert (Hx2 : effHeap st2 !! a = Some x) by (now rewrite He).
  assert (Hd : d < length (depHeap st2))
    by (now apply (registry_valid st2 Hc2 t key)).
  destruct (decide (a ∈ dep_members st2 d)) as [Hin|Hout].
  - exists d, st2. split; [exact Hof|]. split; [exact Hin|]. split.
    + unfold eff_deps. rewrite Hx2. simpl.
      apply lookup_lt_is_Some_2 in Hd. destruct Hd as [s Hsd].
      apply (link_iff st2 Hc2 a x d s Hx2 Hsd).
      unfold dep_members in Hin. now rewrite Hsd in Hin.
    + left. unfold track. rewrite Hs, Ha.
      unfold bind at 1. rewrite Hg. unfold bind at 1. rewrite Hg2.
      unfold set_has. now rewrite (bool_decide_eq_true_2 _ Hin).
  - exists d, (link a x d st2). split; [exact Hof|]. split.
    { rewrite (link_members a x d st2 Hd). apply set_add_elem. now left. }
    split.
    { rewrite (link_eff_deps _ _ _ _ Hx2), elem_of_app,
        list_elem_of_singleton. now right. }
    assert (Htr : track call t ty key st
                  = match dev (link a x d st2), onTrack (options x) with
                    | true, Some h =>
                        (call (h (track_event a t ty key));; ret tt)
                          (link a x d st2)
                    | _, _ => (Normal tt, link a x d st2)
                    end).
    { unfold track. rewrite Hs, Ha.
      unfold bind at 1. rewrite Hg. unfold bind at 1. rewrite Hg2.
      unfold set_has. rewrite (bool_decide_eq_false_2 _ Hout). simpl.
      unfold bind at 1, get_effect. rewrite Hx2.
      unfold bind at 1, modify.
      change (dev (link a x d st2)) with (dev st2).
      destruct (dev st2); [|reflexivity].
      now destruct (onTrack (options x)). }
    destruct (dev (link a x d st2)) eqn:Hdl; [|now left].
    destruct (onTrack (options x)) as [h|] eqn:Hh; [|now left].
    right. exists h. auto.
Qed.

(* ===================================================================== *)
(** * The claims of the specification *)
(* ===================================================================== *)





(** C3. Calling an active effect that is on the effect stack returns
    [undefined] and changes nothing.  Every other call of an active effect
    first removes it from every set of its [deps] and empties [deps]; the
    computation starts, between [enter] and [leave], from a state in which
    the effect is subscribed to nothing.  Hence after the run of a
    computation that reads keys chosen by the application state, the
    effect is a member of exactly the sets of the keys read in this run. *)
Theorem run_guard_and_cleanup (call : prog -> M value) (e : eref)
    (x : ReactiveEffect) (st : state) :
  effHeap st !! e = Some x ->
  active x = true ->
  consistent st ->
  (e ∈ effectStack st -> reactiveEffect call e st = (Normal VUndef, st)) /\
  (e ∉ effectStack st ->
   let st1 := cleanup_state e x st in
   reactiveEffect call e st
   = try_finally (fun s => call (raw x) (enter e s)) leave st1 /\
   eff_deps st1 e = [] /\
   (forall d, e ∉ dep_members st1 d) /\
   (forall f g fuel,
      raw x = Get (fun w => reading (f w) (g w)) ->
      dev st = false \/ onTrack (options x) = None ->
      length (f (user st)) + 1 < fuel ->
      exists st',
        reactiveEffect (exec fuel) e st = (Normal (g (user st)), st') /\
        forall d,
          e ∈ dep_members st' d
          <-> exists t ty key,
                (t, ty, key) ∈ f (user st) /\ dep_of st' t key = Some d)).
Proof.
  intros Hx Ha Hc. split; [now apply (reactiveEffect_on_stack call e x)|].
  intros Hk st1.
  split; [now apply reactiveEffect_run|].
  split; [now apply cleanup_state_eff_deps|].
  assert (Hun : forall d, e ∉ dep_members st1 d)
    by (intros d; now apply cleanup_state_unsubscribed_all).
  split; [exact Hun|].
  intros f g fuel Hraw Hcb Hf.
  rewrite (reactiveEffect_run _ _ _ _ Hx Ha Hk). fold st1.
  unfold try_finally. rewrite Hraw.
  destruct fuel as [|n]; [lia|]. simpl.
  destruct (cleanup_state_context e x st)
    as (_ & _ & _ & _ & _ & Hu & Hdev & _).
  fold st1 in Hu, Hdev. rewrite Hu.
  assert (Hc0 : consistent (enter e st1)).
  { apply (consistent_ext st1); try reflexivity.
    now apply consistent_cleanup. }
  assert (Hx0 : effHeap (enter e st1) !! e = Some (with_deps [] x))
    by (now apply (cleanup_state_effHeap_self e x st)).
  assert (Hcb0 : dev (enter e st1) = false
                 \/ onTrack (options (with_deps [] x)) = None).
  { change (dev (enter e st1)) with (dev st1). rewrite Hdev. exact Hcb. }
  destruct (reading_exec e (f (user st)) (g (user st)) n (enter e st1)
              (with_deps [] x) ltac:(lia) Hc0 eq_refl eq_refl Hx0 Hcb0)
    as (s' & Hex & _ & Hmem).
  rewrite Hex. exists (leave s'). split; [reflexivity|].
  intros d. change (dep_members (leave s') d) with (dep_members s' d).
  rewrite Hmem. split.
  - intros [H|H]; [|exact H]. exfalso. now apply (Hun d).
  - intros H. now right.
Qed.

Lemma run_guard_and_cleanup_witness :
  effHeap two_readers_state !! 0 = Some first_reader /\
  active first_reader = true /\
  consistent two_readers_state /\
  reactiveEffect (exec 9) 0 two_readers_state
  = try_finally (fun s => exec 9 (raw first_reader) (enter 0 s)) leave
      (cleanup_state 0 first_reader two_readers_state).
Proof.
  assert (H : effHeap two_readers_state !! 0 = Some first_reader)
    by (vm_compute; reflexivity).
  assert (Hc : consistent two_readers_state)
    by (apply consistent_exec, consistent_init).
  split; [exact H|]. split; [reflexivity|]. split; [exact Hc|].
  destruct (run_guard_and_cleanup (exec 9) 0 first_reader two_readers_state
              H eq_refl Hc) as (_ & Hrun).
  destruct (Hrun (not_elem_of_nil 0)) as (Heq & _). exact Heq.
Defined.

(** The effect of [branching] read [obj.a] in its first run and [obj.b] in
    its second: it has left the set of [a] and is in the set of [b], and a
    [trigger] of [a] collects nothing. *)
Example branching_subscriptions :
  dep_of branching_state obj (VStr "a"%string) = Some 0 /\
  dep_of branching_state obj (VStr "b"%string) = Some 1 /\
  dep_members branching_state 0 = [] /\
  dep_members branching_state 1 = [0] /\
  eff_deps branching_state 0 = [1] /\
  collect branching_state [(VStr "a"%string, 0); (VStr "b"%string, 1)] obj
    SET (VStr "a"%string) (VNum 2) = inr [].
Proof.
  repeat split; vm_compute; reflexivity.
Qed.



(** C5 (as stated, refuted).  Tracking is paused, and an effect is called
    whose computation pauses tracking once more and throws.  The error
    goes to the caller, the effect is popped and no effect is active, but
    [shouldTrack], false before the call, is true afterwards: the
    [finally] block pops the entry that the computation pushed, and the
    entry pushed on entry stays on the tracking stack. *)
Lemma failing_run_leaves_tracking_enabled :
  effHeap pausing_thrower_state !! 0 = Some pausing_thrower_effect /\
  shouldTrack pausing_thrower_state = false /\
  trackStack pausing_thrower_state = [true] /\
  fst (reactiveEffect (exec 9) 0 pausing_thrower_state)
  = Thrown (UserError (VNum 9)) /\
  effectStack (snd (reactiveEffect (exec 9) 0 pausing_thrower_state)) = [] /\
  activeEffect (snd (reactiveEffect (exec 9) 0 pausing_thrower_state))
  = None /\
  shouldTrack (snd (reactiveEffect (exec 9) 0 pausing_thrower_state))
  = true /\
  trackStack (snd (reactiveEffect (exec 9) 0 pausing_thrower_state))
  = [true; false].
Proof.
  repeat split; vm_compute; reflexivity.
Qed.

(** C5 (amended).  When the computation of a run that is not a no-op
    throws, the error goes to the caller and the [finally] block has run:
    the effect stack is what it was before the call, [activeEffect] is its
    top (or none), [shouldTrack] is the value popped from the tracking
    stack (true when that is empty), which is the value before the call
    when the computation has left the tracking stack as it found it,
    each pause or enable answered by a reset.  The state is got from the
    state at the end of the computation in the same way as after a normal
    completion. *)
Theorem run_error_cleanup (fuel : nat) (e : eref) (x : ReactiveEffect)
    (st st3 : state) (err : exn) :
  effHeap st !! e = Some x ->
  active x = true ->
  e ∉ effectStack st ->
  exec fuel (raw x) (enter e (cleanup_state e x st)) = (Thrown err, st3) ->
  reactiveEffect (exec fuel) e st = (Thrown err, leave st3) /\
  effectStack (leave st3) = effectStack st /\
  activeEffect (leave st3) = last (effectStack st) /\
  trackStack (leave st3) = removelast (trackStack st3) /\
  shouldTrack (leave st3) = default true (last (trackStack st3)) /\
  (trackStack st3 = trackStack st ++ [shouldTrack st] ->
   trackStack (leave st3) = trackStack st /\
   shouldTrack (leave st3) = shouldTrack st) /\
  (forall call r st4,
     call (raw x) (enter e (cleanup_state e x st)) = (r, st4) ->
     answers r -> reactiveEffect call e st = (r, leave st4)).
Proof.
  intros Hx Ha Hk Hr.
  assert (Hst : effectStack st3 = effectStack st ++ [e]).
  { rewrite (balanced_exec fuel _ _ _ _ Hr I).
    destruct (enter_context e (cleanup_state e x st)) as (-> & _).
    now destruct (cleanup_state_context e x st) as (_ & -> & _). }
  destruct (leave_context st3) as (Hl1 & Hl2 & Hl3 & Hl4 & _).
  split.
  { rewrite (reactiveEffect_run _ _ _ _ Hx Ha Hk). unfold try_finally.
    now rewrite Hr. }
  split; [now rewrite Hl1, Hst, removelast_last|].
  split; [now rewrite Hl2, Hst, removelast_last|].
  split; [exact Hl3|]. split; [exact Hl4|]. split.
  - intros Ht. rewrite Hl3, Hl4, Ht, removelast_last, last_snoc. auto.
  - intros call r st4 Hc Hans.
    rewrite (reactiveEffect_run _ _ _ _ Hx Ha Hk). unfold try_finally.
    rewrite Hc. now destruct r.
Qed.

Lemma run_error_cleanup_witness :
  effHeap failing_reader_state !! 0 = Some failing_effect /\
  active failing_effect = true /\
  (0 ∉ effectStack failing_reader_state) /\
  reactiveEffect (exec 9) 0 failing_reader_state
  = (Thrown (UserError (VNum 9)),
     leave (snd (exec 9 (raw failing_effect)
                   (enter 0 (cleanup_state 0 failing_effect
                               failing_reader_state))))).
Proof.
  split; [reflexivity|]. split; [reflexivity|].
  split; [apply not_elem_of_nil|].
  apply (proj1 (run_error_cleanup 9 0 failing_effect failing_reader_state
           (snd (exec 9 (raw failing_effect)
                   (enter 0 (cleanup_state 0 failing_effect
                               failing_reader_state))))
           (UserError (VNum 9)) eq_refl eq_refl (not_elem_of_nil 0)
           ltac:(vm_compute; reflexivity))).
Defined.

(** C6 (the code at two inputs).  An array has effects on ['length'], on
    the index ['5'] and on a property named by a symbol.  Setting its
    length to [2] should collect the first two.  The comparison of the
    symbol with the new length throws, nothing is collected, no
    computation runs.  On another array, an effect on the property named
    by the empty string, which is no integer index, is collected when the
    length is set to [0]. *)
Theorem length_trigger_on_array :
  targetMap array_readers_state !! arr
  = Some [(VStr "length"%string, 0); (VStr "5"%string, 1); (VSym 7, 2)] /\
  collect array_readers_state
    [(VStr "length"%string, 0); (VStr "5"%string, 1); (VSym 7, 2)]
    arr SET (VStr "length"%string) (VNum 2)
  = inl (TypeError "Cannot convert a Symbol value to a number"%string) /\
  trigger (exec 20) arr SET (VStr "length"%string) (VNum 2) (VNum 6) None
    array_readers_state
  = (Thrown (TypeError "Cannot convert a Symbol value to a number"%string),
     array_readers_state) /\
  isIntegerKey (VStr ""%string) = false /\
  targetMap empty_key_reader_state !! arr = Some [(VStr ""%string, 0)] /\
  collect empty_key_reader_state [(VStr ""%string, 0)] arr SET
    (VStr "length"%string) (VNum 0) = inr [0].
Proof.
  repeat split; vm_compute; reflexivity.
Qed.

(** C7 (the code at two inputs).  An effect that stops itself in the
    middle of its run and then reads [obj.a] is subscribed again by that
    read: [track] looks at [shouldTrack] and [activeEffect] only, not at
    [active].  It is stopped, its computation has run once; a later
    [trigger] of [obj.a] collects it and, as it has no scheduler, runs its
    raw computation a second time.  The same happens to an effect stopped
    from outside whose [onStop] hook calls it: the hook runs after
    [cleanup] and before [active] is cleared, so the call is a tracked
    run. *)
Lemma stopped_effect_rerun_by_trigger :
  (active <$> effHeap stop_inside_state !! 0 = Some false /\
   user stop_inside_state = [VNum 1] /\
   targetMap stop_inside_state !! obj = Some [(VStr "a"%string, 0)] /\
   collect stop_inside_state [(VStr "a"%string, 0)] obj SET (VStr "a"%string)
     (VNum 2) = inr [0] /\
   fst (trigger (exec 20) obj SET (VStr "a"%string) (VNum 2) (VNum 1) None
          stop_inside_state) = Normal tt /\
   user (snd (trigger (exec 20) obj SET (VStr "a"%string) (VNum 2) (VNum 1)
                None stop_inside_state)) = [VNum 2]) /\
  (active <$> effHeap stop_hook_state !! 0 = Some false /\
   user stop_hook_state = [VNum 2] /\
   targetMap stop_hook_state !! obj = Some [(VStr "a"%string, 0)] /\
   collect stop_hook_state [(VStr "a"%string, 0)] obj SET (VStr "a"%string)
     (VNum 2) = inr [0] /\
   fst (trigger (exec 20) obj SET (VStr "a"%string) (VNum 2) (VNum 1) None
          stop_hook_state) = Normal tt /\
   user (snd (trigger (exec 20) obj SET (VStr "a"%string) (VNum 2) (VNum 1)
                None stop_hook_state)) = [VNum 3]).
Proof.
  repeat split; vm_compute; reflexivity.
Qed.

(** C8 (as stated, refuted).  An effect that is stopped in the middle of
    a run of its own is inactive, subscribed to nothing, and still the
    active effect.  A call of it then runs its computation, whose reads
    are tracked for the active effect, the stopped effect itself: after
    the call its [deps] lists the sets of [obj.a] and [obj.b] again and it
    is a member of both.  The same at the end of a program in which an
    effect stops and then calls itself. *)
Lemma inactive_call_rebuilds_deps :
  (active <$> effHeap stopped_running !! 0 = Some false /\
   eff_deps stopped_running 0 = [] /\
   dep_members stopped_running 0 = [] /\
   activeEffect stopped_running = Some 0 /\
   fst (reactiveEffect (exec 9) 0 stopped_running) = Normal VUndef /\
   eff_deps (snd (reactiveEffect (exec 9) 0 stopped_running)) 0 = [0; 1] /\
   dep_members (snd (reactiveEffect (exec 9) 0 stopped_running)) 0 = [0] /\
   dep_members (snd (reactiveEffect (exec 9) 0 stopped_running)) 1
   = [1; 0]) /\
  (active <$> effHeap self_calling_state !! 0 = Some false /\
   eff_deps self_calling_state 0 = [0] /\
   dep_members self_calling_state 0 = [0]).
Proof.
  repeat split; vm_compute; reflexivity.
Qed.

(** C8 (amended).  Calling a stopped effect: with a scheduler among its
    options the call returns [undefined] and changes nothing; without one
    it is exactly the call of the raw computation in the state as it
    stands, the effect function itself pushes nothing, sets no active
    effect, enables no tracking and cleans up nothing.  What the
    computation reads is tracked as any read is, for the effect that is
    active at that moment: when tracking is paused or no effect is
    active, a computation that only reads returns its value and leaves
    the whole state as it was; when an effect is active (it may be the
    stopped effect itself) the reads subscribe that effect, and only
    it. *)
Theorem inactive_effect_call (call : prog -> M value) (e : eref)
    (x : ReactiveEffect) (st : state) :
  effHeap st !! e = Some x ->
  active x = false ->
  (forall s, scheduler (options x) = Some s ->
     reactiveEffect call e st = (Normal VUndef, st)) /\
  (scheduler (options x) = None ->
     reactiveEffect call e st = call (raw x) st) /\
  (forall l v fuel,
     scheduler (options x) = None -> raw x = reading l v ->
     length l < fuel ->
     shouldTrack st = false \/ activeEffect st = None ->
     reactiveEffect (exec fuel) e st = (Normal v, st)) /\
  (forall l v fuel a xa,
     scheduler (options x) = None -> raw x = reading l v ->
     length l < fuel ->
     consistent st -> shouldTrack st = true -> activeEffect st = Some a ->
     effHeap st !! a = Some xa ->
     dev st = false \/ onTrack (options xa) = None ->
     exists st',
       reactiveEffect (exec fuel) e st = (Normal v, st') /\
       effectStack st' = effectStack st /\
       activeEffect st' = activeEffect st /\
       trackStack st' = trackStack st /\
       shouldTrack st' = shouldTrack st /\
       (forall e', e' ≠ a -> effHeap st' !! e' = effHeap st !! e') /\
       (forall e' d, e' ≠ a ->
          (e' ∈ dep_members st' d <-> e' ∈ dep_members st d)) /\
       (forall d,
          a ∈ dep_members st' d
          <-> a ∈ dep_members st d \/
              exists t ty key,
                (t, ty, key) ∈ l /\ dep_of st' t key = Some d)).
Proof.
  intros Hx Ha. rewrite (reactiveEffect_inactive call e x st Hx Ha).
  split; [intros s Hs; now rewrite Hs|].
  split; [intros Hs; now rewrite Hs|].
  split.
  - intros l v fuel Hs Hraw Hf Hno.
    rewrite (reactiveEffect_inactive (exec fuel) e x st Hx Ha), Hs, Hraw.
    now apply reading_untracked.
  - intros l v fuel a xa Hs Hraw Hf Hc Hsh Hact Hxa Hcb.
    rewrite (reactiveEffect_inactive (exec fuel) e x st Hx Ha), Hs, Hraw.
    destruct (reading_exec a l v fuel st xa Hf Hc Hsh Hact Hxa Hcb)
      as (st' & Hex & _ & Hmem).
    destruct (reading_exec_frame a l v fuel st xa Hf Hc Hsh Hact Hxa Hcb)
      as (st'' & Hex' & _ & [Ho1 Ho2] & (K1 & K2 & K3 & K4 & _) & _).
    rewrite Hex in Hex'. injection Hex' as <-.
    exists st'. auto 10.
Qed.

Lemma inactive_effect_call_witness :
  effHeap stopped_reader_state !! 0 = Some stopped_reader /\
  active stopped_reader = false /\
  activeEffect stopped_reader_state = None /\
  reactiveEffect (exec 9) 0 stopped_reader_state
  = (Normal VUndef, stopped_reader_state).
Proof.
  assert (H : effHeap stopped_reader_state !! 0 = Some stopped_reader)
    by (vm_compute; reflexivity).
  assert (Hn : activeEffect stopped_reader_state = None)
    by (vm_compute; reflexivity).
  split; [exact H|]. split; [reflexivity|]. split; [exact Hn|].
  destruct (inactive_effect_call (exec 9) 0 stopped_reader
              stopped_reader_state H eq_refl) as (_ & _ & Hr & _).
  apply (Hr [(obj, GET, VStr "a")] VUndef 9 eq_refl eq_refl);
    [simpl; lia|now right].
Defined.

(** C9 (the code at one input).  [trigger] for the ['length'] of an array
    that has a dependency set under a symbol key throws a [TypeError],
    with no computation involved. *)
Theorem trigger_throws_on_symbol_key :
  dep_of array_readers_state arr (VSym 7) = Some 2 /\
  exec 20
    (Trigger arr SET (VStr "length"%string) (VNum 2) (VNum 6) None
       (Ret VUndef))
    array_readers_state
  = (Thrown (TypeError "Cannot convert a Symbol value to a number"%string),
     array_readers_state).
Proof.
  split; vm_compute; reflexivity.
Qed.

(** C10. Between operations, an effect is a member of a dependency set
    exactly when the set is listed in its [deps]: this holds when the
    module is loaded, and every operation keeps it, with whatever user
    code it calls and however it ends.  [track], when tracking is enabled
    and an effect is active, reaches a state in which that effect is a
    member of the set of the pair and the set is an entry of its [deps],
    before it returns or calls [onTrack]; it does so by [link], one step
    for both directions.  [cleanup] returns in a state in which the
    effect is in no set and its [deps] is empty; [stop] on an active
    effect and every run that is not a no-op go on from that very
    state. *)
Theorem membership_invariant (fuel : nat) (p : prog) (st : state) :
  consistent st ->
  (forall dev_build w, consistent (init dev_build w)) /\
  consistent (snd (exec fuel p st)) /\
  (forall e x d s,
     effHeap (snd (exec fuel p st)) !! e = Some x ->
     depHeap (snd (exec fuel p st)) !! d = Some s ->
     (e ∈ s <-> d ∈ deps x)) /\
  (forall call,
     (forall q, keeps consistent (call q)) ->
     (forall t ty key, consistent (snd (track call t ty key st))) /\
     (forall e, consistent (snd (stop call e st))) /\
     (forall e, consistent (snd (reactiveEffect call e st))) /\
     (forall fn o, consistent (snd (effect call fn o st))) /\
     (forall t ty key nv ov ot,
        consistent (snd (trigger call t ty key nv ov ot st)))) /\
  (forall a x t key d,
     effHeap st !! a = Some x -> dep_of st t key = Some d ->
     a ∈ dep_members (link a x d st) d /\ d ∈ eff_deps (link a x d st) a) /\
  (forall e x d,
     effHeap st !! e = Some x ->
     (e ∉ dep_members (cleanup_state e x st) d) /\
     (d ∉ eff_deps (cleanup_state e x st) e)) /\
  (forall call t ty key a x,
     shouldTrack st = true -> activeEffect st = Some a ->
     effHeap st !! a = Some x ->
     exists d st2,
       dep_of st2 t key = Some d /\
       a ∈ dep_members st2 d /\ d ∈ eff_deps st2 a /\
       (track call t ty key st = (Normal tt, st2) \/
        exists h,
          dev st2 = true /\ onTrack (options x) = Some h /\
          track call t ty key st
          = (call (h (track_event a t ty key));; ret tt) st2)) /\
  (forall e x,
     effHeap st !! e = Some x ->
     exists st1,
       cleanup e st = (Normal tt, st1) /\
       eff_deps st1 e = [] /\ (forall d, e ∉ dep_members st1 d) /\
       (forall call,
          active x = true ->
          stop call e st
          = match onStop (options x) with
            | Some h =>
                match call h st1 with
                | (Normal _, st2) => (Normal tt, deactivate e st2)
                | (Thrown err, st2) => (Thrown err, st2)
                | (Halted hl, st2) => (Halted hl, st2)
                end
            | None => (Normal tt, deactivate e st1)
            end) /\
       (forall call,
          active x = true -> e ∉ effectStack st ->
          reactiveEffect call e st
          = try_finally (fun s => call (raw x) (enter e s)) leave st1)).
Proof.
  intros Hc. split; [apply consistent_init|].
  pose proof (consistent_exec fuel p st Hc) as Hc'.
  split; [exact Hc'|]. split; [apply (link_iff _ Hc')|]. split.
  - intros call Hcall.
    destruct (consistent_operations call Hcall) as (H1 & H2 & H3 & H4 & H5).
    split; [|split; [|split; [|split]]]; intros.
    + now apply H1.
    + now apply H2.
    + now apply H3.
    + now apply H4.
    + now apply H5.
  - split.
    + intros a x t key d Hx Hof. split.
      * rewrite link_members by (now apply (registry_valid st Hc t key)).
        apply set_add_elem. now left.
      * rewrite (link_eff_deps _ _ _ _ Hx), elem_of_app, list_elem_of_singleton.
        now right.
    + split; [|split].
      * intros e x d Hx. split.
        -- now apply cleanup_state_unsubscribed_all.
        -- rewrite (cleanup_state_eff_deps _ _ _ Hx). apply not_elem_of_nil.
      * intros call t ty key a x Hs Ha Hx. now apply track_links.
      * intros e x Hx. exists (cleanup_state e x st).
        split; [now apply cleanup_unfold|].
        split; [now apply cleanup_state_eff_deps|].
        split; [intros d; now apply cleanup_state_unsubscribed_all|].
        split.
        -- intros call Ha. now apply stop_active.
        -- intros call Ha Hk. now apply reactiveEffect_run.
Qed.

Lemma membership_invariant_witness :
  consistent (init true [VNum 0]) /\
  consistent (snd (exec 20 two_readers (init true [VNum 0]))).
Proof.
  split; [apply consistent_init|].
  apply (membership_invariant 20 two_readers (init true [VNum 0])).
  apply consistent_init.
Defined.

(* ===================================================================== *)
(** * Further properties of the code *)
(* ===================================================================== *)

(** ** The tracking switch (effect.ts, lines 143-162) *)

Lemma resetTracking_enableTracking st : resetTracking (enableTracking st) = st.
Proof.
  destruct st. unfold resetTracking, enableTracking. cbn.
  now rewrite last_snoc, removelast_last.
Qed.

Lemma resetTracking_pauseTracking st : resetTracking (pauseTracking st) = st.
Proof.
  destruct st. unfold resetTracking, pauseTracking. cbn.
  now rewrite last_snoc, removelast_last.
Qed.

(** X1. Pauses and enables that are answered by as many resets leave no
    trace: after any sequence of [pauseTracking] and [enableTracking]
    calls, one [resetTracking] per call brings back the state, with the
    switch and the stack as they were. *)
Theorem tracking_controls_round_trip (ops : list bool) (st : state) :
  reset_times (length ops) (push_controls ops st) = st.
Proof.
  revert st. induction ops as [|b ops IH] using rev_ind; intros st.
  - reflexivity.
  - unfold push_controls. rewrite foldl_app, length_app. simpl.
    rewrite Nat.add_comm. simpl. fold (push_controls ops st).
    destruct b.
    + rewrite resetTracking_enableTracking. apply IH.
    + rewrite resetTracking_pauseTracking. apply IH.
Qed.

Lemma reset_times_trackStack n : forall st,
  trackStack (reset_times n st)
  = take (length (trackStack st) - n) (trackStack st).
Proof.
  induction n as [|n IH]; intros st; simpl.
  - now rewrite Nat.sub_0_r, firstn_all.
  - rewrite IH. unfold resetTracking. cbn.
    destruct (trackStack st) as [|b l] using rev_ind; [reflexivity|].
    rewrite removelast_last, length_app. simpl.
    replace (length l + 1 - S n) with (length l - n) by lia.
    rewrite take_app_le by lia. reflexivity.
Qed.

Lemma reset_times_empty n : forall st,
  trackStack st = [] -> 0 < n -> shouldTrack (reset_times n st) = true.
Proof.
  induction n as [|n IH]; intros st Hs Hn; [lia|]. simpl.
  assert (Hr : trackStack (resetTracking st) = [])
    by (unfold resetTracking; cbn; now rewrite Hs).
  destruct n as [|n].
  - simpl. unfold resetTracking. cbn. now rewrite Hs.
  - apply IH; [exact Hr|lia].
Qed.

Lemma reset_times_add n m st :
  reset_times (n + m) st = reset_times m (reset_times n st).
Proof.
  revert st. induction n as [|n IH]; intros st; simpl; [reflexivity|].
  apply IH.
Qed.

(** X2. Resets that no pause or enable answers are tolerated: once more
    resets have been made than the stack held entries, the stack is empty
    and tracking is enabled, whatever the switch was. *)
Theorem reset_beyond_stack (n : nat) (st : state) :
  length (trackStack st) < n ->
  trackStack (reset_times n st) = [] /\
  shouldTrack (reset_times n st) = true.
Proof.
  intros Hn. split.
  - rewrite reset_times_trackStack.
    replace (length (trackStack st) - n) with 0 by lia. reflexivity.
  - replace n with (length (trackStack st) + (n - length (trackStack st)))
      by lia.
    rewrite reset_times_add. apply reset_times_empty; [|lia].
    rewrite reset_times_trackStack, Nat.sub_diag. reflexivity.
Qed.

Lemma reset_beyond_stack_witness :
  length (trackStack (pauseTracking (init true []))) < 2 /\
  shouldTrack (reset_times 2 (pauseTracking (init true []))) = true.
Proof.
  split; [simpl; lia|].
  apply (reset_beyond_stack 2 (pauseTracking (init true []))). simpl. lia.
Defined.

(** X3. A read between [pauseTracking] and [resetTracking] is not tracked:
    the three calls in a row leave the whole state as it was, whatever
    effect is active. *)
Theorem paused_read_leaves_no_trace (call : prog -> M value) (t : target)
    (ty : TrackOpTypes) (key : value) (st : state) :
  (modify pauseTracking;; track call t ty key;; modify resetTracking) st
  = (Normal tt, st).
Proof.
  unfold bind, modify.
  rewrite (track_noop call t ty key (pauseTracking st)) by (now left).
  now rewrite resetTracking_pauseTracking.
Qed.

(** ** Serial numbers of effects (lines 97-130) *)

Lemma ids_increasing_ext st st' :
  uid st' = uid st ->
  (forall e, id <$> effHeap st' !! e = id <$> effHeap st !! e) ->
  ids_increasing st -> ids_increasing st'.
Proof.
  intros Hu He [H1 H2]. split.
  - intros e x Hx. rewrite Hu. specialize (He e). rewrite Hx in He.
    destruct (effHeap st !! e) as [y|] eqn:Hy; [|discriminate].
    injection He as ->. now apply (H1 e y).
  - intros e e' x x' Hx Hx' Hlt.
    pose proof (He e) as E. pose proof (He e') as E'.
    rewrite Hx in E. rewrite Hx' in E'.
    destruct (effHeap st !! e) as [y|] eqn:Hy; [|discriminate].
    destruct (effHeap st !! e') as [y'|] eqn:Hy'; [|discriminate].
    injection E as ->. injection E' as ->. now apply (H2 e e' y y').
Qed.

Lemma cleanup_state_ids e x st e' :
  effHeap st !! e = Some x ->
  id <$> effHeap (cleanup_state e x st) !! e' = id <$> effHeap st !! e'.
Proof.
  intros Hx. destruct (decide (e' = e)) as [->|Hne].
  - now rewrite (cleanup_state_effHeap_self _ _ _ Hx), Hx.
  - now rewrite cleanup_state_effHeap_other.
Qed.

Lemma link_ids a x d st e :
  effHeap st !! a = Some x ->
  id <$> effHeap (link a x d st) !! e = id <$> effHeap st !! e.
Proof.
  intros Hx. rewrite (link_effHeap _ _ _ _ _ Hx).
  destruct (decide (a = e)) as [->|Hne]; [now rewrite Hx|reflexivity].
Qed.

Lemma deactivate_ids e st e' :
  id <$> effHeap (deactivate e st) !! e' = id <$> effHeap st !! e'.
Proof.
  unfold deactivate. cbn. rewrite list_lookup_alter.
  destruct (decide (e = e')) as [->|Hne]; [|reflexivity].
  destruct (effHeap st !! e'); reflexivity.
Qed.

Lemma ids_increasing_create fn o st :
  ids_increasing st -> ids_increasing (snd (createReactiveEffect fn o st)).
Proof.
  intros [H1 H2]. unfold createReactiveEffect, ids_increasing. simpl.
  split.
  - intros e x Hx. apply lookup_app_Some in Hx.
    destruct Hx as [Hx|[_ Hx]].
    + apply H1 in Hx. lia.
    + destruct (e - length (effHeap st)) as [|n]; [|now destruct n].
      injection Hx as <-. simpl. lia.
  - intros e e' x x' Hx Hx' Hlt.
    apply lookup_app_Some in Hx. apply lookup_app_Some in Hx'.
    destruct Hx as [Hx|[Hle Hx]].
    + destruct Hx' as [Hx'|[_ Hx']]; [now apply (H2 e e' x x')|].
      destruct (e' - length (effHeap st)) as [|n]; [|now destruct n].
      injection Hx' as <-. simpl. now apply (H1 e x).
    + exfalso.
      destruct (e - length (effHeap st)) as [|n] eqn:Hn; [|now destruct n].
      destruct Hx' as [Hx'|[Hle' Hx']].
      * apply lookup_lt_Some in Hx'. lia.
      * destruct (e' - length (effHeap st)) as [|n'] eqn:Hn';
          [lia|now destruct n'].
Qed.

Lemma ids_increasing_exec fuel p st :
  ids_increasing st -> ids_increasing (snd (exec fuel p st)).
Proof.
  revert p st. apply (keeps_exec ids_increasing).
  - intros w st. now apply ids_increasing_ext.
  - intros st. now apply ids_increasing_ext.
  - intros st. now apply ids_increasing_ext.
  - intros st. now apply ids_increasing_ext.
  - intros e x st H Hx _. revert H. apply ids_increasing_ext.
    + now destruct (cleanup_state_context e x st) as (_ & _ & _ & _ & _ & _ & _ & ->).
    + intros e'. now apply cleanup_state_ids.
  - intros e x st H _ _ _. revert H. now apply ids_increasing_ext.
  - intros st. now apply ids_increasing_ext.
  - intros e st. apply ids_increasing_ext; [reflexivity|].
    intros e'. apply deactivate_ids.
  - apply ids_increasing_create.
  - intros t st H _. revert H. now apply ids_increasing_ext.
  - intros t m key st H _ _. revert H. now apply ids_increasing_ext.
  - intros t key a x d st H _ _ Hx _ _. revert H.
    apply ids_increasing_ext; [reflexivity|].
    intros e. now apply link_ids.
Qed.

(** X4. The [id] of an effect identifies it, as long as the counter
    [uid] has not passed 2^53, up to where [uid++] on a number of the
    source counts exactly: whatever user code has run to a state with
    such a counter, every effect has an [id] below [uid], an effect
    created later has a larger [id], and so no two effects share an
    [id]. *)
Theorem effect_ids_unique (fuel : nat) (p : prog) (st : state) :
  ids_increasing st ->
  let st' := snd (exec fuel p st) in
  (Z.of_nat (uid st') <= 9007199254740992)%Z ->
  ids_increasing st' /\
  (forall e e' x x',
     effHeap st' !! e = Some x -> effHeap st' !! e' = Some x' ->
     id x = id x' -> e = e').
Proof.
  intros H st' _. pose proof (ids_increasing_exec fuel p st H) as H'.
  fold st' in H'. split; [exact H'|].
  destruct H' as [_ H2]. intros e e' x x' Hx Hx' Hid.
  destruct (Nat.lt_trichotomy e e') as [Hlt|[Heq|Hgt]]; [|exact Heq|].
  - pose proof (H2 e e' x x' Hx Hx' Hlt). lia.
  - pose proof (H2 e' e x' x Hx' Hx Hgt). lia.
Qed.

Lemma effect_ids_unique_witness :
  ids_increasing (init true [VNum 0]) /\
  uid (snd (exec 20 two_readers (init true [VNum 0]))) = 2 /\
  ids_increasing (snd (exec 20 two_readers (init true [VNum 0]))).
Proof.
  assert (H : ids_increasing (init true [VNum 0])).
  { split; cbn; intros; discriminate. }
  assert (Hu : uid (snd (exec 20 two_readers (init true [VNum 0]))) = 2)
    by (vm_compute; reflexivity).
  split; [exact H|]. split; [exact Hu|].
  apply (effect_ids_unique 20 two_readers (init true [VNum 0]) H).
  rewrite Hu. lia.
Defined.

(** ** The running-effect context (lines 104-121) *)

Lemma NoDup_removelast {A} (l : list A) : NoDup l -> NoDup (removelast l).
Proof.
  destruct (decide (l = [])) as [->|Hne]; [auto|].
  destruct (exists_last Hne) as (l' & a & ->).
  rewrite removelast_last. intros H. apply NoDup_app in H. tauto.
Qed.

Lemma context_ok_ext st st' :
  effectStack st' = effectStack st -> activeEffect st' = activeEffect st ->
  length (effHeap st) <= length (effHeap st') ->
  context_ok st -> context_ok st'.
Proof.
  intros Hs Ha Hl (H1 & H2 & H3). unfold context_ok. rewrite Hs, Ha.
  split; [assumption|]. split; [assumption|].
  intros e He. apply H3 in He. lia.
Qed.

Lemma context_ok_exec fuel p st :
  context_ok st -> context_ok (snd (exec fuel p st)).
Proof.
  revert p st. apply (keeps_exec context_ok).
  - intros w st. now apply context_ok_ext.
  - intros st. now apply context_ok_ext.
  - intros st. now apply context_ok_ext.
  - intros st. now apply context_ok_ext.
  - intros e x st H Hx _. revert H.
    destruct (cleanup_state_context e x st) as (_ & Hs & Ha & _).
    apply context_ok_ext; [assumption|assumption|].
    now rewrite cleanup_state_effHeap_length.
  - intros e x st (H1 & H2 & H3) Hx _ Hout.
    destruct (enter_context e st) as (Hs & Ha & _ & _ & _ & _ & He & _).
    unfold context_ok. rewrite Hs, Ha, He. split; [|split].
    + apply NoDup_app. split; [assumption|]. split; [|apply NoDup_singleton].
      intros y Hy Hy'. apply list_elem_of_singleton in Hy'. now subst.
    + now rewrite last_snoc.
    + intros y Hy. apply elem_of_app in Hy. destruct Hy as [Hy|Hy]; [auto|].
      apply list_elem_of_singleton in Hy. subst.
      now apply lookup_lt_Some in Hx.
  - intros st (H1 & H2 & H3).
    destruct (leave_context st) as (Hs & Ha & _ & _ & _ & _ & He & _).
    unfold context_ok. rewrite Hs, Ha, He. split; [|split].
    + now apply NoDup_removelast.
    + reflexivity.
    + intros y Hy. apply H3. now apply elem_of_removelast.
  - intros e st. apply context_ok_ext; [reflexivity|reflexivity|].
    unfold deactivate. cbn. now rewrite length_alter.
  - intros fn o st. apply context_ok_ext; [reflexivity|reflexivity|].
    unfold createReactiveEffect. cbn. rewrite length_app. lia.
  - intros t st H _. revert H. now apply context_ok_ext.
  - intros t m key st H _ _. revert H. now apply context_ok_ext.
  - intros t key a x d st H _ _ Hx _ _. revert H.
    apply context_ok_ext; [reflexivity|reflexivity|].
    unfold link. cbn. now rewrite length_insert.
Qed.

Lemma context_ok_init dev_build w : context_ok (init dev_build w).
Proof.
  unfold context_ok. cbn. split; [apply NoDup_nil_2|].
  split; [reflexivity|]. intros e He. inversion He.
Qed.

(** X5. The running-effect context stays in order whatever user code
    runs and however it ends: no effect is ever on [effectStack] twice
    (an effect is not entered while it runs), [activeEffect] is always
    the top of [effectStack], and is undefined exactly when the stack is
    empty. *)
Theorem context_stays_in_order (fuel : nat) (p : prog) (st : state) :
  context_ok st ->
  let st' := snd (exec fuel p st) in
  NoDup (effectStack st') /\
  activeEffect st' = last (effectStack st') /\
  (activeEffect st' = None <-> effectStack st' = []) /\
  (forall e, activeEffect st' = Some e ->
     e ∈ effectStack st' /\ e < length (effHeap st')).
Proof.
  intros H st'. destruct (context_ok_exec fuel p st H) as (H1 & H2 & H3).
  fold st' in H1, H2, H3. split; [assumption|]. split; [assumption|].
  split.
  - rewrite H2. apply last_None.
  - intros e He. rewrite H2 in He. apply last_elem_of in He. auto.
Qed.

Lemma context_stays_in_order_witness :
  context_ok (init true [VNum 0]) /\
  NoDup (effectStack (snd (exec 20 stop_inside (init true [VNum 0])))).
Proof.
  split; [apply context_ok_init|].
  apply (context_stays_in_order 20 stop_inside (init true [VNum 0])
           (context_ok_init true [VNum 0])).
Defined.

(** X6. User code that ends with an answer, a result or an error, leaves
    the running-effect context as it found it: the effects it ran have
    all been popped again, and the effect that was active before is
    active again. *)
Theorem user_code_restores_context (fuel : nat) (p : prog) (st st' : state)
    (r : completion value) :
  context_ok st ->
  exec fuel p st = (r, st') -> answers r ->
  effectStack st' = effectStack st /\ activeEffect st' = activeEffect st.
Proof.
  intros H He Hr.
  pose proof (balanced_exec fuel p st r st' He Hr) as Hs.
  split; [exact Hs|].
  pose proof (context_ok_exec fuel p st H) as (_ & H2 & _).
  rewrite He in H2. simpl in H2. rewrite H2, Hs.
  destruct H as (_ & H & _). now rewrite H.
Qed.

Lemma user_code_restores_context_witness :
  effectStack (snd (exec 20 failing_creation (init true [VNum 0]))) = [] /\
  activeEffect (snd (exec 20 failing_creation (init true [VNum 0]))) = None.
Proof.
  destruct (exec 20 failing_creation (init true [VNum 0])) as [r st'] eqn:He.
  assert (Hr : answers r).
  { replace r with (fst (exec 20 failing_creation (init true [VNum 0])))
      by now rewrite He.
    vm_compute. exact I. }
  apply (user_code_restores_context 20 failing_creation (init true [VNum 0])
           st' r (context_ok_init true [VNum 0]) He Hr).
Defined.

(** ** The registry and the two directions of a subscription
       (lines 133-141 and 164-211) *)

Lemma dep_of_ext st st' t key :
  targetMap st' = targetMap st -> dep_of st' t key = dep_of st t key.
Proof. intros H. unfold dep_of. now rewrite H. Qed.

(** X7. The registry only grows: once a dependency set is registered for
    an (object, key) pair, the pair keeps that very set whatever user code
    runs, also when cleanup or [stop] empties the set. *)
Theorem registered_set_is_kept (t : target) (key : value) (d : dref)
    (fuel : nat) (p : prog) (st : state) :
  dep_of st t key = Some d ->
  dep_of (snd (exec fuel p st)) t key = Some d.
Proof.
  revert p st. apply (keeps_exec (fun st => dep_of st t key = Some d)).
  - intros w st H. exact H.
  - intros st H. exact H.
  - intros st H. exact H.
  - intros st H. exact H.
  - intros e x st H _ _. rewrite <- H. apply dep_of_ext.
    now destruct (cleanup_state_context e x st) as (-> & _).
  - intros e x st H _ _ _. exact H.
  - intros st H. exact H.
  - intros e st H. exact H.
  - intros fn o st H. exact H.
  - intros t0 st H Hn. revert H. unfold dep_of. cbn.
    destruct (decide (t0 = t)) as [->|Hne].
    + now rewrite Hn.
    + now rewrite lookup_insert_ne.
  - intros t0 m key0 st H Hm Hk. revert H. unfold dep_of. cbn.
    destruct (decide (t0 = t)) as [->|Hne].
    + rewrite Hm, lookup_insert_eq. intros H.
      rewrite depsMap_get_snoc_ne; [exact H|]. intros ->. congruence.
    + now rewrite lookup_insert_ne.
  - intros t0 key0 a x d0 st H _ _ _ _ _. exact H.
Qed.

Lemma registered_set_is_kept_witness :
  dep_of two_readers_state obj (VStr "a") = Some 0 /\
  dep_of (snd (exec 20 (Stop 0 (Stop 1 (Ret VUndef))) two_readers_state))
    obj (VStr "a") = Some 0.
Proof.
  assert (H : dep_of two_readers_state obj (VStr "a") = Some 0)
    by (vm_compute; reflexivity).
  split; [exact H|].
  apply (registered_set_is_kept obj (VStr "a") 0 20
           (Stop 0 (Stop 1 (Ret VUndef))) two_readers_state H).
Defined.

Lemma without_repetition_ext st st' :
  depHeap st' = depHeap st -> effHeap st' = effHeap st ->
  without_repetition st -> without_repetition st'.
Proof. intros Hd He. unfold without_repetition. now rewrite Hd, He. Qed.

Lemma NoDup_set_delete e s : NoDup s -> NoDup (set_delete e s).
Proof. apply NoDup_filter. Qed.

Lemma without_repetition_cleanup e x st :
  effHeap st !! e = Some x ->
  without_repetition st -> without_repetition (cleanup_state e x st).
Proof.
  intros Hx [H1 H2]. split.
  - intros e' x' Hx'. destruct (decide (e' = e)) as [->|Hne].
    + rewrite (cleanup_state_effHeap_self _ _ _ Hx) in Hx'.
      injection Hx' as <-. apply NoDup_nil_2.
    + rewrite cleanup_state_effHeap_other in Hx' by assumption. eauto.
  - intros d s Hs. rewrite cleanup_state_depHeap in Hs.
    destruct (depHeap st !! d) as [s0|] eqn:Hs0; [|discriminate].
    injection Hs as <-. specialize (H2 d s0 Hs0).
    destruct (decide (d ∈ deps x)); [now apply NoDup_set_delete|assumption].
Qed.

Lemma without_repetition_link t key a x d st :
  consistent st -> effHeap st !! a = Some x ->
  dep_of st t key = Some d -> a ∉ dep_members st d ->
  without_repetition st -> without_repetition (link a x d st).
Proof.
  intros Hc Hx Hof Hout [H1 H2].
  pose proof (registry_valid st Hc t key d Hof) as Hd.
  apply lookup_lt_is_Some_2 in Hd. destruct Hd as [s Hs].
  assert (Hnd : d ∉ deps x).
  { intros Hin. apply Hout. unfold dep_members. rewrite Hs. simpl.
    now apply (link_iff st Hc a x d s Hx Hs). }
  split.
  - intros e x' Hx'. rewrite (link_effHeap _ _ _ _ _ Hx) in Hx'.
    destruct (decide (a = e)) as [->|Hne]; [|eauto].
    injection Hx' as <-. simpl. apply NoDup_app.
    split; [eauto|]. split; [|apply NoDup_singleton].
    intros y Hy Hy'. apply list_elem_of_singleton in Hy'. now subst.
  - intros d' s' Hs'. rewrite link_depHeap in Hs'.
    destruct (depHeap st !! d') as [s0|] eqn:Hs0; [|discriminate].
    injection Hs' as <-. specialize (H2 d' s0 Hs0).
    destruct (decide (d = d')); [now apply set_add_NoDup|assumption].
Qed.

Lemma without_repetition_exec fuel p st :
  consistent st /\ without_repetition st ->
  consistent (snd (exec fuel p st)) /\
  without_repetition (snd (exec fuel p st)).
Proof.
  revert p st.
  apply (keeps_exec (fun st => consistent st /\ without_repetition st)).
  - intros w st [Hc H]. split; [revert Hc; now apply consistent_ext|exact H].
  - intros st [Hc H]. split; [revert Hc; now apply consistent_ext|exact H].
  - intros st [Hc H]. split; [revert Hc; now apply consistent_ext|exact H].
  - intros st [Hc H]. split; [revert Hc; now apply consistent_ext|exact H].
  - intros e x st [Hc H] Hx _.
    split; [now apply consistent_cleanup|now apply without_repetition_cleanup].
  - intros e x st [Hc H] _ _ _. split; [now apply consistent_enter|exact H].
  - intros st [Hc H]. split; [revert Hc; now apply consistent_ext|exact H].
  - intros e st [Hc [H1 H2]]. split; [now apply consistent_deactivate|].
    split; [|exact H2]. intros e' x' Hx'. unfold deactivate in Hx'.
    cbn in Hx'. rewrite list_lookup_alter in Hx'.
    destruct (decide (e = e')) as [->|Hne]; [|eauto].
    destruct (effHeap st !! e') as [x0|] eqn:Hx0; [|discriminate].
    injection Hx' as <-. simpl. eauto.
  - intros fn o st [Hc [H1 H2]]. split; [now apply consistent_create|].
    split; [|exact H2]. intros e x Hx. unfold createReactiveEffect in Hx.
    cbn in Hx. apply lookup_app_Some in Hx. destruct Hx as [Hx|[_ Hx]]; [eauto|].
    destruct (e - length (effHeap st)) as [|n]; [|now destruct n].
    injection Hx as <-. apply NoDup_nil_2.
  - intros t st [Hc H] Hn. split; [now apply consistent_new_map|exact H].
  - intros t m key st [Hc [H1 H2]] Hm Hk.
    split; [now apply consistent_new_dep|]. split; [exact H1|].
    intros d s Hs. cbn in Hs. apply lookup_app_Some in Hs.
    destruct Hs as [Hs|[_ Hs]]; [eauto|].
    destruct (d - length (depHeap st)) as [|n]; [|now destruct n].
    injection Hs as <-. apply NoDup_nil_2.
  - intros t key a x d st [Hc H] _ _ Hx Hof Hout.
    split; [now apply (consistent_link t key)|].
    now apply (without_repetition_link t key).
Qed.

(** X8. A subscription is recorded once in each direction: whatever user
    code runs, no [deps] array of an effect lists a dependency set twice
    and no dependency set lists an effect twice, so that one pass of
    cleanup over [deps] removes the effect from every set that has it. *)
Theorem subscriptions_recorded_once (fuel : nat) (p : prog) (st : state) :
  consistent st -> without_repetition st ->
  let st' := snd (exec fuel p st) in
  (forall e x, effHeap st' !! e = Some x -> NoDup (deps x)) /\
  (forall d s, depHeap st' !! d = Some s -> NoDup s).
Proof.
  intros Hc H. exact (proj2 (without_repetition_exec fuel p st (conj Hc H))).
Qed.

Lemma subscriptions_recorded_once_witness :
  consistent (init true [VNum 0]) /\
  without_repetition (init true [VNum 0]) /\
  (forall e x, effHeap branching_state !! e = Some x -> NoDup (deps x)).
Proof.
  assert (H : without_repetition (init true [VNum 0])).
  { split; cbn; intros; discriminate. }
  split; [apply consistent_init|]. split; [exact H|].
  apply (subscriptions_recorded_once 20 branching (init true [VNum 0])
           (consistent_init true [VNum 0]) H).
Defined.

(** ** What [trigger] collects and runs (lines 217-316) *)

Lemma forEach_noop {A} (f : A -> M unit) (l : list A) st :
  (forall a, a ∈ l -> f a st = (Normal tt, st)) ->
  forEach f l st = (Normal tt, st).
Proof.
  induction l as [|a r IH]; intros H; simpl; [reflexivity|].
  unfold bind. rewrite (H a) by left. apply IH.
  intros b Hb. apply H. now right.
Qed.

Lemma run_on_stack call t ty key nv ov ot e x st :
  effHeap st !! e = Some x -> active x = true -> e ∈ effectStack st ->
  scheduler (options x) = None ->
  dev st = false \/ onTrigger (options x) = None ->
  run call t ty key nv ov ot e st = (Normal tt, st).
Proof.
  intros Hx Ha Hin Hs Hd. rewrite (run_unfold _ _ _ _ _ _ _ _ _ _ Hx Hd), Hs.
  unfold bind. now rewrite (reactiveEffect_on_stack _ _ _ _ Hx Ha Hin).
Qed.

(** X9. A running effect is not entered again by [trigger], not even with
    [allowRecurse]: when every effect that a call of [trigger] collects is
    on the effect stack, active and without a scheduler (and no
    [onTrigger] hook is called), the call runs no computation and changes
    nothing.  [allowRecurse] lets the running effect into the collection,
    where only a scheduler can do something with it. *)
Theorem running_effect_not_reentered (call : prog -> M value) (t : target)
    (ty : TriggerOpTypes) (key nv ov : value) (ot : option target)
    (st : state) (m : KeyToDepMap) (effs : list eref) :
  targetMap st !! t = Some m ->
  collect st m t ty key nv = inr effs ->
  (forall e, e ∈ effs ->
     e ∈ effectStack st /\
     exists x, effHeap st !! e = Some x /\ active x = true /\
               scheduler (options x) = None /\
               (dev st = false \/ onTrigger (options x) = None)) ->
  trigger call t ty key nv ov ot st = (Normal tt, st).
Proof.
  intros Hm Hc H. unfold trigger. rewrite Hm, Hc.
  apply forEach_noop. intros e He.
  destruct (H e He) as (Hin & x & Hx & Ha & Hs & Hd).
  now apply (run_on_stack call t ty key nv ov ot e x).
Qed.

Lemma running_effect_not_reentered_witness :
  collect recursive_running [(VStr "a"%string, 0)] obj SET (VStr "a"%string)
    (VNum 1) = inr [0] /\
  trigger (exec 9) obj SET (VStr "a"%string) (VNum 1) (VNum 0) None
    recursive_running = (Normal tt, recursive_running).
Proof.
  assert (Hc : collect recursive_running [(VStr "a"%string, 0)] obj SET
                 (VStr "a"%string) (VNum 1) = inr [0])
    by (vm_compute; reflexivity).
  split; [exact Hc|].
  apply (running_effect_not_reentered (exec 9) obj SET (VStr "a"%string)
           (VNum 1) (VNum 0) None recursive_running
           [(VStr "a"%string, 0)] [0]);
    [vm_compute; reflexivity|exact Hc|].
  intros e He. apply list_elem_of_singleton in He. subst e. split.
  - unfold recursive_running.
    destruct (enter_context 0 (snd (exec 20 recursive_reader (init true [VNum 0]))))
      as (-> & _).
    apply elem_of_app. right. now apply list_elem_of_singleton.
  - exists recursive_effect. split; [vm_compute; reflexivity|].
    split; [reflexivity|]. split; [reflexivity|]. now right.
Defined.



(** X11. [trigger] does nothing for what nobody reads: for an object that
    was never tracked, whatever the operation, and for a [SET] of a key
    without a dependency set on an object that is no [Map] (the
    ['length'] of an array apart), no effect is collected, no
    computation runs and no state changes. *)
Theorem trigger_unread_is_noop (call : prog -> M value) (t : target)
    (ty : TriggerOpTypes) (key nv ov : value) (ot : option target)
    (st : state) :
  targetMap st !! t = None \/
  (dep_of st t key = None /\ ty = SET /\ isMap t = false /\
   (key = VStr "length"%string -> isArray t = false)) ->
  trigger call t ty key nv ov ot st = (Normal tt, st).
Proof.
  intros [Hn|(Hof & -> & Hmap & Hlen)]; unfold trigger.
  - now rewrite Hn.
  - unfold dep_of in Hof. destruct (targetMap st !! t) as [m|]; [|reflexivity].
    unfold collect. destruct (decide (SET = CLEAR)); [discriminate|].
    assert (Hb : bool_decide (key = VStr "length"%string) && isArray t = false).
    { destruct (bool_decide_reflect (key = VStr "length"%string)) as [Hk|Hk];
        [|reflexivity]. simpl. auto. }
    rewrite Hb, Hmap, Hof.
    destruct (bool_decide (key ≠ VUndef)); reflexivity.
Qed.

Lemma trigger_unread_is_noop_witness :
  dep_of two_readers_state obj (VStr "c"%string) = None /\
  trigger (exec 9) obj SET (VStr "c"%string) (VNum 1) (VNum 0) None
    two_readers_state = (Normal tt, two_readers_state).
Proof.
  assert (H : dep_of two_readers_state obj (VStr "c"%string) = None)
    by (vm_compute; reflexivity).
  split; [exact H|].
  apply (trigger_unread_is_noop (exec 9) obj SET (VStr "c"%string) (VNum 1)
           (VNum 0) None two_readers_state).
  right. split; [exact H|]. split; [reflexivity|]. split; [reflexivity|].
  intros Hk. discriminate Hk.
Defined.



(** ** Where an error can come from *)

Lemma quiet_silent : forall p : prog, quiet ((fun _ => ret VUndef) p : M value).
Proof. intros p. apply quiet_ret. Qed.

(** X13. For keys and new values that are [undefined], integers, strings
    or symbols, [trigger] raises an error of its own in one place only.
    When no user code it calls throws and [trigger] throws, then the
    operation is not [CLEAR], the key is ['length'], the object is an
    array that has a dependency set under a key other than ['length'],
    the error is the one of the comparison [key >= newValue] of that key
    with the new value, and among such operands that key or the new value
    is a symbol; the error is raised before anything has been run or
    changed. *)
Theorem trigger_own_error (call : prog -> M value) (t : target)
    (ty : TriggerOpTypes) (key nv ov : value) (ot : option target)
    (st st' : state) (x : exn) :
  (forall p, quiet (call p)) ->
  trigger call t ty key nv ov ot st = (Thrown x, st') ->
  st' = st /\ ty ≠ CLEAR /\ key = VStr "length"%string /\ isArray t = true /\
  exists m k d,
    targetMap st !! t = Some m /\ (k, d) ∈ m /\ k ≠ VStr "length"%string /\
    js_ge k nv = inl x /\
    ((exists n, k = VSym n) \/ (exists n, nv = VSym n)).
Proof.
  intros Hq. unfold trigger.
  destruct (targetMap st !! t) as [m|] eqn:Hm; [|discriminate].
  destruct (collect st m t ty key nv) as [y|effs] eqn:Hc.
  - intros [= -> <-].
    destruct (collect_throws _ _ _ _ _ _ _ Hc) as (H1 & H2 & H3 & _).
    split; [reflexivity|]. split; [exact H1|]. split; [exact H2|].
    split; [exact H3|].
    rewrite collect_matched in Hc. unfold matched_sets in Hc.
    destruct (decide (ty = CLEAR)); [contradiction|].
    rewrite H2, H3, bool_decide_eq_true_2 in Hc by reflexivity.
    simpl in Hc.
    destruct (matched_length m nv) as [z|l] eqn:Hml; [|discriminate].
    injection Hc as ->.
    destruct (matched_length_throws m nv x Hml) as (k & d & Hin & Hne & Hge).
    exists m, k, d. split; [reflexivity|]. split; [exact Hin|].
    split; [exact Hne|]. split; [exact Hge|].
    now apply (js_ge_throws k nv x).
  - intros H. exfalso.
    apply (quiet_forEach (run call t ty key nv ov ot) effs
             (fun e => quiet_run call Hq t ty key nv ov ot e) st x).
    now rewrite H.
Qed.

Lemma trigger_own_error_witness :
  trigger (fun _ => ret VUndef) arr SET (VStr "length"%string) (VNum 2)
    (VNum 6) None array_readers_state
  = (Thrown (TypeError "Cannot convert a Symbol value to a number"%string),
     array_readers_state) /\
  isArray arr = true.
Proof.
  assert (H : trigger (fun _ => ret VUndef) arr SET (VStr "length"%string)
                (VNum 2) (VNum 6) None array_readers_state
              = (Thrown (TypeError
                   "Cannot convert a Symbol value to a number"%string),
                 array_readers_state))
    by (vm_compute; reflexivity).
  split; [exact H|].
  apply (trigger_own_error (fun _ => ret VUndef) arr SET
           (VStr "length"%string) (VNum 2) (VNum 6) None array_readers_state
           array_readers_state _ quiet_silent H).
Defined.

(** X14. [track], [stop], [effect] and the call of an effect raise no
    error of their own, and neither does [trigger] off the ['length'] of
    an array: an error comes out of them only when user code that they
    call (a computation, a scheduler, a hook) throws. *)
Theorem operations_raise_no_error (call : prog -> M value) :
  (forall p, quiet (call p)) ->
  (forall t ty key, quiet (track call t ty key)) /\
  (forall e, quiet (stop call e)) /\
  (forall e, quiet (reactiveEffect call e)) /\
  (forall fn o, quiet (effect call fn o)) /\
  (forall t ty key nv ov ot,
     ty = CLEAR \/ key ≠ VStr "length"%string \/ isArray t = false ->
     quiet (trigger call t ty key nv ov ot)).
Proof.
  intros Hq. split; [intros; now apply quiet_track|].
  split; [intros; now apply quiet_stop|].
  split; [intros; now apply quiet_reactiveEffect|].
  split; [intros; now apply quiet_effect|].
  intros t ty key nv ov ot H st x Hx.
  destruct (trigger_throws call Hq t ty key nv ov ot st x Hx) as (m & _ & Hc).
  destruct (collect_throws _ _ _ _ _ _ _ Hc) as (H1 & H2 & H3 & _).
  destruct H as [H|[H|H]]; congruence.
Qed.

Lemma operations_raise_no_error_witness :
  quiet (stop (fun _ => ret VUndef) 0) /\
  quiet (reactiveEffect (fun _ => ret VUndef) 0).
Proof.
  destruct (operations_raise_no_error (fun _ => ret VUndef) quiet_silent)
    as (_ & H1 & H2 & _).
  split; [apply H1|apply H2].
Defined.

(** ** What an operation leaves alone *)

(** X16. [cleanup] of an effect concerns that effect alone: every other
    effect keeps its object and its memberships, the registry of
    (object, key) pairs and the tracking context are as before, and of the
    effect itself only [deps] changes, to the empty array. *)
Theorem cleanup_concerns_one_effect (e : eref) (x : ReactiveEffect)
    (st : state) :
  effHeap st !! e = Some x ->
  let st' := cleanup_state e x st in
  cleanup e st = (Normal tt, st') /\
  others_untouched e st st' /\ same_context st st' /\
  targetMap st' = targetMap st /\
  length (depHeap st') = length (depHeap st) /\
  effHeap st' !! e = Some (with_deps [] x).
Proof.
  intros Hx st'. split; [now apply cleanup_unfold|].
  split; [apply cleanup_state_others|].
  destruct (cleanup_state_context e x st)
    as (H1 & H2 & H3 & H4 & H5 & H6 & _).
  split; [repeat split; assumption|]. split; [exact H1|].
  split; [apply cleanup_state_depHeap_length|].
  now apply cleanup_state_effHeap_self.
Qed.

Lemma cleanup_concerns_one_effect_witness :
  effHeap two_readers_state !! 0 = Some first_reader /\
  others_untouched 0 two_readers_state
    (cleanup_state 0 first_reader two_readers_state).
Proof.
  assert (H : effHeap two_readers_state !! 0 = Some first_reader)
    by (vm_compute; reflexivity).
  split; [exact H|].
  apply (cleanup_concerns_one_effect 0 first_reader two_readers_state H).
Defined.

(** X17. A tracked read subscribes the active effect and nobody else:
    when no [onTrack] hook is called, [track] returns normally, the
    active effect is afterwards a member of the set of the pair, every
    other effect keeps its object and its memberships, no effect is
    created, and the effect stack, the active effect, the tracking switch
    and the application state are as before. *)
Theorem track_concerns_active_effect (call : prog -> M value) (e : eref)
    (t : target) (ty : TrackOpTypes) (key : value) (st : state)
    (x : ReactiveEffect) :
  consistent st -> shouldTrack st = true -> activeEffect st = Some e ->
  effHeap st !! e = Some x ->
  dev st = false \/ onTrack (options x) = None ->
  exists st' d,
    track call t ty key st = (Normal tt, st') /\
    dep_of st' t key = Some d /\ e ∈ dep_members st' d /\
    others_untouched e st st' /\ same_context st st' /\
    length (effHeap st') = length (effHeap st) /\ uid st' = uid st.
Proof.
  intros Hc Hs Ha Hx Hcb.
  destruct (track_frame call e t ty key st x Hc Hs Ha Hx Hcb)
    as (st' & Htr & Hoth & Hctx & Hlen & Huid).
  destruct (track_reads call e t ty key st x Hc Hs Ha Hx Hcb)
    as (s1 & _ & d & Htr1 & _ & _ & _ & _ & _ & _ & _ & Hof & _ & Hmem).
  rewrite Htr in Htr1. injection Htr1 as <-.
  exists st', d. split; [exact Htr|]. split; [exact Hof|].
  split; [apply Hmem; now left|]. auto.
Qed.

Lemma track_concerns_active_effect_witness :
  exists st',
    track (exec 9) obj GET (VStr "c"%string) first_reader_running
    = (Normal tt, st') /\
    others_untouched 0 first_reader_running st'.
Proof.
  destruct (track_concerns_active_effect (exec 9) 0 obj GET (VStr "c"%string)
              first_reader_running first_reader)
    as (st' & d & H1 & _ & _ & H2 & _).
  - apply consistent_enter, consistent_exec, consistent_init.
  - exact (proj1 (proj2 (proj2 (proj2 (enter_context 0 two_readers_state))))).
  - exact (proj1 (proj2 (enter_context 0 two_readers_state))).
  - vm_compute. reflexivity.
  - now right.
  - exists st'. auto.
Defined.

(** ** A run of an effect that only reads *)

Lemma reading_run e x st f g fuel :
  effHeap st !! e = Some x -> active x = true -> e ∉ effectStack st ->
  consistent st ->
  raw x = Get (fun w => reading (f w) (g w)) ->
  dev st = false \/ onTrack (options x) = None ->
  length (f (user st)) + 1 < fuel ->
  exists st',
    reactiveEffect (exec fuel) e st = (Normal (g (user st)), st') /\
    consistent st' /\ others_untouched e st st' /\
    effectStack st' = effectStack st /\
    activeEffect st' = last (effectStack st) /\
    trackStack st' = trackStack st /\ shouldTrack st' = shouldTrack st /\
    user st' = user st /\
    length (effHeap st') = length (effHeap st) /\
    (forall t k d, dep_of st t k = Some d -> dep_of st' t k = Some d) /\
    (forall t ty key, (t, ty, key) ∈ f (user st) ->
       exists d, dep_of st' t key = Some d) /\
    (forall d,
       e ∈ dep_members st' d
       <-> exists t ty key,
             (t, ty, key) ∈ f (user st) /\ dep_of st' t key = Some d).
Proof.
  intros Hx Ha Hk Hc Hraw Hcb Hf.
  set (st1 := cleanup_state e x st).
  assert (Hun : forall d, e ∉ dep_members st1 d)
    by (intros d; now apply cleanup_state_unsubscribed_all).
  rewrite (reactiveEffect_run _ _ _ _ Hx Ha Hk). fold st1.
  unfold try_finally. rewrite Hraw.
  destruct fuel as [|n]; [lia|]. simpl.
  destruct (cleanup_state_context e x st)
    as (Htm & Hes & Hae & Hsh & Hts & Hu & Hdev & _).
  fold st1 in Htm, Hes, Hae, Hsh, Hts, Hu, Hdev. rewrite Hu.
  assert (Hc0 : consistent (enter e st1)).
  { apply (consistent_ext st1); try reflexivity.
    now apply consistent_cleanup. }
  assert (Hx0 : effHeap (enter e st1) !! e = Some (with_deps [] x))
    by (now apply (cleanup_state_effHeap_self e x st)).
  assert (Hcb0 : dev (enter e st1) = false
                 \/ onTrack (options (with_deps [] x)) = None).
  { change (dev (enter e st1)) with (dev st1). rewrite Hdev. exact Hcb. }
  destruct (reading_exec e (f (user st)) (g (user st)) n (enter e st1)
              (with_deps [] x) ltac:(lia) Hc0 eq_refl eq_refl Hx0 Hcb0)
    as (s' & Hex & _ & Hmem).
  destruct (reading_exec_frame e (f (user st)) (g (user st)) n (enter e st1)
              (with_deps [] x) ltac:(lia) Hc0 eq_refl eq_refl Hx0 Hcb0)
    as (s'' & Hex' & Hc' & Hoth & (K1 & K2 & K3 & K4 & K5) & Hlen & _
        & Hmono & Hreg).
  rewrite Hex in Hex'. injection Hex' as <-.
  rewrite Hex. exists (leave s'). split; [reflexivity|].
  destruct (leave_context s') as (L1 & L2 & L3 & L4 & L5 & L6 & L7 & L8).
  destruct (enter_context e st1) as (E1 & E2 & E3 & E4 & E5 & E6 & E7 & E8).
  split; [now apply (consistent_ext s')|].
  split.
  { apply (others_untouched_trans e st st1); [apply cleanup_state_others|].
    apply (others_untouched_trans e st1 (enter e st1)).
    { apply others_untouched_ext; [exact E7|].
      intros d. unfold dep_members. now rewrite E6. }
    apply (others_untouched_trans e (enter e st1) s'); [exact Hoth|].
    apply others_untouched_ext; [exact L7|].
    intros d. unfold dep_members. now rewrite L6. }
  split; [now rewrite L1, K1, E1, removelast_last, Hes|].
  split; [now rewrite L2, K1, E1, removelast_last, Hes|].
  split; [now rewrite L3, K3, E3, removelast_last, Hts|].
  split; [now rewrite L4, K3, E3, last_snoc, Hsh|].
  split; [now rewrite L8, K5, E8, Hu|].
  split; [rewrite L7, Hlen, E7; apply cleanup_state_effHeap_length|].
  assert (Hdl : forall t k, dep_of (leave s') t k = dep_of s' t k)
    by (intros t k; now apply dep_of_ext).
  split.
  { intros t k d Hd. rewrite Hdl. apply Hmono.
    rewrite (dep_of_ext st1 (enter e st1)) by exact E5.
    now rewrite (dep_of_ext st st1) by exact Htm. }
  split.
  { intros t ty key Hin. rewrite Hdl. now apply (Hreg t ty key). }
  intros d. change (dep_members (leave s') d) with (dep_members s' d).
  rewrite Hmem. split.
  - intros [H|(t & ty & key & Hin & H)]; [exfalso; now apply (Hun d)|].
    exists t, ty, key. now rewrite Hdl.
  - intros (t & ty & key & Hin & H). right. exists t, ty, key.
    now rewrite <- Hdl.
Qed.

(** X18. A run of an effect whose computation only reads is a private
    matter of that effect when no [onTrack] hook is called (a production
    build, or options without [onTrack]): it returns the value of the
    computation, every other effect keeps its object and its memberships,
    and the effect stack, the tracking switch with its stack and the
    application state are afterwards what they were before the call. *)
Theorem reading_run_concerns_one_effect (e : eref) (x : ReactiveEffect)
    (st : state) (f : world -> list (target * TrackOpTypes * value))
    (g : world -> value) (fuel : nat) :
  effHeap st !! e = Some x -> active x = true -> e ∉ effectStack st ->
  consistent st ->
  raw x = Get (fun w => reading (f w) (g w)) ->
  dev st = false \/ onTrack (options x) = None ->
  length (f (user st)) + 1 < fuel ->
  exists st',
    reactiveEffect (exec fuel) e st = (Normal (g (user st)), st') /\
    others_untouched e st st' /\
    effectStack st' = effectStack st /\
    trackStack st' = trackStack st /\ shouldTrack st' = shouldTrack st /\
    user st' = user st /\
    length (effHeap st') = length (effHeap st).
Proof.
  intros Hx Ha Hk Hc Hraw Hcb Hf.
  destruct (reading_run e x st f g fuel Hx Ha Hk Hc Hraw Hcb Hf)
    as (st' & H1 & _ & H2 & H3 & _ & H4 & H5 & H6 & H7 & _).
  exists st'. auto 10.
Qed.

Lemma reading_run_concerns_one_effect_witness :
  exists st',
    reactiveEffect (exec 9) 2 choosing_state = (Normal VUndef, st') /\
    others_untouched 2 choosing_state st'.
Proof.
  destruct (reading_run_concerns_one_effect 2 choosing_effect choosing_state
              chosen_reads (fun _ => VUndef) 9)
    as (st' & H1 & H2 & _).
  - vm_compute. reflexivity.
  - reflexivity.
  - vm_compute. apply not_elem_of_nil.
  - apply consistent_create, consistent_exec, consistent_init.
  - reflexivity.
  - now right.
  - vm_compute. lia.
  - exists st'. auto.
Defined.



(** ** Creation of an effect (lines 72-84 and 100-130) *)




(** ** The entry point of the template compiler (compile.ts) *)

(** X20. In every build and for every argument, the node transforms of
    the base preset start with once, if, for and end with slot outlet,
    element, slot scopes, text, without repetition and with no function
    of the caller.  The expression transform is among them exactly in a
    non-browser build with [prefixIdentifiers] and in a browser
    development build; [trackVForSlotScopes] exactly in the first case,
    and then it comes right before the expression transform.  The
    directive transforms are those of [on], [bind] and [model] in every
    build. *)
Theorem base_preset_shape (browser dev : bool) (pi : option bool) :
  let l := fst (Compile.getBaseTransformPreset browser dev pi) in
  let m := snd (Compile.getBaseTransformPreset browser dev pi) in
  NoDup l /\
  (exists mid,
     l = [Compile.transformOnce; Compile.transformIf; Compile.transformFor]
         ++ mid ++
         [Compile.transformSlotOutlet; Compile.transformElement;
          Compile.trackSlotScopes; Compile.transformText]) /\
  (forall n, Compile.otherNodeTransform n ∉ l) /\
  (Compile.transformExpression ∈ l <->
   (browser = false /\ pi = Some true) \/ (browser = true /\ dev = true)) /\
  (Compile.trackVForSlotScopes ∈ l <-> browser = false /\ pi = Some true) /\
  (Compile.trackVForSlotScopes ∈ l ->
   exists l1 l2,
     l = l1 ++ Compile.trackVForSlotScopes :: Compile.transformExpression
               :: l2) /\
  m !! "on"%string = Some Compile.transformOn /\
  m !! "bind"%string = Some Compile.transformBind /\
  m !! "model"%string = Some Compile.transformModel /\
  (forall k, is_Some (m !! k) ->
     k = "on"%string \/ k = "bind"%string \/ k = "model"%string).
Proof.
  intros l m.
  assert (Hm : forall k, is_Some (m !! k) ->
                 k = "on"%string \/ k = "bind"%string \/ k = "model"%string).
  { intros k [v Hv]. subst m. simpl in Hv.
    apply lookup_insert_Some in Hv. destruct Hv as [[-> _]|[_ Hv]]; [auto|].
    apply lookup_insert_Some in Hv. destruct Hv as [[-> _]|[_ Hv]]; [auto|].
    apply lookup_singleton_Some in Hv. destruct Hv as [-> _]. auto. }
  assert (Hl : l = [Compile.transformOnce; Compile.transformIf;
                    Compile.transformFor] ++
                   (if negb browser && Compile.truthy pi then
                      [Compile.trackVForSlotScopes; Compile.transformExpression]
                    else if browser && dev then [Compile.transformExpression]
                    else []) ++
                   [Compile.transformSlotOutlet; Compile.transformElement;
                    Compile.trackSlotScopes; Compile.transformText])
    by reflexivity.
  assert (H1 : m !! "on"%string = Some Compile.transformOn)
    by (subst m; vm_compute; reflexivity).
  assert (H2 : m !! "bind"%string = Some Compile.transformBind)
    by (subst m; vm_compute; reflexivity).
  assert (H3 : m !! "model"%string = Some Compile.transformModel)
    by (subst m; vm_compute; reflexivity).
  clearbody l m.
  split.
  { subst l. destruct browser, dev, pi as [[|]|]; simpl;
      apply (bool_decide_unpack _); vm_compute; exact I. }
  split; [subst l; eexists; reflexivity|].
  split.
  { intros n. subst l. destruct browser, dev, pi as [[|]|]; simpl;
      rewrite ?not_elem_of_cons; repeat split; try discriminate;
      apply not_elem_of_nil. }
  split.
  { subst l. destruct browser, dev, pi as [[|]|]; simpl;
      rewrite ?elem_of_cons, elem_of_nil;
      intuition (try discriminate; try congruence; auto). }
  split.
  { subst l. destruct browser, dev, pi as [[|]|]; simpl;
      rewrite ?elem_of_cons, elem_of_nil;
      intuition (try discriminate; try congruence; auto). }
  split.
  { subst l. destruct browser, dev, pi as [[|]|]; simpl;
      rewrite ?elem_of_cons, elem_of_nil;
      try (intros H; exfalso;
           intuition (try discriminate; try congruence; auto); fail);
      intros _;
      exists [Compile.transformOnce; Compile.transformIf; Compile.transformFor];
      eexists; reflexivity. }
  auto.
Qed.

Lemma sublist_of_four {A} (a b c d : A) (ba bb bc bd : bool) :
  sublist ((if ba then [a] else []) ++ (if bb then [b] else []) ++
           (if bc then [c] else []) ++ (if bd then [d] else []))
    [a; b; c; d].
Proof.
  destruct ba, bb, bc, bd; simpl;
    repeat first [apply sublist_nil | apply sublist_skip; solve
      [repeat first [apply sublist_nil | apply sublist_skip
                    | apply sublist_cons]]
      | apply sublist_cons | apply sublist_skip].
Qed.

Lemma reports_baseCompile browser dev template o :
  Compile.reports (Compile.baseCompile browser dev template o)
  = map (pair (default Compile.defaultOnError (Compile.onError o)))
      ((if browser
           && bool_decide (Compile.prefixIdentifiers o = Some true)
        then [Compile.X_PREFIX_ID_NOT_SUPPORTED] else []) ++
       (if browser
           && negb (bool_decide (Compile.prefixIdentifiers o = Some true))
           && bool_decide (Compile.mode o = Some "module"%string)
        then [Compile.X_MODULE_MODE_NOT_SUPPORTED] else []) ++
       (if (browser
            || negb (bool_decide (Compile.prefixIdentifiers o = Some true))
               && negb (bool_decide (Compile.mode o = Some "module"%string)))
           && Compile.truthy (Compile.cacheHandlers o)
        then [Compile.X_CACHE_HANDLER_NOT_SUPPORTED] else []) ++
       (if Compile.truthy_string (Compile.scopeId o)
           && negb (bool_decide (Compile.mode o = Some "module"%string))
        then [Compile.X_SCOPE_ID_NOT_SUPPORTED] else [])).
Proof.
  unfold Compile.baseCompile.
  destruct (bool_decide (Compile.prefixIdentifiers o = Some true)),
    (bool_decide (Compile.mode o = Some "module"%string)),
    (Compile.truthy (Compile.cacheHandlers o)),
    (Compile.truthy_string (Compile.scopeId o)),
    browser, template; reflexivity.
Qed.

Lemma truthy_spec b : Compile.truthy b = true <-> b = Some true.
Proof. destruct b as [[|]|]; simpl; split; congruence. Qed.

Lemma truthy_string_spec s :
  Compile.truthy_string s = true <-> exists x, s = Some x /\ x ≠ EmptyString.
Proof.
  destruct s as [x|]; simpl.
  - rewrite negb_true_iff, String.eqb_neq. split.
    + intros H. eauto.
    + intros (y & [= <-] & H). exact H.
  - split; [discriminate|]. intros (y & H & _). discriminate.
Qed.

Lemma reports_made_until_throw {A} (throws : list Compile.ErrorCodes ->
                                            Compile.ErrorCodes -> bool)
    (h : Compile.ErrorHandler) (m : Compile.compiling A) :
  forall past codes,
    Compile.reports m = map (pair h) codes ->
    Compile.reports_made throws past m
    = map (pair h) (Compile.until_throw throws past codes).
Proof.
  induction m as [a|h' c k IH|s o' k _|r o' k _|r o' k _];
    intros past codes Hr; simpl in *;
    try (destruct codes; [reflexivity|discriminate]).
  destruct codes as [|c' rest]; [discriminate|].
  simpl in Hr. injection Hr as -> -> Hr. simpl.
  destruct (throws past c'); [reflexivity|].
  now rewrite (IH (past ++ [c']) rest Hr).
Qed.

Lemma reaches_template_spec {A} (throws : list Compile.ErrorCodes ->
                                          Compile.ErrorCodes -> bool)
    (h : Compile.ErrorHandler) (m : Compile.compiling A) :
  forall past0 codes,
    Compile.reports m = map (pair h) codes ->
    (Compile.reaches_template throws past0 m = true
     <-> forall past c rest,
           codes = past ++ c :: rest -> throws (past0 ++ past) c = false).
Proof.
  induction m as [a|h' c k IH|s o' k _|r o' k _|r o' k _];
    intros past0 codes Hr; simpl in *;
    try (destruct codes; [|discriminate]; split; [|reflexivity];
         intros _ past c rest H; now destruct past).
  destruct codes as [|c' rest]; [discriminate|].
  simpl in Hr. injection Hr as -> -> Hr.
  rewrite andb_true_iff, negb_true_iff, (IH (past0 ++ [c']) rest Hr).
  split.
  - intros [H1 H2] past c r Heq. destruct past as [|c0 past]; simpl in Heq.
    + injection Heq as <- _. now rewrite app_nil_r.
    + injection Heq as <- Heq. specialize (H2 past c r Heq).
      now rewrite <- app_assoc in H2.
  - intros H. split.
    + specialize (H [] c' rest eq_refl). now rewrite app_nil_r in H.
    + intros past c r Heq. rewrite <- app_assoc. simpl.
      apply (H (c' :: past) c r). simpl. now rewrite Heq.
Qed.

(** X21. The option checks of [baseCompile].  Before it looks at the
    template, [baseCompile] makes up to four checks, in this order: that
    [prefixIdentifiers] is not supported (it fails in a browser build with
    [options.prefixIdentifiers === true]); otherwise that module mode is
    not supported (a browser build with [mode] ['module']); that
    [cacheHandlers] is not supported (the option is set, in a browser
    build or with neither [prefixIdentifiers] nor module mode); that
    [scopeId] is not supported (a non-empty [scopeId] outside module
    mode).  A check that fails is reported to [options.onError], or to
    [defaultOnError] when there is none.  When the callback returns,
    [baseCompile] goes on with the next check; when it throws,
    [baseCompile] ends there.  So the reports made are those of the
    failing checks up to and including the first whose report throws,
    and the template is looked at exactly when no report throws. *)
Theorem baseCompile_reports (browser dev : bool)
    (template : string + Compile.RootNode) (o : Compile.CompilerOptions) :
  exists codes,
    sublist codes
      [Compile.X_PREFIX_ID_NOT_SUPPORTED; Compile.X_MODULE_MODE_NOT_SUPPORTED;
       Compile.X_CACHE_HANDLER_NOT_SUPPORTED;
       Compile.X_SCOPE_ID_NOT_SUPPORTED] /\
    (Compile.X_PREFIX_ID_NOT_SUPPORTED ∈ codes <->
     browser = true /\ Compile.prefixIdentifiers o = Some true) /\
    (Compile.X_MODULE_MODE_NOT_SUPPORTED ∈ codes <->
     browser = true /\ Compile.prefixIdentifiers o ≠ Some true /\
     Compile.mode o = Some "module"%string) /\
    (Compile.X_CACHE_HANDLER_NOT_SUPPORTED ∈ codes <->
     Compile.cacheHandlers o = Some true /\
     (browser = true \/
      (Compile.prefixIdentifiers o ≠ Some true /\
       Compile.mode o ≠ Some "module"%string))) /\
    (Compile.X_SCOPE_ID_NOT_SUPPORTED ∈ codes <->
     (exists s, Compile.scopeId o = Some s /\ s ≠ EmptyString) /\
     Compile.mode o ≠ Some "module"%string) /\
    (forall throws,
       Compile.reports_made throws []
         (Compile.baseCompile browser dev template o)
       = map (pair (default Compile.defaultOnError (Compile.onError o)))
           (Compile.until_throw throws [] codes)) /\
    (forall throws,
       Compile.reaches_template throws []
         (Compile.baseCompile browser dev template o) = true
       <-> forall past c rest,
             codes = past ++ c :: rest -> throws past c = false).
Proof.
  eexists. split; [apply sublist_of_four|].
  pose proof (truthy_spec (Compile.cacheHandlers o)) as HC.
  pose proof (truthy_string_spec (Compile.scopeId o)) as HS.
  pose proof (bool_decide_spec (Compile.prefixIdentifiers o = Some true)) as HP.
  pose proof (bool_decide_spec (Compile.mode o = Some "module"%string)) as HM.
  unfold Is_true in HP, HM.
  pose proof (reports_baseCompile browser dev template o) as Hr.
  split; [|split; [|split; [|split; [|split]]]].
  5: { intros throws. apply reports_made_until_throw. exact Hr. }
  5: { intros throws.
       apply (reaches_template_spec throws _ _ [] _ Hr). }
  all: destruct (bool_decide (Compile.prefixIdentifiers o = Some true)),
    (bool_decide (Compile.mode o = Some "module"%string)),
    (Compile.truthy (Compile.cacheHandlers o)),
    (Compile.truthy_string (Compile.scopeId o)), browser; simpl;
    rewrite ?elem_of_cons, ?elem_of_nil;
    intuition (try discriminate; try congruence; auto).
Qed.

(** X22. What the compiler pipeline receives.  Once the option checks
    are done, [baseCompile] parses the template with the caller's options
    when it is a string and takes it as the AST otherwise, then calls
    [transform] and [generate] once each on that same AST and returns
    what [generate] returns.  Both get the caller's options with
    [prefixIdentifiers] replaced by the computed flag, which is false in
    every browser build and otherwise true exactly with
    [options.prefixIdentifiers === true] or module mode.  [transform]
    gets the preset's node transforms followed by the caller's, and for
    every directive name the caller's transform when there is one and
    the preset's otherwise; [generate] gets the caller's own. *)
Theorem baseCompile_pipeline (browser dev : bool)
    (template : string + Compile.RootNode) (o : Compile.CompilerOptions) :
  let pi := negb browser
            && (bool_decide (Compile.prefixIdentifiers o = Some true)
                || bool_decide (Compile.mode o = Some "module"%string)) in
  let preset := Compile.getBaseTransformPreset browser dev (Some pi) in
  exists o1 o2 m1,
    Compile.after_reports (Compile.baseCompile browser dev template o)
    = match template with
      | inl s =>
          Compile.BaseParse s o
            (fun ast =>
               Compile.Transform ast o1
                 (Compile.Generate ast o2 Compile.Return))
      | inr ast =>
          Compile.Transform ast o1 (Compile.Generate ast o2 Compile.Return)
      end /\
    (browser = true -> pi = false) /\
    Compile.prefixIdentifiers o1 = Some pi /\
    Compile.prefixIdentifiers o2 = Some pi /\
    Compile.nodeTransforms o1
    = Some (fst preset ++ default [] (Compile.nodeTransforms o)) /\
    Compile.directiveTransforms o1 = Some m1 /\
    (forall k,
       m1 !! k
       = match default ∅ (Compile.directiveTransforms o) !! k with
         | Some d => Some d
         | None => snd preset !! k
         end) /\
    Compile.nodeTransforms o2 = Compile.nodeTransforms o /\
    Compile.directiveTransforms o2 = Compile.directiveTransforms o /\
    (Compile.onError o1, Compile.mode o1, Compile.cacheHandlers o1,
     Compile.scopeId o1, Compile.others o1)
    = (Compile.onError o, Compile.mode o, Compile.cacheHandlers o,
       Compile.scopeId o, Compile.others o) /\
    (Compile.onError o2, Compile.mode o2, Compile.cacheHandlers o2,
     Compile.scopeId o2, Compile.others o2)
    = (Compile.onError o, Compile.mode o, Compile.cacheHandlers o,
       Compile.scopeId o, Compile.others o).
Proof.
  intros pi preset.
  exists {| Compile.onError := Compile.onError o;
            Compile.mode := Compile.mode o;
            Compile.prefixIdentifiers := Some pi;
            Compile.cacheHandlers := Compile.cacheHandlers o;
            Compile.scopeId := Compile.scopeId o;
            Compile.nodeTransforms :=
              Some (fst preset ++ default [] (Compile.nodeTransforms o));
            Compile.directiveTransforms :=
              Some (Compile.extend (snd preset)
                      (default ∅ (Compile.directiveTransforms o)));
            Compile.others := Compile.others o |},
         {| Compile.onError := Compile.onError o;
            Compile.mode := Compile.mode o;
            Compile.prefixIdentifiers := Some pi;
            Compile.cacheHandlers := Compile.cacheHandlers o;
            Compile.scopeId := Compile.scopeId o;
            Compile.nodeTransforms := Compile.nodeTransforms o;
            Compile.directiveTransforms := Compile.directiveTransforms o;
            Compile.others := Compile.others o |},
         (Compile.extend (snd preset)
            (default ∅ (Compile.directiveTransforms o))).
  split.
  { unfold Compile.baseCompile. subst preset pi.
    destruct (bool_decide (Compile.prefixIdentifiers o = Some true)),
      (bool_decide (Compile.mode o = Some "module"%string)),
      (Compile.truthy (Compile.cacheHandlers o)),
      (Compile.truthy_string (Compile.scopeId o)),
      browser, template; reflexivity. }
  split; [intros ->; reflexivity|].
  split; [reflexivity|]. split; [reflexivity|]. split; [reflexivity|].
  split; [reflexivity|]. split.
  { intros k. unfold Compile.extend. rewrite lookup_union.
    destruct (default ∅ (Compile.directiveTransforms o) !! k) as [d|];
      simpl; [|now rewrite (left_id None _)].
    now destruct (_ !! k). }
  repeat split.
Qed.

(** ** Shape flags *)

Lemma shapeFlag_of_land l f :
  Z.land (shapeFlag_of l) (ShapeFlags_value f) ≠ 0%Z
  <-> exists g, g ∈ l /\
        Z.land (ShapeFlags_value g) (ShapeFlags_value f) ≠ 0%Z.
Proof.
  induction l as [|a r IH]; simpl.
  - split; [intros H; now destruct H|]. intros (g & H & _). inversion H.
  - rewrite Z.land_lor_distr_l.
    assert (Hor : forall x y : Z, Z.lor x y ≠ 0%Z <-> x ≠ 0%Z \/ y ≠ 0%Z).
    { intros x y. rewrite Z.lor_eq_0_iff.
      destruct (decide (x = 0%Z)), (decide (y = 0%Z)); tauto. }
    rewrite Hor, IH. split.
    + intros [H|(g & Hg & H)]; [exists a|exists g]; split; auto.
      * left.
      * now right.
    + intros (g & Hg & H). apply elem_of_cons in Hg.
      destruct Hg as [->|Hg]; [now left|right; eauto].
Qed.

(** X23. Shape flags can be joined and told apart.  In a word made by
    joining members of [ShapeFlags] other than [COMPONENT] with [|], the
    test [word & flag] succeeds for such a member exactly when it was
    joined in, and the test [word & ShapeFlags.COMPONENT] succeeds
    exactly when the stateful or the functional component flag was. *)
Theorem shape_flags_tell_apart (l : list ShapeFlags) :
  COMPONENT ∉ l ->
  (forall f, f ≠ COMPONENT -> (has_flag (shapeFlag_of l) f = true <-> f ∈ l)) /\
  (has_flag (shapeFlag_of l) COMPONENT = true
   <-> STATEFUL_COMPONENT ∈ l \/ FUNCTIONAL_COMPONENT ∈ l).
Proof.
  intros Hl.
  assert (Hf : forall f, has_flag (shapeFlag_of l) f = true
                 <-> exists g, g ∈ l /\
                       Z.land (ShapeFlags_value g) (ShapeFlags_value f) ≠ 0%Z).
  { intros f. unfold has_flag. rewrite negb_true_iff, Z.eqb_neq.
    apply shapeFlag_of_land. }
  split.
  - intros f Hne. rewrite Hf. split.
    + intros (g & Hg & H). assert (g = f); [|now subst].
      destruct g, f; try reflexivity; try contradiction;
        exfalso; apply H; reflexivity.
    + intros H. exists f. split; [exact H|]. destruct f; discriminate.
  - rewrite Hf. split.
    + intros (g & Hg & H).
      destruct g; try (exfalso; apply H; reflexivity); try contradiction; auto.
    + intros [H|H]; eexists; (split; [exact H|discriminate]).
Qed.

Lemma shape_flags_tell_apart_witness :
  has_flag (shapeFlag_of [ELEMENT; ARRAY_CHILDREN]) ARRAY_CHILDREN = true.
Proof.
  assert (H : COMPONENT ∉ [ELEMENT; ARRAY_CHILDREN]).
  { intros H. repeat (apply elem_of_cons in H; destruct H as [H|H];
                      [discriminate|]). inversion H. }
  apply (proj1 (shape_flags_tell_apart [ELEMENT; ARRAY_CHILDREN] H));
    [discriminate|]. right. left.
Defined.

(** ** Debug hooks and the build (lines 185-209 and 296-306) *)

Lemma dev_exec fuel p st : dev (snd (exec fuel p st)) = dev st.
Proof.
  revert p st.
  assert (H : forall b fuel p st, dev st = b -> dev (snd (exec fuel p st)) = b).
  { intros b. apply (keeps_exec (fun st => dev st = b)).
    - intros w st H. exact H.
    - intros st H. exact H.
    - intros st H. exact H.
    - intros st H. exact H.
    - intros e x st H _ _. rewrite <- H.
      now destruct (cleanup_state_context e x st)
        as (_ & _ & _ & _ & _ & _ & -> & _).
    - intros e x st H _ _ _. exact H.
    - intros st H. exact H.
    - intros e st H. exact H.
    - intros fn o st H. exact H.
    - intros t st H _. exact H.
    - intros t m key st H _ _. exact H.
    - intros t key a x d st H _ _ _ _ _. exact H. }
  intros p st. now apply H.
Qed.

(** X24. The debug hooks belong to the development build.  In a
    production build [track] calls no user code at all, [trigger]
    processes an effect by its scheduler or by the effect itself without
    calling [onTrigger], and no user code turns a production build into a
    development build. *)
Theorem production_build_calls_no_hooks (st : state) :
  dev st = false ->
  (forall call call' t ty key,
     track call t ty key st = track call' t ty key st) /\
  (forall call t ty key nv ov ot e x,
     effHeap st !! e = Some x ->
     run call t ty key nv ov ot e st
     = match scheduler (options x) with
       | Some s => (call (s e);; ret tt) st
       | None => (reactiveEffect call e;; ret tt) st
       end) /\
  (forall fuel p, dev (snd (exec fuel p st)) = false).
Proof.
  intros Hd. split; [|split].
  - intros call call' t ty key. unfold track.
    destruct (shouldTrack st); [|reflexivity].
    destruct (activeEffect st) as [a|]; [|reflexivity].
    destruct (ensure_dep_spec t key st)
      as (m & st1 & d & st2 & Hg & Hg2 & _ & _ & _ & _ & Hdev & _).
    unfold bind. rewrite Hg, Hg2.
    destruct (set_has a (dep_members st2 d)); simpl; [reflexivity|].
    unfold get_effect.
    destruct (effHeap st2 !! a) as [xa|]; [|reflexivity].
    unfold modify.
    change (dev (link a xa d st2)) with (dev st2). now rewrite Hdev, Hd.
  - intros call t ty key nv ov ot e x Hx. apply run_unfold; auto.
  - intros fuel p. now rewrite dev_exec.
Qed.

Lemma production_build_calls_no_hooks_witness :
  dev (snd (exec 20 two_readers (init false [VNum 0]))) = false.
Proof.
  apply (production_build_calls_no_hooks (init false [VNum 0]) eq_refl).
Defined.

(** ** Stopping an effect (lines 87-95) *)

(** X25. [stop], step by step.  On a stopped effect it changes nothing.
    On an active effect it first removes the effect from every set that
    its [deps] lists and empties [deps]; then it calls [onStop] when the
    options have one, and sets [active] to false when the hook has
    returned (an error of the hook goes to the caller and [active] stays
    true); without a hook it sets [active] to false at once.  No user code
    sets [active] back.  When the effect has no [onStop] and is stopped
    while it is not running (it is neither the active effect nor on the
    effect stack), it is subscribed to nothing from then on, whatever
    runs afterwards, and no [trigger] collects it. *)
Theorem stop_contract (call : prog -> M value) (e : eref)
    (x : ReactiveEffect) (st : state) :
  effHeap st !! e = Some x ->
  (active x = false -> stop call e st = (Normal tt, st)) /\
  (active x = true ->
   let st1 := cleanup_state e x st in
   (forall d, d ∈ deps x -> e ∉ dep_members st1 d) /\
   eff_deps st1 e = [] /\
   stop call e st
   = match onStop (options x) with
     | Some h =>
         match call h st1 with
         | (Normal _, st2) => (Normal tt, deactivate e st2)
         | (Thrown err, st2) => (Thrown err, st2)
         | (Halted h, st2) => (Halted h, st2)
         end
     | None => (Normal tt, deactivate e st1)
     end /\
   stopped (deactivate e st1) e /\
   (onStop (options x) = None -> consistent st ->
    e ∉ effectStack st -> activeEffect st ≠ Some e ->
    forall fuel p,
      let st' := snd (exec fuel p (deactivate e st1)) in
      stopped st' e /\
      (forall d, e ∉ dep_members st' d) /\
      (forall m t ty key nv effs,
         collect st' m t ty key nv = inr effs -> e ∉ effs))) /\
  (forall fuel p, stopped st e -> stopped (snd (exec fuel p st)) e).
Proof.
  intros Hx. split; [now apply stop_inactive|]. split.
  - intros Ha st1.
    split; [intros d; apply cleanup_state_unsubscribed|].
    split; [now apply cleanup_state_eff_deps|].
    split; [now apply stop_active|].
    assert (Hx1 : effHeap st1 !! e = Some (with_deps [] x))
      by (now apply cleanup_state_effHeap_self).
    split; [now apply (deactivate_stopped e (with_deps [] x))|].
    intros _ Hc Hk Hact fuel p st'.
    assert (Hq : quiescent e (deactivate e st1)).
    { split; [now apply (deactivate_stopped e (with_deps [] x))|].
      destruct (cleanup_state_context e x st) as (_ & Hk' & Ha' & _).
      split; [unfold deactivate; cbn; fold st1; unfold st1; now rewrite Hk'|].
      split; [unfold deactivate; cbn; fold st1; unfold st1; now rewrite Ha'|].
      intros d. rewrite deactivate_members.
      now apply cleanup_state_unsubscribed_all. }
    pose proof (quiescent_exec e fuel p _ Hq) as Hq'. fold st' in Hq'.
    split; [apply Hq'|]. split; [apply Hq'|].
    intros m t ty key nv effs. now apply quiescent_not_collected.
  - intros fuel p. apply stopped_exec.
Qed.

Lemma stop_contract_witness :
  effHeap two_readers_state !! 0 = Some first_reader /\
  stop (exec 5) 0 two_readers_state
  = (Normal tt, deactivate 0 (cleanup_state 0 first_reader two_readers_state)).
Proof.
  assert (H : effHeap two_readers_state !! 0 = Some first_reader)
    by (vm_compute; reflexivity).
  split; [exact H|].
  destruct (stop_contract (exec 5) 0 first_reader two_readers_state H)
    as (_ & Hs & _).
  destruct (Hs eq_refl) as (_ & _ & Heq & _). exact Heq.
Defined.
